(** * Procedural locomotion: the character update and the skeleton derivation

  A shallow embedding of the two character classes of the repository,
  [InteractiveCharacter] (src/interactive_animation_demo.py) and
  [ProceduralCharacter] (src/standalone_animation_demo.py), followed by the
  properties of the specification that concern them.

  Numbers.  Python's [float] is modelled by the real numbers [R]: every
  arithmetic operation, [math.sin], [math.cos], [math.sqrt] is read as the
  exact real operation.  Rounding, overflow, infinities and NaN are outside
  the model.  [math.pi] is the real number [PI]. *)

From Stdlib Require Import Reals Lra Lia List String Bool ZArith.
Import ListNotations.

Open Scope R_scope.

(** ** The numeric helpers the two files take from [math] and [numpy] *)

Module Np.

(** A numpy array of shape (2,). *)
Definition vec2 : Type := (R * R)%type.

Definition vadd (a b : vec2) : vec2 := (fst a + fst b, snd a + snd b).
Definition vsub (a b : vec2) : vec2 := (fst a - fst b, snd a - snd b).
Definition vscale (a : vec2) (k : R) : vec2 := (fst a * k, snd a * k).
Definition vdiv (a : vec2) (k : R) : vec2 := (fst a / k, snd a / k).

(** [np.linalg.norm] of a 2-vector: the Euclidean norm. *)
Definition norm (a : vec2) : R := sqrt (fst a * fst a + snd a * snd a).

(** [np.clip x lo hi] is [minimum (maximum x lo) hi]. *)
Definition clip (x lo hi : R) : R := Rmin (Rmax x lo) hi.

(** [math.degrees] and [math.radians]. *)
Definition degrees (x : R) : R := x * (180 / PI).
Definition radians (x : R) : R := x * (PI / 180).

(** [math.atan2 y x] on the reals: the angle of the point [(x, y)], in
    (-PI, PI], and 0 at the origin. *)
Definition atan2 (y x : R) : R :=
  if Rlt_dec 0 x then atan (y / x)
  else if Rlt_dec x 0 then
    (if Rle_dec 0 y then atan (y / x) + PI else atan (y / x) - PI)
  else if Rlt_dec 0 y then PI / 2
  else if Rlt_dec y 0 then - (PI / 2)
  else 0.

(** Python's [x > y] and [x != y] on floats, as booleans. *)
Definition gtb (x y : R) : bool := if Rlt_dec y x then true else false.
Definition ltb (x y : R) : bool := if Rlt_dec x y then true else false.
Definition neqb (x y : R) : bool := if Req_dec_T x y then false else true.

End Np.

(** The dictionary returned by [get_skeleton_points]: seven named joints. *)
Record SkeletonPose : Type := mkPose {
hip : Np.vec2;
spine_top : Np.vec2;
head : Np.vec2;
left_foot : Np.vec2;
right_foot : Np.vec2;
left_hand : Np.vec2;
right_hand : Np.vec2
}.

(** ** The keyboard variant: [InteractiveCharacter] *)

Module Interactive.
Import Np.

(** The mutable attributes of the object ([__init__], lines 25-36). *)
Record InteractiveCharacter : Type := mkCharacter {
  position : vec2;
  velocity : vec2;
  rotation : R;
  lean_angle : R;
  ground_speed : R;
  time : R;
  last_rotation : R;
  input_forward : R;
  input_turn : R
}.

(** The attributes [__init__] sets once and nothing assigns afterwards
    (lines 38-54). *)
Definition max_speed : R := 3.0.
Definition acceleration : R := 8.0.
Definition turn_speed : R := 2.5.
Definition friction : R := 0.85.
Definition max_lean_angle : R := 20.0.
Definition lean_interp_speed : R := 6.0.
Definition head_pitch_amplitude : R := 10.0.
Definition head_yaw_amplitude : R := 10.0.
Definition head_oscillation_speed : R := 1.5.
Definition body_height : R := 1.8.
Definition head_size : R := 0.2.
Definition leg_length : R := 0.9.

(** The object right after [__init__]. *)
Definition init : InteractiveCharacter :=
  {| position := (0, 0); velocity := (0, 0); rotation := 0;
     lean_angle := 0; ground_speed := 0; time := 0; last_rotation := 0;
     input_forward := 0; input_turn := 0 |}.

(** Attribute assignment, one setter per attribute. *)
Definition set_position (self : InteractiveCharacter) (v : vec2) :=
  mkCharacter v (velocity self) (rotation self) (lean_angle self)
    (ground_speed self) (time self) (last_rotation self)
    (input_forward self) (input_turn self).
Definition set_velocity (self : InteractiveCharacter) (v : vec2) :=
  mkCharacter (position self) v (rotation self) (lean_angle self)
    (ground_speed self) (time self) (last_rotation self)
    (input_forward self) (input_turn self).
Definition set_rotation (self : InteractiveCharacter) (v : R) :=
  mkCharacter (position self) (velocity self) v (lean_angle self)
    (ground_speed self) (time self) (last_rotation self)
    (input_forward self) (input_turn self).
Definition set_lean_angle (self : InteractiveCharacter) (v : R) :=
  mkCharacter (position self) (velocity self) (rotation self) v
    (ground_speed self) (time self) (last_rotation self)
    (input_forward self) (input_turn self).
Definition set_ground_speed (self : InteractiveCharacter) (v : R) :=
  mkCharacter (position self) (velocity self) (rotation self)
    (lean_angle self) v (time self) (last_rotation self)
    (input_forward self) (input_turn self).
Definition set_time (self : InteractiveCharacter) (v : R) :=
  mkCharacter (position self) (velocity self) (rotation self)
    (lean_angle self) (ground_speed self) v (last_rotation self)
    (input_forward self) (input_turn self).
Definition set_last_rotation (self : InteractiveCharacter) (v : R) :=
  mkCharacter (position self) (velocity self) (rotation self)
    (lean_angle self) (ground_speed self) (time self) v
    (input_forward self) (input_turn self).
Definition set_input_forward (self : InteractiveCharacter) (v : R) :=
  mkCharacter (position self) (velocity self) (rotation self)
    (lean_angle self) (ground_speed self) (time self) (last_rotation self)
    v (input_turn self).
Definition set_input_turn (self : InteractiveCharacter) (v : R) :=
  mkCharacter (position self) (velocity self) (rotation self)
    (lean_angle self) (ground_speed self) (time self) (last_rotation self)
    (input_forward self) v.

(** [update], lines 60-64: the rotation follows the turn input. *)
Definition update_rotation (dt : R) (self : InteractiveCharacter)
  : InteractiveCharacter :=
  if neqb (input_turn self) 0 then
    let rotation_change := input_turn self * turn_speed * dt in
    let self := set_last_rotation self (rotation self) in
    set_rotation self (rotation self + rotation_change)
  else self.

(** [update], lines 66-73: the velocity the input asks for. *)
Definition target_velocity (self : InteractiveCharacter) : vec2 :=
  let cos_r := cos (rotation self) in
  let sin_r := sin (rotation self) in
  (input_forward self * cos_r * max_speed,
   input_forward self * sin_r * max_speed).

(** [update], lines 75-84: bounded acceleration toward the target, then
    friction. *)
Definition update_velocity (dt : R) (self : InteractiveCharacter)
  : InteractiveCharacter :=
  let velocity_diff := vsub (target_velocity self) (velocity self) in
  let accel_magnitude := Rmin (acceleration * dt) (norm velocity_diff) in
  let self :=
    if gtb (norm velocity_diff) 0.001 then
      let velocity_diff :=
        vscale (vdiv velocity_diff (norm velocity_diff)) accel_magnitude in
      set_velocity self (vadd (velocity self) velocity_diff)
    else self in
  set_velocity self (vscale (velocity self) friction).

(** [update], lines 86-90. *)
Definition update_position (dt : R) (self : InteractiveCharacter)
  : InteractiveCharacter :=
  let self :=
    set_position self (vadd (position self) (vscale (velocity self) dt)) in
  set_ground_speed self (norm (velocity self)).

(** [update], lines 93 and 97-98: the yaw rate and the clamped lean
    target, read before [last_rotation] is overwritten. *)
Definition yaw_rate (dt : R) (self : InteractiveCharacter) : R :=
  (rotation self - last_rotation self) / Rmax dt 0.001.

Definition target_lean (dt : R) (self : InteractiveCharacter) : R :=
  let target_lean := degrees (yaw_rate dt self) * 0.5 in
  clip target_lean (- max_lean_angle) max_lean_angle.

(** [update], lines 92-101. *)
Definition update_lean (dt : R) (self : InteractiveCharacter)
  : InteractiveCharacter :=
  let target_lean := target_lean dt self in
  let self := set_last_rotation self (rotation self) in
  set_lean_angle self
    (lean_angle self
     + (target_lean - lean_angle self) * lean_interp_speed * dt).

(** [InteractiveCharacter.update] (lines 56-101). *)
Definition update (dt : R) (self : InteractiveCharacter)
  : InteractiveCharacter :=
  let self := set_time self (time self + dt) in
  let self := update_rotation dt self in
  let self := update_velocity dt self in
  let self := update_position dt self in
  update_lean dt self.

(** [rotate_point], the closure of [get_skeleton_points] (lines 114-118):
    the local X coordinate is scaled by the cosine of the lean, then the
    point is turned by the facing angle and moved to the position. *)
Definition rotate_point (self : InteractiveCharacter) (px py : R) : vec2 :=
  let x := fst (position self) in
  let y := snd (position self) in
  let lean_rad := radians (lean_angle self) in
  let cos_r := cos (rotation self) in
  let sin_r := sin (rotation self) in
  let px_lean := px * cos lean_rad in
  (x + px_lean * cos_r - py * sin_r,
   y + px_lean * sin_r + py * cos_r).

(** Line 139: the walk-cycle phase accumulator, with the speed floored
    at 0.5. *)
Definition stride_time (self : InteractiveCharacter) : R :=
  time self * Rmax (ground_speed self) 0.5 * 2.0.

(** Lines 142 and 149. *)
Definition left_phase (self : InteractiveCharacter) : R :=
  sin (stride_time self).
Definition right_phase (self : InteractiveCharacter) : R :=
  sin (stride_time self + PI).

(** The pose [get_skeleton_points] builds (lines 105-174). *)
Definition skeleton (self : InteractiveCharacter) : SkeletonPose :=
  let x := fst (position self) in
  let y := snd (position self) in
  let cos_r := cos (rotation self) in
  let hip := (x, y) in
  let spine_top := rotate_point self 0 (body_height * 0.6) in
  let head_time := time self * head_oscillation_speed in
  let head_pitch := sin head_time * radians head_pitch_amplitude in
  let head_yaw := cos head_time * radians head_yaw_amplitude in
  let head_offset_x := head_size * sin head_yaw in
  let head_offset_y := head_size * cos head_pitch in
  let head_x := fst spine_top + head_offset_x * cos_r in
  let head_y := snd spine_top + head_offset_y + 0.3 in
  let head := (head_x, head_y) in
  let left_phase := left_phase self in
  let left_foot :=
    rotate_point self (-0.2 + left_phase * 0.3)
      (- leg_length + Rabs left_phase * 0.2) in
  let right_phase := right_phase self in
  let right_foot :=
    rotate_point self (0.2 + right_phase * 0.3)
      (- leg_length + Rabs right_phase * 0.2) in
  let left_hand :=
    rotate_point self (-0.4 - right_phase * 0.2)
      (body_height * 0.3 - Rabs right_phase * 0.1) in
  let right_hand :=
    rotate_point self (0.4 - left_phase * 0.2)
      (body_height * 0.3 - Rabs left_phase * 0.1) in
  {| hip := hip; spine_top := spine_top; head := head;
     left_foot := left_foot; right_foot := right_foot;
     left_hand := left_hand; right_hand := right_hand |}.

(** [InteractiveCharacter.get_skeleton_points] as a method call: the
    returned dictionary and the object after the call.  The body assigns
    no attribute. *)
Definition get_skeleton_points (self : InteractiveCharacter)
  : SkeletonPose * InteractiveCharacter :=
  (skeleton self, self).

(** [event.key in [...]]. *)
Definition key_in (key : string) (keys : list string) : bool :=
  existsb (String.eqb key) keys.

(** [InteractiveRenderer.on_key_press] (lines 256-271), as far as it
    touches the character.  Escape closes the figure and leaves the
    character alone. *)
Definition on_key_press (key : string) (self : InteractiveCharacter)
  : InteractiveCharacter :=
  if key_in key ["w"%string; "up"%string] then set_input_forward self 1.0
  else if key_in key ["s"%string; "down"%string]
       then set_input_forward self (-1.0)
  else if key_in key ["a"%string; "left"%string]
       then set_input_turn self 1.0
  else if key_in key ["d"%string; "right"%string]
       then set_input_turn self (-1.0)
  else if String.eqb key " "%string then
    let self := set_input_forward self 0.0 in
    let self := set_input_turn self 0.0 in
    set_velocity self (vscale (velocity self) 0.0)
  else self.

(** [InteractiveRenderer.on_key_release] (lines 273-278). *)
Definition on_key_release (key : string) (self : InteractiveCharacter)
  : InteractiveCharacter :=
  if key_in key ["w"%string; "up"%string; "s"%string; "down"%string]
  then set_input_forward self 0.0
  else if key_in key ["a"%string; "left"%string; "d"%string; "right"%string]
  then set_input_turn self 0.0
  else self.

(** What the window delivers between two ticks. *)
Inductive key_event : Type :=
| KeyPress (key : string)
| KeyRelease (key : string).

Definition handle (e : key_event) (self : InteractiveCharacter)
  : InteractiveCharacter :=
  match e with
  | KeyPress k => on_key_press k self
  | KeyRelease k => on_key_release k self
  end.

Definition handle_all (es : list key_event) (self : InteractiveCharacter)
  : InteractiveCharacter :=
  fold_left (fun s e => handle e s) es self.

(** The fixed tick of [update_frame] (line 282). *)
Definition frame_dt : R := 1.0 / 30.0.

(** The states the animation shows: the fresh object, and the object
    after a tick, whatever keys were pressed or released since the tick
    before. *)
Inductive reachable : InteractiveCharacter -> Prop :=
| reachable_init : reachable init
| reachable_tick es s :
    reachable s -> reachable (update frame_dt (handle_all es s)).

(** [n] calls of [update dt] with the inputs left as they are. *)
Fixpoint run (n : nat) (dt : R) (self : InteractiveCharacter)
  : InteractiveCharacter :=
  match n with
  | O => self
  | S k => update dt (run k dt self)
  end.

(** The object just before the lean step of [update] (after line 90). *)
Definition before_lean (dt : R) (self : InteractiveCharacter)
  : InteractiveCharacter :=
  let self := set_time self (time self + dt) in
  let self := update_rotation dt self in
  let self := update_velocity dt self in
  update_position dt self.

(** The fresh character with the forward key held down. *)
Definition walking_start : InteractiveCharacter :=
  on_key_press "w" init.

(** A character at rest, leaning by one degree, no key held. *)
Definition leaning_at_rest : InteractiveCharacter :=
  set_lean_angle init 1.

(** A character coasting along the X axis, no key held. *)
Definition coasting : InteractiveCharacter :=
  set_velocity init (1, 0).

(** The states the character goes through while the program runs: the
    fresh object, and what a key press, a key release or a tick makes of
    such a state. *)
Inductive program_reachable : InteractiveCharacter -> Prop :=
| program_init : program_reachable init
| program_event e s :
    program_reachable s -> program_reachable (handle e s)
| program_tick s :
    program_reachable s -> program_reachable (update frame_dt s).

(** The walking character after one tick, and the same with the space bar
    pressed after that tick. *)
Definition after_first_step : InteractiveCharacter :=
  update frame_dt walking_start.

Definition stopped_after_first_step : InteractiveCharacter :=
  on_key_press " " after_first_step.

End Interactive.

(** ** The scripted variant: [ProceduralCharacter] *)

Module Standalone.
Import Np.

(** The dataclass [CharacterState] (lines 18-27). *)
Record CharacterState : Type := mkState {
  position : vec2;
  velocity : vec2;
  rotation : R;
  lean_angle : R;
  ground_speed : R;
  direction : R;
  time : R
}.

(** The mutable attributes of [ProceduralCharacter]: the state it owns
    and the path index (line 61). *)
Record ProceduralCharacter : Type := mkCharacter {
  state : CharacterState;
  path_index : Z
}.

(** The attributes [__init__] sets once and nothing assigns afterwards
    (lines 43-58). *)
Definition max_lean_angle : R := 20.0.
Definition lean_interp_speed : R := 6.0.
Definition head_pitch_amplitude : R := 10.0.
Definition head_yaw_amplitude : R := 10.0.
Definition head_oscillation_speed : R := 1.5.
Definition walk_speed : R := 2.0.
Definition turn_rate : R := 90.0.
Definition body_height : R := 1.8.
Definition head_size : R := 0.2.
Definition leg_length : R := 0.9.
Definition arm_length : R := 0.6.

(** The object right after [__init__]. *)
Definition init : ProceduralCharacter :=
  {| state := {| position := (0, 0); velocity := (0, 0); rotation := 0;
                 lean_angle := 0; ground_speed := 0; direction := 0;
                 time := 0 |};
     path_index := 0%Z |}.

(** Assignment to an attribute of [self.state]. *)
Definition set_position (st : CharacterState) (v : vec2) :=
  mkState v (velocity st) (rotation st) (lean_angle st) (ground_speed st)
    (direction st) (time st).
Definition set_velocity (st : CharacterState) (v : vec2) :=
  mkState (position st) v (rotation st) (lean_angle st) (ground_speed st)
    (direction st) (time st).
Definition set_rotation (st : CharacterState) (v : R) :=
  mkState (position st) (velocity st) v (lean_angle st) (ground_speed st)
    (direction st) (time st).
Definition set_lean_angle (st : CharacterState) (v : R) :=
  mkState (position st) (velocity st) (rotation st) v (ground_speed st)
    (direction st) (time st).
Definition set_ground_speed (st : CharacterState) (v : R) :=
  mkState (position st) (velocity st) (rotation st) (lean_angle st) v
    (direction st) (time st).
Definition set_time (st : CharacterState) (v : R) :=
  mkState (position st) (velocity st) (rotation st) (lean_angle st)
    (ground_speed st) (direction st) v.

(** [update], lines 67-73: the point of the figure-8 the character
    walks to. *)
Definition target_pos (st : CharacterState) : vec2 :=
  let t := time st * 0.3 in
  let target_x := 3.0 * sin t in
  let target_y := 1.5 * sin (2 * t) in
  (target_x, target_y).

(** [update], lines 74-87: velocity toward the target, position, ground
    speed. *)
Definition update_motion (dt : R) (st : CharacterState) : CharacterState :=
  let direction_to_target := vsub (target_pos st) (position st) in
  let distance := norm direction_to_target in
  let st :=
    if gtb distance 0.1 then
      let direction_to_target := vdiv direction_to_target distance in
      set_velocity st (vscale direction_to_target walk_speed)
    else set_velocity st (vscale (velocity st) 0.9) in
  let st :=
    set_position st (vadd (position st) (vscale (velocity st) dt)) in
  set_ground_speed st (norm (velocity st)).

(** The loop of lines 96-97, [while angle_diff > math.pi], with a bound
    on the number of tests; [None] when the bound is used up. *)
Fixpoint while_above_pi (fuel : nat) (angle_diff : R) : option R :=
  match fuel with
  | O => None
  | S fuel' =>
      if gtb angle_diff PI then while_above_pi fuel' (angle_diff - 2 * PI)
      else Some angle_diff
  end.

(** The loop of lines 98-99, [while angle_diff < -math.pi]. *)
Fixpoint while_below_neg_pi (fuel : nat) (angle_diff : R) : option R :=
  match fuel with
  | O => None
  | S fuel' =>
      if ltb angle_diff (- PI)
      then while_below_neg_pi fuel' (angle_diff + 2 * PI)
      else Some angle_diff
  end.

(** Lines 94-99: the difference between the heading of the velocity and
    the rotation, after the two loops. *)
Definition normalized_angle_diff (fuel : nat) (st : CharacterState)
  : option R :=
  let target_rotation := atan2 (snd (velocity st)) (fst (velocity st)) in
  let angle_diff := target_rotation - rotation st in
  match while_above_pi fuel angle_diff with
  | Some angle_diff => while_below_neg_pi fuel angle_diff
  | None => None
  end.

(** [update], lines 89-100: the value of [angle_diff] at line 103 and the
    state with the rotation turned toward the heading. *)
Definition update_rotation (fuel : nat) (dt : R) (st : CharacterState)
  : option (R * CharacterState) :=
  if gtb (ground_speed st) 0.1 then
    match normalized_angle_diff fuel st with
    | Some angle_diff =>
        Some (angle_diff,
              set_rotation st (rotation st + angle_diff * 5.0 * dt))
    | None => None
    end
  else Some (0.0, st).

(** [update], lines 103-105. *)
Definition yaw_rate (dt angle_diff : R) : R := angle_diff / Rmax dt 0.001.

Definition target_lean (dt angle_diff : R) : R :=
  let target_lean := yaw_rate dt angle_diff * 0.3 in
  clip target_lean (- max_lean_angle) max_lean_angle.

(** [update], lines 102-108. *)
Definition update_lean (dt angle_diff : R) (st : CharacterState)
  : CharacterState :=
  let target_lean := target_lean dt angle_diff in
  set_lean_angle st
    (lean_angle st
     + (target_lean - lean_angle st) * lean_interp_speed * dt).

(** [ProceduralCharacter.update] (lines 63-108).  [fuel] bounds the
    tests of each of the two loops; the result is [None] only when a
    loop needs more. *)
Definition update (fuel : nat) (dt : R) (self : ProceduralCharacter)
  : option ProceduralCharacter :=
  let st := state self in
  let st := set_time st (time st + dt) in
  let st := update_motion dt st in
  match update_rotation fuel dt st with
  | Some (angle_diff, st) =>
      Some {| state := update_lean dt angle_diff st;
              path_index := path_index self |}
  | None => None
  end.

(** One call of [update]: the loops run as long as they need to. *)
Definition step (dt : R) (self self' : ProceduralCharacter) : Prop :=
  exists fuel, update fuel dt self = Some self'.

(** [rotate_point], the closure of [get_skeleton_points]
    (lines 123-129). *)
Definition rotate_point (st : CharacterState) (px py : R) : vec2 :=
  let x := fst (position st) in
  let y := snd (position st) in
  let lean_rad := radians (lean_angle st) in
  let cos_r := cos (rotation st) in
  let sin_r := sin (rotation st) in
  let px_lean := px * cos lean_rad in
  (x + px_lean * cos_r - py * sin_r,
   y + px_lean * sin_r + py * cos_r).

(** Line 150: the walk-cycle phase accumulator, the ground speed taken
    as it is. *)
Definition stride_time (st : CharacterState) : R :=
  time st * ground_speed st * 2.0.

(** Lines 153 and 160. *)
Definition left_phase (st : CharacterState) : R := sin (stride_time st).
Definition right_phase (st : CharacterState) : R :=
  sin (stride_time st + PI).

(** The pose [get_skeleton_points] builds (lines 112-185). *)
Definition skeleton (self : ProceduralCharacter) : SkeletonPose :=
  let st := state self in
  let x := fst (position st) in
  let y := snd (position st) in
  let cos_r := cos (rotation st) in
  let hip := (x, y) in
  let spine_top := rotate_point st 0 (body_height * 0.6) in
  let head_time := time st * head_oscillation_speed in
  let head_pitch := sin head_time * radians head_pitch_amplitude in
  let head_yaw := cos head_time * radians head_yaw_amplitude in
  let head_offset_x := head_size * sin head_yaw in
  let head_offset_y := head_size * cos head_pitch in
  let head_x := fst spine_top + head_offset_x * cos_r in
  let head_y := snd spine_top + head_offset_y + 0.3 in
  let head := (head_x, head_y) in
  let left_phase := left_phase st in
  let left_foot :=
    rotate_point st (-0.2 + left_phase * 0.3)
      (- leg_length + Rabs left_phase * 0.2) in
  let right_phase := right_phase st in
  let right_foot :=
    rotate_point st (0.2 + right_phase * 0.3)
      (- leg_length + Rabs right_phase * 0.2) in
  let left_hand :=
    rotate_point st (-0.4 - right_phase * 0.2)
      (body_height * 0.3 - Rabs right_phase * 0.1) in
  let right_hand :=
    rotate_point st (0.4 - left_phase * 0.2)
      (body_height * 0.3 - Rabs left_phase * 0.1) in
  {| hip := hip; spine_top := spine_top; head := head;
     left_foot := left_foot; right_foot := right_foot;
     left_hand := left_hand; right_hand := right_hand |}.

(** [ProceduralCharacter.get_skeleton_points] as a method call: the
    returned dictionary and the object after the call.  The body assigns
    no attribute. *)
Definition get_skeleton_points (self : ProceduralCharacter)
  : SkeletonPose * ProceduralCharacter :=
  (skeleton self, self).

(** The fixed tick of [update_frame] (line 253). *)
Definition frame_dt : R := 1.0 / 30.0.

(** The states the animation shows: the fresh object and the object
    after each tick. *)
Inductive reachable : ProceduralCharacter -> Prop :=
| reachable_init : reachable init
| reachable_tick s s' :
    reachable s -> step frame_dt s s' -> reachable s'.

(** At the origin, at rest, facing 0, upright. *)
Definition resting (st : CharacterState) : Prop :=
  position st = (0, 0) /\ velocity st = (0, 0) /\ rotation st = 0
  /\ lean_angle st = 0.

(** [n] calls of [update dt] in a row. *)
Fixpoint run (fuel n : nat) (dt : R) (self : ProceduralCharacter)
  : option ProceduralCharacter :=
  match n with
  | O => Some self
  | S k =>
      match run fuel k dt self with
      | Some self' => update fuel dt self'
      | None => None
      end
  end.

(** A state in the middle of a tick, after the motion step: moving along
    the X axis and facing -5 rad, more than half a turn from the heading. *)
Definition turned_away : CharacterState :=
  {| position := (0, 0); velocity := (2, 0); rotation := -5;
     lean_angle := 0; ground_speed := 2; direction := 0; time := 0 |}.

(** A character one unit west of the point the figure-8 reaches at the end
    of the first tick, with the given facing angle: the tick sets its
    velocity to [(walk_speed, 0)], whose heading is 0. *)
Definition heading_east (rot : R) : ProceduralCharacter :=
  {| state := {| position := (3.0 * sin 0.01 - 1, 1.5 * sin (2 * 0.01));
                 velocity := (0, 0); rotation := rot; lean_angle := 0;
                 ground_speed := 0; direction := 0; time := 0 |};
     path_index := 0%Z |}.

End Standalone.

(** ** Method bodies as computations on the object *)

Module Method.

(** A method body run on an object of type [S]: the value it returns and
    the object as the body leaves it. *)
Definition method (S A : Type) : Type := S -> A * S.

Definition ret {S A : Type} (a : A) : method S A := fun self => (a, self).

Definition bind {S A B : Type} (m : method S A) (k : A -> method S B)
  : method S B :=
  fun self => let (a, self') := m self in k a self'.

(** Reading an attribute, [... = self.attr]. *)
Definition read {S A : Type} (attr : S -> A) : method S A :=
  fun self => (attr self, self).

(** Assigning an attribute, [self.attr = ...]. *)
Definition write {S : Type} (assign : S -> S) : method S unit :=
  fun self => (tt, assign self).


Declare Scope method_scope.
Delimit Scope method_scope with method.
Notation "x <- m ;; k" := (bind m (fun x => k))
  (at level 61, m at next level, right associativity) : method_scope.

End Method.

(** ** The bodies of [get_skeleton_points], statement by statement *)

Module SkeletonMethod.
Import Np Method.
Local Open Scope method_scope.

(** [InteractiveCharacter.get_skeleton_points] (lines 103-174): every
    [self.attr] of the body is a [read]; the body has no assignment to an
    attribute. *)
Definition interactive_get_skeleton_points
  : method Interactive.InteractiveCharacter SkeletonPose :=
  position <- read Interactive.position ;;
  let x := fst position in
  let y := snd position in
  rot <- read Interactive.rotation ;;
  lean_angle <- read Interactive.lean_angle ;;
  let lean_rad := radians lean_angle in
  let cos_r := cos rot in
  let sin_r := sin rot in
  let rotate_point := fun px py : R =>
    let px_lean := px * cos lean_rad in
    (x + px_lean * cos_r - py * sin_r,
     y + px_lean * sin_r + py * cos_r) in
  let hip := (x, y) in
  let spine_top := rotate_point 0 (Interactive.body_height * 0.6) in
  time <- read Interactive.time ;;
  let head_time := time * Interactive.head_oscillation_speed in
  let head_pitch :=
    sin head_time * radians Interactive.head_pitch_amplitude in
  let head_yaw :=
    cos head_time * radians Interactive.head_yaw_amplitude in
  let head_offset_x := Interactive.head_size * sin head_yaw in
  let head_offset_y := Interactive.head_size * cos head_pitch in
  let head_x := fst spine_top + head_offset_x * cos_r in
  let head_y := snd spine_top + head_offset_y + 0.3 in
  let head := (head_x, head_y) in
  time <- read Interactive.time ;;
  ground_speed <- read Interactive.ground_speed ;;
  let stride_time := time * Rmax ground_speed 0.5 * 2.0 in
  let left_phase := sin stride_time in
  let left_foot :=
    rotate_point (-0.2 + left_phase * 0.3)
      (- Interactive.leg_length + Rabs left_phase * 0.2) in
  let right_phase := sin (stride_time + PI) in
  let right_foot :=
    rotate_point (0.2 + right_phase * 0.3)
      (- Interactive.leg_length + Rabs right_phase * 0.2) in
  let left_hand :=
    rotate_point (-0.4 - right_phase * 0.2)
      (Interactive.body_height * 0.3 - Rabs right_phase * 0.1) in
  let right_hand :=
    rotate_point (0.4 - left_phase * 0.2)
      (Interactive.body_height * 0.3 - Rabs left_phase * 0.1) in
  ret {| hip := hip; spine_top := spine_top; head := head;
         left_foot := left_foot; right_foot := right_foot;
         left_hand := left_hand; right_hand := right_hand |}.


(** A body that is not read-only, for comparison: [get_skeleton_points]
    followed by the first statement of [update], [self.time += dt]. *)
Definition interactive_pose_then_tick (dt : R)
  : method Interactive.InteractiveCharacter SkeletonPose :=
  pose <- interactive_get_skeleton_points ;;
  _ <- write (fun self =>
                Interactive.set_time self (Interactive.time self + dt)) ;;
  ret pose.

End SkeletonMethod.

(** ** The lean rule in the words of the specification *)

Module Spec.
Import Np.

(** "targetLean = clamp(yawRate_as_degrees * leanGainFactor, -maxLeanAngle,
    +maxLeanAngle)", the yaw rate given in radians per second. *)
Definition target_lean (gain max_lean yaw_rate : R) : R :=
  clip (degrees yaw_rate * gain) (- max_lean) max_lean.

(** "leanAngle += (targetLean - leanAngle) * leanInterpSpeed * dt". *)
Definition smooth_lean (lean target speed dt : R) : R :=
  lean + (target - lean) * speed * dt.

End Spec.

(** ** Python lists and exceptions, as the renderers use them *)

Module Py.

(** The exceptions a call can end with: an index out of range, and a
    loop of the model that used up its bound. *)
Inductive exn : Type :=
| IndexError
| OutOfFuel.

Inductive result (A : Type) : Type :=
| Ok (a : A)
| Raise (e : exn).

Arguments Ok {A} a.
Arguments Raise {A} e.

Definition bind {A B : Type} (m : result A) (k : A -> result B) : result B :=
  match m with
  | Ok a => k a
  | Raise e => Raise e
  end.

(** [l.append(x)]. *)
Definition append {A : Type} (l : list A) (x : A) : list A := l ++ [x].

(** [l.pop(0)]: the first element and the rest; [IndexError] on the empty
    list. *)
Definition pop0 {A : Type} (l : list A) : result (A * list A) :=
  match l with
  | [] => Raise IndexError
  | x :: l' => Ok (x, l')
  end.

(** [l[i]] for an index [i >= 0]; [IndexError] when out of range. *)
Definition getitem {A : Type} (l : list A) (i : nat) : result A :=
  match nth_error l i with
  | Some x => Ok x
  | None => Raise IndexError
  end.

(** The data of a [Line2D]: the X and the Y coordinates given to
    [set_data]. *)
Definition line_data : Type := (list R * list R)%type.

End Py.

(** ** The window of the keyboard variant: [InteractiveRenderer] *)

Module InteractiveUI.
Import Np Py.

(** The attributes [update_frame] reads and writes ([__init__], lines
    179-254).  The texts of the info panel are left out. *)
Record InteractiveRenderer : Type := mkRenderer {
  character : Interactive.InteractiveCharacter;
  body_line : line_data;
  left_leg_line : line_data;
  right_leg_line : line_data;
  left_arm_line : line_data;
  right_arm_line : line_data;
  head_circle : vec2;
  direction_line : line_data;
  trail_line : line_data;
  trail_x : list R;
  trail_y : list R;
  frame_count : Z
}.

(** The renderer right after [__init__]. *)
Definition init : InteractiveRenderer :=
  {| character := Interactive.init;
     body_line := ([], []); left_leg_line := ([], []);
     right_leg_line := ([], []); left_arm_line := ([], []);
     right_arm_line := ([], []); head_circle := (0, 0);
     direction_line := ([], []); trail_line := ([], []);
     trail_x := []; trail_y := []; frame_count := 0%Z |}.

(** A segment from [a] to [b] as [set_data] gets it. *)
Definition segment (a b : vec2) : line_data :=
  ([fst a; fst b], [snd a; snd b]).

(** [update_frame], lines 299-303: the tip of the nose. *)
Definition nose (head : vec2) (rotation : R) : vec2 :=
  let nose_length := 0.25 in
  (fst head + nose_length * cos rotation,
   snd head + nose_length * sin rotation).

(** [update_frame], lines 326-331: every third frame the hip joins the
    trail, and the oldest point leaves once there are more than 150. *)
Definition update_trail (frame_count : Z) (hip : vec2)
  (trail_x trail_y : list R) : result (list R * list R) :=
  if (frame_count mod 3 =? 0)%Z then
    let trail_x := append trail_x (fst hip) in
    let trail_y := append trail_y (snd hip) in
    if (150 <? List.length trail_x)%nat then
      bind (pop0 trail_x) (fun px =>
      bind (pop0 trail_y) (fun py =>
      Ok (snd px, snd py)))
    else Ok (trail_x, trail_y)
  else Ok (trail_x, trail_y).

(** [InteractiveRenderer.update_frame] (lines 280-347), the info text
    apart. *)
Definition update_frame (self : InteractiveRenderer)
  : result InteractiveRenderer :=
  let dt := 1.0 / 30.0 in
  let character := Interactive.update dt (character self) in
  let frame_count := (frame_count self + 1)%Z in
  let (skeleton, character) := Interactive.get_skeleton_points character in
  let body_line := segment (hip skeleton) (spine_top skeleton) in
  let head_circle := head skeleton in
  let direction_line :=
    segment (head skeleton)
      (nose (head skeleton) (Interactive.rotation character)) in
  let left_leg_line := segment (hip skeleton) (left_foot skeleton) in
  let right_leg_line := segment (hip skeleton) (right_foot skeleton) in
  let left_arm_line := segment (spine_top skeleton) (left_hand skeleton) in
  let right_arm_line := segment (spine_top skeleton) (right_hand skeleton) in
  bind (update_trail frame_count (hip skeleton) (trail_x self) (trail_y self))
    (fun trail =>
       Ok {| character := character;
             body_line := body_line;
             left_leg_line := left_leg_line;
             right_leg_line := right_leg_line;
             left_arm_line := left_arm_line;
             right_arm_line := right_arm_line;
             head_circle := head_circle;
             direction_line := direction_line;
             trail_line := (fst trail, snd trail);
             trail_x := fst trail;
             trail_y := snd trail;
             frame_count := frame_count |}).

(** The values the key handlers write to an input attribute. *)
Definition key_value (x : R) : Prop := x = -1 \/ x = 0 \/ x = 1.

(** [n] calls of [update_frame] in a row. *)
Fixpoint frames (n : nat) (self : InteractiveRenderer)
  : result InteractiveRenderer :=
  match n with
  | O => Ok self
  | S k => bind (frames k self) update_frame
  end.

End InteractiveUI.

(** ** The window of the scripted variant: [AnimationRenderer] *)

Module StandaloneUI.
Import Np Py.

(** The attributes [update_frame] reads and writes ([__init__], lines
    190-249).  The texts of the info panel are left out. *)
Record AnimationRenderer : Type := mkRenderer {
  character : Standalone.ProceduralCharacter;
  body_line : line_data;
  left_leg_line : line_data;
  right_leg_line : line_data;
  left_arm_line : line_data;
  right_arm_line : line_data;
  head_circle : vec2;
  trail_line : line_data;
  trail_x : list R;
  trail_y : list R
}.

(** The renderer right after [__init__]. *)
Definition init : AnimationRenderer :=
  {| character := Standalone.init;
     body_line := ([], []); left_leg_line := ([], []);
     right_leg_line := ([], []); left_arm_line := ([], []);
     right_arm_line := ([], []); head_circle := (0, 0);
     trail_line := ([], []); trail_x := []; trail_y := [] |}.

(** [update_frame], lines 288-292: the hip joins the trail on every frame,
    and the oldest point leaves once there are more than 100. *)
Definition update_trail (hip : vec2) (trail_x trail_y : list R)
  : result (list R * list R) :=
  let trail_x := append trail_x (fst hip) in
  let trail_y := append trail_y (snd hip) in
  if (100 <? List.length trail_x)%nat then
    bind (pop0 trail_x) (fun px =>
    bind (pop0 trail_y) (fun py =>
    Ok (snd px, snd py)))
  else Ok (trail_x, trail_y).

(** [AnimationRenderer.update_frame] (lines 251-309), the info text
    apart.  [fuel] bounds the loops of the character's [update]. *)
Definition update_frame (fuel : nat) (self : AnimationRenderer)
  : result AnimationRenderer :=
  let dt := 1.0 / 30.0 in
  match Standalone.update fuel dt (character self) with
  | None => Raise OutOfFuel
  | Some character =>
      let (skeleton, character) :=
        Standalone.get_skeleton_points character in
      let body_line :=
        InteractiveUI.segment (hip skeleton) (spine_top skeleton) in
      let head_circle := head skeleton in
      let left_leg_line :=
        InteractiveUI.segment (hip skeleton) (left_foot skeleton) in
      let right_leg_line :=
        InteractiveUI.segment (hip skeleton) (right_foot skeleton) in
      let left_arm_line :=
        InteractiveUI.segment (spine_top skeleton) (left_hand skeleton) in
      let right_arm_line :=
        InteractiveUI.segment (spine_top skeleton) (right_hand skeleton) in
      bind (update_trail (hip skeleton) (trail_x self) (trail_y self))
        (fun trail =>
           Ok {| character := character;
                 body_line := body_line;
                 left_leg_line := left_leg_line;
                 right_leg_line := right_leg_line;
                 left_arm_line := left_arm_line;
                 right_arm_line := right_arm_line;
                 head_circle := head_circle;
                 trail_line := (fst trail, snd trail);
                 trail_x := fst trail;
                 trail_y := snd trail |})
  end.

(** [n] calls of [update_frame] in a row. *)
Fixpoint frames (fuel n : nat) (self : AnimationRenderer)
  : result AnimationRenderer :=
  match n with
  | O => Ok self
  | S k => bind (frames fuel k self) (update_frame fuel)
  end.

(** [main], lines 357-359: the path to save the video to, from
    [sys.argv]. *)
Definition save_path (argv : list string) : result (option string) :=
  bind (if (2 <? List.length argv)%nat
        then bind (getitem argv 1)
               (fun a => Ok (String.eqb a "--save"))
        else Ok false)
    (fun save =>
       if save then bind (getitem argv 2) (fun p => Ok (Some p))
       else Ok None).

End StandaloneUI.

(** ** Coordinates in the frame of the body *)

Module BodyFrame.
Import Np.

(** The coordinates of the world point [p] in the frame that sits at
    [origin] and is turned by [rotation]: [lateral] along the turned X axis
    [(cos rotation, sin rotation)], [height] along the turned Y axis
    [(- sin rotation, cos rotation)]. *)
Definition lateral (rotation : R) (origin p : vec2) : R :=
  (fst p - fst origin) * cos rotation + (snd p - snd origin) * sin rotation.

Definition height (rotation : R) (origin p : vec2) : R :=
  - (fst p - fst origin) * sin rotation
  + (snd p - snd origin) * cos rotation.

End BodyFrame.

(** ** Basic facts about the numeric helpers *)

Section NpFacts.
Import Np.

Lemma gtb_true (x y : R) : gtb x y = true <-> y < x.
Proof.
  unfold gtb; destruct (Rlt_dec y x); split; intros; congruence || lra.
Qed.

Lemma gtb_false (x y : R) : gtb x y = false <-> x <= y.
Proof.
  unfold gtb; destruct (Rlt_dec y x); split; intros; congruence || lra.
Qed.

Lemma ltb_true (x y : R) : ltb x y = true <-> x < y.
Proof.
  unfold ltb; destruct (Rlt_dec x y); split; intros; congruence || lra.
Qed.

Lemma ltb_false (x y : R) : ltb x y = false <-> y <= x.
Proof.
  unfold ltb; destruct (Rlt_dec x y); split; intros; congruence || lra.
Qed.

Lemma neqb_false (x y : R) : neqb x y = false <-> x = y.
Proof.
  unfold neqb; destruct (Req_dec_T x y); split; intros; congruence.
Qed.

Lemma norm_nonneg (a : vec2) : 0 <= norm a.
Proof. apply sqrt_pos. Qed.

Lemma norm_vscale (a : vec2) (k : R) : norm (vscale a k) = Rabs k * norm a.
Proof.
  unfold norm, vscale; simpl.
  replace (fst a * k * (fst a * k) + snd a * k * (snd a * k))
    with (Rsqr k * (fst a * fst a + snd a * snd a)) by (unfold Rsqr; ring).
  rewrite sqrt_mult_alt by apply Rle_0_sqr.
  now rewrite sqrt_Rsqr_abs.
Qed.

Lemma norm_zero : norm (0, 0) = 0.
Proof.
  unfold norm; simpl. replace (0 * 0 + 0 * 0) with 0 by ring. apply sqrt_0.
Qed.

Lemma norm_x_axis (x : R) : norm (x, 0) = Rabs x.
Proof.
  unfold norm; simpl. replace (x * x + 0 * 0) with (Rsqr x)
    by (unfold Rsqr; ring).
  apply sqrt_Rsqr_abs.
Qed.

Lemma abs_fst_le_norm (a : vec2) : Rabs (fst a) <= norm a.
Proof.
  unfold norm. rewrite <- sqrt_Rsqr_abs. apply sqrt_le_1_alt.
  unfold Rsqr. pose proof (Rle_0_sqr (snd a)) as H. unfold Rsqr in H. lra.
Qed.

Lemma abs_snd_le_norm (a : vec2) : Rabs (snd a) <= norm a.
Proof.
  unfold norm. rewrite <- sqrt_Rsqr_abs. apply sqrt_le_1_alt.
  unfold Rsqr. pose proof (Rle_0_sqr (fst a)) as H. unfold Rsqr in H. lra.
Qed.

Lemma clip_bounds (x lo hi : R) : lo <= hi -> lo <= clip x lo hi <= hi.
Proof.
  intros H. unfold clip, Rmin, Rmax.
  destruct (Rle_dec x lo); destruct (Rle_dec _ hi); lra.
Qed.

Lemma clip_inside (x lo hi : R) : lo <= x <= hi -> clip x lo hi = x.
Proof.
  intros H. unfold clip, Rmin, Rmax.
  destruct (Rle_dec x lo); destruct (Rle_dec _ hi); lra.
Qed.

Lemma clip_above (x lo hi : R) : lo <= hi -> hi <= x -> clip x lo hi = hi.
Proof.
  intros H1 H2. unfold clip, Rmin, Rmax.
  destruct (Rle_dec x lo); destruct (Rle_dec _ hi); lra.
Qed.

End NpFacts.

(** ** Termination of the two normalisation loops *)

Section Loops.
Import Np Standalone.

Lemma nat_above (x : R) : exists n : nat, x <= INR n.
Proof.
  destruct (archimed x) as [Hup _].
  destruct (Z_lt_le_dec (up x) 0) as [Hneg | Hpos].
  - exists O. apply IZR_lt in Hneg. simpl. lra.
  - exists (Z.to_nat (up x)).
    rewrite INR_IZR_INZ, Z2Nat.id by assumption. lra.
Qed.

Lemma while_above_pi_spec (n : nat) :
  forall a, a <= PI + 2 * PI * INR n ->
  exists r, while_above_pi (S n) a = Some r
            /\ r <= PI /\ (a <= PI -> r = a) /\ (PI < a -> - PI < r).
Proof.
  induction n as [| n IH]; intros a Ha.
  - simpl in Ha. exists a. simpl.
    destruct (gtb a PI) eqn:E.
    + apply gtb_true in E. lra.
    + repeat split; auto; lra.
  - rewrite S_INR in Ha.
    change (while_above_pi (S (S n)) a)
      with (if gtb a PI then while_above_pi (S n) (a - 2 * PI) else Some a).
    destruct (gtb a PI) eqn:E.
    + apply gtb_true in E.
      destruct (IH (a - 2 * PI)) as (r & Hr & Hle & Hid & Hgt); [lra |].
      exists r. split; [assumption |]. split; [assumption |].
      split; [intro; lra |].
      intros _. destruct (Rle_dec (a - 2 * PI) PI) as [Hin | Hout].
      * rewrite (Hid Hin). lra.
      * apply Hgt. lra.
    + apply gtb_false in E. exists a. repeat split; auto; lra.
Qed.

Lemma while_below_neg_pi_spec (n : nat) :
  forall a, - PI - 2 * PI * INR n <= a ->
  exists r, while_below_neg_pi (S n) a = Some r
            /\ - PI <= r /\ (- PI <= a -> r = a) /\ (a < - PI -> r < PI).
Proof.
  induction n as [| n IH]; intros a Ha.
  - simpl in Ha. exists a. simpl.
    destruct (ltb a (- PI)) eqn:E.
    + apply ltb_true in E. lra.
    + repeat split; auto; lra.
  - rewrite S_INR in Ha.
    change (while_below_neg_pi (S (S n)) a)
      with (if ltb a (- PI)
            then while_below_neg_pi (S n) (a + 2 * PI) else Some a).
    destruct (ltb a (- PI)) eqn:E.
    + apply ltb_true in E.
      destruct (IH (a + 2 * PI)) as (r & Hr & Hle & Hid & Hlt); [lra |].
      exists r. split; [assumption |]. split; [assumption |].
      split; [intro; lra |].
      intros _. destruct (Rle_dec (- PI) (a + 2 * PI)) as [Hin | Hout].
      * rewrite (Hid Hin). lra.
      * apply Hlt. lra.
    + apply ltb_false in E. exists a. repeat split; auto; lra.
Qed.

(** More fuel never changes the result of a loop that has ended. *)
Lemma while_above_pi_mono (n m : nat) (a r : R) :
  while_above_pi n a = Some r -> (n <= m)%nat -> while_above_pi m a = Some r.
Proof.
  revert m a. induction n as [| n IH]; intros m a H Hle; [discriminate |].
  destruct m as [| m]; [lia |]. simpl in *.
  destruct (gtb a PI); auto. apply IH; auto. lia.
Qed.

Lemma while_below_neg_pi_mono (n m : nat) (a r : R) :
  while_below_neg_pi n a = Some r -> (n <= m)%nat ->
  while_below_neg_pi m a = Some r.
Proof.
  revert m a. induction n as [| n IH]; intros m a H Hle; [discriminate |].
  destruct m as [| m]; [lia |]. simpl in *.
  destruct (ltb a (- PI)); auto. apply IH; auto. lia.
Qed.

(** What a loop returns satisfies the negation of its test. *)
Lemma while_above_pi_exit (n : nat) :
  forall a r, while_above_pi n a = Some r ->
  r <= PI /\ (a <= PI -> r = a) /\ (PI < a -> - PI < r).
Proof.
  induction n as [| n IH]; intros a r H; [discriminate |].
  simpl in H. destruct (gtb a PI) eqn:E.
  - apply gtb_true in E. destruct (IH _ _ H) as (Hle & Hid & Hgt).
    split; [lra |]. split; [intro; lra |].
    intros _. destruct (Rle_dec (a - 2 * PI) PI) as [Hin | Hout].
    + rewrite (Hid Hin). lra.
    + apply Hgt. lra.
  - apply gtb_false in E. inversion H; subst. repeat split; auto; lra.
Qed.

Lemma while_below_neg_pi_exit (n : nat) :
  forall a r, while_below_neg_pi n a = Some r ->
  - PI <= r /\ (- PI <= a -> r = a) /\ (a < - PI -> r < PI).
Proof.
  induction n as [| n IH]; intros a r H; [discriminate |].
  simpl in H. destruct (ltb a (- PI)) eqn:E.
  - apply ltb_true in E. destruct (IH _ _ H) as (Hle & Hid & Hlt).
    split; [lra |]. split; [intro; lra |].
    intros _. destruct (Rle_dec (- PI) (a + 2 * PI)) as [Hin | Hout].
    + rewrite (Hid Hin). lra.
    + apply Hlt. lra.
  - apply ltb_false in E. inversion H; subst. repeat split; auto; lra.
Qed.

Lemma while_above_pi_total (a : R) : exists n r, while_above_pi n a = Some r.
Proof.
  destruct (nat_above ((a - PI) / (2 * PI))) as [n Hn].
  assert (HPI : 0 < 2 * PI) by (pose proof PI_RGT_0; lra).
  destruct (while_above_pi_spec n a) as (r & Hr & _).
  - apply (Rmult_le_compat_r (2 * PI)) in Hn; [| lra].
    unfold Rdiv in Hn. rewrite Rmult_assoc, Rinv_l, Rmult_1_r in Hn by lra.
    lra.
  - eauto.
Qed.

Lemma while_below_neg_pi_total (a : R) :
  exists n r, while_below_neg_pi n a = Some r.
Proof.
  destruct (nat_above ((- PI - a) / (2 * PI))) as [n Hn].
  assert (HPI : 0 < 2 * PI) by (pose proof PI_RGT_0; lra).
  destruct (while_below_neg_pi_spec n a) as (r & Hr & _).
  - apply (Rmult_le_compat_r (2 * PI)) in Hn; [| lra].
    unfold Rdiv in Hn. rewrite Rmult_assoc, Rinv_l, Rmult_1_r in Hn by lra.
    lra.
  - eauto.
Qed.

Lemma normalized_angle_diff_total (st : CharacterState) :
  exists fuel d, normalized_angle_diff fuel st = Some d.
Proof.
  unfold normalized_angle_diff.
  set (a := atan2 _ _ - _).
  destruct (while_above_pi_total a) as (n1 & b & Hb).
  destruct (while_below_neg_pi_total b) as (n2 & c & Hc).
  exists (Nat.max n1 n2), c.
  rewrite (while_above_pi_mono n1 _ a b Hb) by lia.
  apply (while_below_neg_pi_mono n2); auto; lia.
Qed.

Lemma normalized_angle_diff_mono (n m : nat) (st : CharacterState) (d : R) :
  normalized_angle_diff n st = Some d -> (n <= m)%nat ->
  normalized_angle_diff m st = Some d.
Proof.
  unfold normalized_angle_diff. intros H Hle.
  destruct (while_above_pi n _) as [b |] eqn:Hb; [| discriminate].
  rewrite (while_above_pi_mono n m _ b Hb Hle).
  now apply (while_below_neg_pi_mono n).
Qed.

Lemma normalized_angle_diff_range (n : nat) (st : CharacterState) (d : R) :
  normalized_angle_diff n st = Some d -> - PI <= d <= PI.
Proof.
  unfold normalized_angle_diff. intros H.
  destruct (while_above_pi n _) as [b |] eqn:Hb; [| discriminate].
  apply while_above_pi_exit in Hb. apply while_below_neg_pi_exit in H.
  destruct Hb as (Hb1 & _), H as (H1 & H2 & H3).
  split; [assumption |].
  destruct (Rle_dec (- PI) b) as [Hin | Hout].
  - rewrite (H2 Hin). assumption.
  - apply Rlt_le, H3. lra.
Qed.

(** Every call of [update] returns. *)
Lemma update_total (dt : R) (self : ProceduralCharacter) :
  exists fuel self', update fuel dt self = Some self'.
Proof.
  unfold update, update_rotation.
  set (st := update_motion dt _).
  destruct (gtb (ground_speed st) 0.1).
  - destruct (normalized_angle_diff_total st) as (fuel & d & Hd).
    exists fuel. rewrite Hd. eauto.
  - exists O. eauto.
Qed.

Lemma update_mono (n m : nat) (dt : R) (self self' : ProceduralCharacter) :
  update n dt self = Some self' -> (n <= m)%nat ->
  update m dt self = Some self'.
Proof.
  unfold update, update_rotation. intros H Hle.
  set (st := update_motion dt _) in *.
  destruct (gtb (ground_speed st) 0.1); [| assumption].
  destruct (normalized_angle_diff n st) as [d |] eqn:Hd; [| discriminate].
  now rewrite (normalized_angle_diff_mono n m st d Hd Hle).
Qed.

(** The result of a call does not depend on the bound. *)
Lemma step_deterministic (dt : R) (s s1 s2 : ProceduralCharacter) :
  step dt s s1 -> step dt s s2 -> s1 = s2.
Proof.
  intros [n1 H1] [n2 H2].
  apply (update_mono n1 (Nat.max n1 n2)) in H1; [| lia].
  apply (update_mono n2 (Nat.max n1 n2)) in H2; [| lia].
  congruence.
Qed.

End Loops.

(** ** Ground speed *)

Section GroundSpeed.
Import Np.

Lemma interactive_update_ground_speed dt s :
  Interactive.ground_speed (Interactive.update dt s)
  = norm (Interactive.velocity (Interactive.update dt s)).
Proof. reflexivity. Qed.

Lemma standalone_update_ground_speed fuel dt s s' :
  Standalone.update fuel dt s = Some s' ->
  Standalone.ground_speed (Standalone.state s')
  = norm (Standalone.velocity (Standalone.state s')).
Proof.
  unfold Standalone.update, Standalone.update_rotation. intros H.
  set (st := Standalone.update_motion dt _) in *.
  assert (Hst : Standalone.ground_speed st = norm (Standalone.velocity st))
    by reflexivity.
  destruct (gtb (Standalone.ground_speed st) 0.1).
  - destruct (Standalone.normalized_angle_diff fuel st); [| discriminate].
    inversion H; subst; simpl. exact Hst.
  - inversion H; subst; simpl. exact Hst.
Qed.

End GroundSpeed.

(** ** The skeleton *)

Section ReadOnly.
Import Method SkeletonMethod.







(** A body with an assignment does change the object: the frame lemma is
    about the statements of the body, not about every body. *)
Lemma pose_then_tick_changes_the_object :
  snd (interactive_pose_then_tick 1 Interactive.init) <> Interactive.init.
Proof.
  unfold interactive_pose_then_tick, bind, write, ret. simpl.
  intros H. apply (f_equal Interactive.time) in H. simpl in H. lra.
Qed.

End ReadOnly.


(** C8. The phase of the right leg is the opposite of the phase of the
    left leg, in every state of both variants. *)
Theorem C8_leg_phases_are_antiphase :
  (forall s, Interactive.right_phase s = - Interactive.left_phase s)
  /\ (forall st, Standalone.right_phase st = - Standalone.left_phase st).
Proof.
  split; intros s.
  - unfold Interactive.right_phase, Interactive.left_phase. apply neg_sin.
  - unfold Standalone.right_phase, Standalone.left_phase. apply neg_sin.
Qed.

(** C9. The keyboard variant advances the walk cycle by
    [time * max(ground_speed, 0.5) * 2.0], the scripted variant by
    [time * ground_speed * 2.0].  The feet are placed from these phases.  At
    rest (ground speed 0) the keyboard variant's phase is [sin time], so the
    cycle goes on, and the scripted variant's phases are 0 at every time, so
    the cycle is frozen. *)
Theorem C9_stride_time_floor_differs :
  (forall s,
      Interactive.stride_time s
      = Interactive.time s * Rmax (Interactive.ground_speed s) 0.5 * 2.0)
  /\ (forall st,
         Standalone.stride_time st
         = Standalone.time st * Standalone.ground_speed st * 2.0)
  /\ (forall s,
         left_foot (fst (Interactive.get_skeleton_points s))
         = Interactive.rotate_point s
             (-0.2 + sin (Interactive.time s
                          * Rmax (Interactive.ground_speed s) 0.5 * 2.0) * 0.3)
             (- Interactive.leg_length
              + Rabs (sin (Interactive.time s
                           * Rmax (Interactive.ground_speed s) 0.5 * 2.0))
                * 0.2))
  /\ (forall s,
         let st := Standalone.state s in
         left_foot (fst (Standalone.get_skeleton_points s))
         = Standalone.rotate_point st
             (-0.2 + sin (Standalone.time st
                          * Standalone.ground_speed st * 2.0) * 0.3)
             (- Standalone.leg_length
              + Rabs (sin (Standalone.time st
                           * Standalone.ground_speed st * 2.0)) * 0.2))
  /\ (forall s,
         Interactive.ground_speed s = 0 ->
         Interactive.stride_time s = Interactive.time s
         /\ Interactive.left_phase s = sin (Interactive.time s))
  /\ (forall st,
         Standalone.ground_speed st = 0 ->
         Standalone.stride_time st = 0
         /\ Standalone.left_phase st = 0
         /\ Standalone.right_phase st = 0).
Proof.
  repeat split; try reflexivity.
  - unfold Interactive.stride_time. rewrite H.
    unfold Rmax. destruct (Rle_dec 0 0.5); lra.
  - unfold Interactive.left_phase, Interactive.stride_time. rewrite H.
    f_equal. unfold Rmax. destruct (Rle_dec 0 0.5); lra.
  - unfold Standalone.stride_time. rewrite H. ring.
  - unfold Standalone.left_phase, Standalone.stride_time. rewrite H.
    replace (Standalone.time st * 0 * 2.0) with 0 by ring. apply sin_0.
  - unfold Standalone.right_phase, Standalone.stride_time. rewrite H.
    replace (Standalone.time st * 0 * 2.0 + PI) with PI by ring. apply sin_PI.
Qed.

Lemma C9_witness :
  Standalone.ground_speed
    (Standalone.set_time (Standalone.state Standalone.init) 5) = 0
  /\ Standalone.stride_time
       (Standalone.set_time (Standalone.state Standalone.init) 5) = 0
  /\ Standalone.left_phase
       (Standalone.set_time (Standalone.state Standalone.init) 5) = 0
  /\ Standalone.right_phase
       (Standalone.set_time (Standalone.state Standalone.init) 5) = 0.
Proof.
  split; [reflexivity |].
  apply (proj2 (proj2 (proj2 (proj2 (proj2 C9_stride_time_floor_differs))))).
  reflexivity.
Defined.

(** ** The lean angle *)

Section Lean.
Import Np.

(** One smoothing step toward a target inside a symmetric range stays
    inside the range when the step factor is between 0 and 1. *)
Lemma lean_step_in_range (m lean target k dt : R) :
  0 <= k * dt <= 1 ->
  - m <= lean <= m -> - m <= target <= m ->
  - m <= lean + (target - lean) * k * dt <= m.
Proof.
  intros Hk Hl Ht. rewrite Rmult_assoc. set (c := k * dt) in *. split; nra.
Qed.

Lemma interactive_update_lean_angle dt s :
  exists target,
    - Interactive.max_lean_angle <= target <= Interactive.max_lean_angle
    /\ Interactive.lean_angle (Interactive.update dt s)
       = Interactive.lean_angle s
         + (target - Interactive.lean_angle s)
           * Interactive.lean_interp_speed * dt.
Proof.
  unfold Interactive.update.
  set (s1 := Interactive.set_time s _).
  set (s2 := Interactive.update_rotation dt s1).
  set (s3 := Interactive.update_velocity dt s2).
  set (s4 := Interactive.update_position dt s3).
  exists (Interactive.target_lean dt s4). split.
  - apply clip_bounds. unfold Interactive.max_lean_angle. lra.
  - assert (H : Interactive.lean_angle s4 = Interactive.lean_angle s).
    { subst s4 s3 s2 s1. unfold Interactive.update_position,
        Interactive.update_velocity, Interactive.update_rotation.
      simpl. destruct (gtb _ 0.001); simpl;
        destruct (neqb _ 0); reflexivity. }
    rewrite <- H. reflexivity.
Qed.

Lemma on_key_press_lean_angle key s :
  Interactive.lean_angle (Interactive.on_key_press key s)
  = Interactive.lean_angle s.
Proof.
  unfold Interactive.on_key_press.
  repeat match goal with
         | |- context [if ?b then _ else _] => destruct b
         end; reflexivity.
Qed.

Lemma on_key_release_lean_angle key s :
  Interactive.lean_angle (Interactive.on_key_release key s)
  = Interactive.lean_angle s.
Proof.
  unfold Interactive.on_key_release.
  repeat match goal with
         | |- context [if ?b then _ else _] => destruct b
         end; reflexivity.
Qed.

Lemma handle_all_lean_angle es :
  forall s,
    Interactive.lean_angle (Interactive.handle_all es s)
    = Interactive.lean_angle s.
Proof.
  induction es as [| e es IH]; intros s; [reflexivity |].
  unfold Interactive.handle_all in *. simpl. rewrite IH.
  destruct e; [apply on_key_press_lean_angle | apply on_key_release_lean_angle].
Qed.

Lemma update_motion_lean_angle dt st :
  Standalone.lean_angle (Standalone.update_motion dt st)
  = Standalone.lean_angle st.
Proof.
  unfold Standalone.update_motion. simpl. destruct (gtb _ 0.1); reflexivity.
Qed.

Lemma standalone_update_lean_angle fuel dt s s' :
  Standalone.update fuel dt s = Some s' ->
  exists target,
    - Standalone.max_lean_angle <= target <= Standalone.max_lean_angle
    /\ Standalone.lean_angle (Standalone.state s')
       = Standalone.lean_angle (Standalone.state s)
         + (target - Standalone.lean_angle (Standalone.state s))
           * Standalone.lean_interp_speed * dt.
Proof.
  unfold Standalone.update, Standalone.update_rotation. intros H.
  set (st := Standalone.update_motion dt _) in *.
  assert (Hst : Standalone.lean_angle st
                = Standalone.lean_angle (Standalone.state s)).
  { subst st. now rewrite update_motion_lean_angle. }
  assert (Hb : forall d,
             - Standalone.max_lean_angle <= Standalone.target_lean dt d
             <= Standalone.max_lean_angle).
  { intros d. apply clip_bounds. unfold Standalone.max_lean_angle. lra. }
  destruct (gtb (Standalone.ground_speed st) 0.1).
  - destruct (Standalone.normalized_angle_diff fuel st) as [d |];
      [| discriminate].
    inversion H; subst s'. exists (Standalone.target_lean dt d).
    split; [apply Hb |]. rewrite <- Hst. reflexivity.
  - inversion H; subst s'. exists (Standalone.target_lean dt 0.0).
    split; [apply Hb |]. rewrite <- Hst. reflexivity.
Qed.

End Lean.

(** C3. In every state reachable from the fresh object by ticks of 1/30 s,
    with any key presses and releases between the ticks of the keyboard
    variant, the lean angle lies between [- max_lean_angle] and
    [max_lean_angle], that is, within 20 degrees of zero. *)
Theorem C3_lean_angle_stays_in_range :
  (forall s,
      Interactive.reachable s ->
      - Interactive.max_lean_angle <= Interactive.lean_angle s
      <= Interactive.max_lean_angle
      /\ Rabs (Interactive.lean_angle s) <= 20)
  /\ (forall s,
         Standalone.reachable s ->
         - Standalone.max_lean_angle
         <= Standalone.lean_angle (Standalone.state s)
         <= Standalone.max_lean_angle
         /\ Rabs (Standalone.lean_angle (Standalone.state s)) <= 20).
Proof.
  split.
  - intros s Hs.
    assert (H : - Interactive.max_lean_angle <= Interactive.lean_angle s
                <= Interactive.max_lean_angle).
    { induction Hs as [| es s Hs IH].
      - simpl. unfold Interactive.max_lean_angle. lra.
      - destruct (interactive_update_lean_angle Interactive.frame_dt
                    (Interactive.handle_all es s)) as (target & Ht & ->).
        rewrite handle_all_lean_angle.
        apply lean_step_in_range; auto.
        unfold Interactive.lean_interp_speed, Interactive.frame_dt. lra. }
    split; [exact H |].
    unfold Interactive.max_lean_angle in H. apply Rabs_le. lra.
  - intros s Hs.
    assert (H : - Standalone.max_lean_angle
                <= Standalone.lean_angle (Standalone.state s)
                <= Standalone.max_lean_angle).
    { induction Hs as [| s s' Hs IH [fuel Hstep]].
      - simpl. unfold Standalone.max_lean_angle. lra.
      - destruct (standalone_update_lean_angle _ _ _ _ Hstep)
          as (target & Ht & ->).
        apply lean_step_in_range; auto.
        unfold Standalone.lean_interp_speed, Standalone.frame_dt. lra. }
    split; [exact H |].
    unfold Standalone.max_lean_angle in H. apply Rabs_le. lra.
Qed.

Lemma C3_witness :
  Interactive.reachable
    (Interactive.update Interactive.frame_dt
       (Interactive.handle_all [Interactive.KeyPress "a"] Interactive.init))
  /\ Rabs (Interactive.lean_angle
             (Interactive.update Interactive.frame_dt
                (Interactive.handle_all [Interactive.KeyPress "a"]
                   Interactive.init)))
     <= 20.
Proof.
  assert (H : Interactive.reachable
                (Interactive.update Interactive.frame_dt
                   (Interactive.handle_all [Interactive.KeyPress "a"]
                      Interactive.init)))
    by (apply Interactive.reachable_tick, Interactive.reachable_init).
  split; [exact H |].
  exact (proj2 (proj1 C3_lean_angle_stays_in_range _ H)).
Defined.

(** ** The scripted variant on a character that starts walking east *)

Section HeadingEast.
Import Np Standalone.

Lemma atan2_east : atan2 0 2 = 0.
Proof.
  unfold atan2. destruct (Rlt_dec 0 2); [| lra].
  replace (0 / 2) with 0 by lra. apply atan_0.
Qed.

Lemma heading_east_motion rot :
  let st := update_motion frame_dt
              (set_time (state (heading_east rot)) (0 + frame_dt)) in
  velocity st = (2, 0) /\ ground_speed st = 2 /\ rotation st = rot
  /\ lean_angle st = 0.
Proof.
  intros st.
  assert (Hd : vsub (target_pos (set_time (state (heading_east rot))
                                   (0 + frame_dt)))
                 (position (state (heading_east rot))) = (1, 0)).
  { unfold vsub, target_pos, frame_dt. simpl.
    replace ((0 + 1.0 / 30.0) * 0.3) with 0.01 by lra.
    f_equal; lra. }
  assert (Hv : velocity st = (2, 0)).
  { subst st. unfold update_motion.
    change (position (set_time (state (heading_east rot)) (0 + frame_dt)))
      with (position (state (heading_east rot))).
    rewrite Hd, norm_x_axis, Rabs_R1.
    assert (E : gtb 1 0.1 = true) by (apply gtb_true; lra).
    rewrite E. unfold vscale, vdiv, walk_speed. simpl. f_equal; lra. }
  split; [exact Hv |]. split.
  - change (ground_speed st) with (norm (velocity st)).
    rewrite Hv, norm_x_axis. apply Rabs_right. lra.
  - subst st. unfold update_motion. simpl. destruct (gtb _ 0.1); auto.
Qed.

(** One tick on [heading_east rot] when the difference to the heading
    needs no turn of the loops. *)
Lemma heading_east_update rot :
  - PI <= 0 - rot <= PI ->
  exists s',
    update 1 frame_dt (heading_east rot) = Some s'
    /\ update_rotation 1 frame_dt
         (update_motion frame_dt
            (set_time (state (heading_east rot)) (0 + frame_dt)))
       = Some (0 - rot,
               set_rotation
                 (update_motion frame_dt
                    (set_time (state (heading_east rot)) (0 + frame_dt)))
                 (rot + (0 - rot) * 5.0 * frame_dt))
    /\ rotation (state s') = rot + (0 - rot) * 5.0 * frame_dt
    /\ lean_angle (state s')
       = 0 + (target_lean frame_dt (0 - rot) - 0) * lean_interp_speed
             * frame_dt.
Proof.
  intros Hrot. unfold update, update_rotation.
  change (time (state (heading_east rot))) with 0.
  destruct (heading_east_motion rot) as (Hv & Hg & Hr & Hl).
  set (st := update_motion frame_dt _) in *. clearbody st.
  rewrite Hg.
  assert (E : gtb 2 0.1 = true) by (apply gtb_true; lra).
  rewrite E. unfold normalized_angle_diff. rewrite Hv, Hr.
  simpl fst; simpl snd. rewrite atan2_east. simpl.
  assert (E1 : gtb (0 - rot) PI = false) by (apply gtb_false; lra).
  assert (E2 : ltb (0 - rot) (- PI) = false) by (apply ltb_false; lra).
  rewrite E1, E2. eexists. split; [reflexivity |]. simpl.
  rewrite Hl. repeat split; reflexivity.
Qed.

End HeadingEast.

(** C7, as the code has it.  Every call of [update] returns.  The angle
    difference the rotation step computes lies in the closed interval from
    [- PI] to [PI]; it is the factor of the rotation increment
    ([rotation += angle_diff * 5.0 * dt]) and the numerator of the yaw rate
    of the lean step, and it is 0 when the ground speed is at most 0.1. *)
Theorem C7_angle_diff_in_closed_range :
  (forall dt s, exists fuel s', Standalone.update fuel dt s = Some s')
  /\ (forall fuel dt st d st',
         Standalone.update_rotation fuel dt st = Some (d, st') ->
         - PI <= d <= PI
         /\ (Np.gtb (Standalone.ground_speed st) 0.1 = true ->
             Standalone.rotation st'
             = Standalone.rotation st + d * 5.0 * dt)
         /\ (Np.gtb (Standalone.ground_speed st) 0.1 = false ->
             d = 0 /\ st' = st))
  /\ (forall fuel dt s s',
         Standalone.update fuel dt s = Some s' ->
         exists d st',
           Standalone.update_rotation fuel dt
             (Standalone.update_motion dt
                (Standalone.set_time (Standalone.state s)
                   (Standalone.time (Standalone.state s) + dt)))
           = Some (d, st')
           /\ - PI <= d <= PI
           /\ Standalone.state s' = Standalone.update_lean dt d st'
           /\ Standalone.lean_angle (Standalone.state s')
              = Standalone.lean_angle st'
                + (Np.clip (d / Rmax dt 0.001 * 0.3)
                     (- Standalone.max_lean_angle) Standalone.max_lean_angle
                   - Standalone.lean_angle st')
                  * Standalone.lean_interp_speed * dt).
Proof.
  assert (Hrange : forall fuel dt st d st',
             Standalone.update_rotation fuel dt st = Some (d, st') ->
             - PI <= d <= PI
             /\ (Np.gtb (Standalone.ground_speed st) 0.1 = true ->
                 Standalone.rotation st'
                 = Standalone.rotation st + d * 5.0 * dt)
             /\ (Np.gtb (Standalone.ground_speed st) 0.1 = false ->
                 d = 0 /\ st' = st)).
  { intros fuel dt st d st'. unfold Standalone.update_rotation.
    destruct (Np.gtb (Standalone.ground_speed st) 0.1).
    - destruct (Standalone.normalized_angle_diff fuel st) as [a |] eqn:Ha;
        [| discriminate].
      intros H; inversion H; subst. apply normalized_angle_diff_range in Ha.
      split; [exact Ha |]. split; [reflexivity | discriminate].
    - intros H; inversion H; subst. pose proof PI_RGT_0.
      split; [lra |]. split; [discriminate | intros _; split; [lra | auto]]. }
  split; [exact update_total |].
  split; [exact Hrange |].
  intros fuel dt s s'. unfold Standalone.update.
  destruct (Standalone.update_rotation fuel dt _) as [[d st'] |] eqn:Hrot;
    [| discriminate].
  intros H; inversion H; subst s'. exists d, st'.
  split; [reflexivity |].
  split; [exact (proj1 (Hrange _ _ _ _ _ Hrot)) |].
  split; reflexivity.
Qed.

Lemma C7_witness :
  Standalone.update_rotation 2 Standalone.frame_dt Standalone.turned_away
  = Some (0 - -5 - 2 * PI,
          Standalone.set_rotation Standalone.turned_away
            (-5 + (0 - -5 - 2 * PI) * 5.0 * Standalone.frame_dt))
  /\ - PI <= 0 - -5 - 2 * PI <= PI.
Proof.
  assert (H : Standalone.update_rotation 2 Standalone.frame_dt
                Standalone.turned_away
              = Some (0 - -5 - 2 * PI,
                      Standalone.set_rotation Standalone.turned_away
                        (-5 + (0 - -5 - 2 * PI) * 5.0
                              * Standalone.frame_dt))).
  { pose proof PI2_1 as HPI. pose proof PI_4 as HPI4.
    unfold Standalone.update_rotation, Standalone.normalized_angle_diff.
    simpl.
    assert (E : Np.gtb 2 0.1 = true) by (apply gtb_true; lra).
    assert (E1 : Np.gtb (0 - -5) PI = true) by (apply gtb_true; lra).
    assert (E2 : Np.gtb (0 - -5 - 2 * PI) PI = false)
      by (apply gtb_false; lra).
    assert (E3 : Np.ltb (0 - -5 - 2 * PI) (- PI) = false)
      by (apply ltb_false; lra).
    now rewrite E, atan2_east, E1, E2, E3. }
  split; [exact H |].
  exact (proj1 (proj1 (proj2 C7_angle_diff_in_closed_range) _ _ _ _ _ H)).
Defined.

(** C7 as stated fails: for a character facing [PI] whose velocity heads
    along the X axis the difference is exactly [- PI], which the loops leave
    as it is (both tests are strict, so neither fires), so it is not in the
    half-open interval; the rotation then turns by [- PI * 5.0 * dt]. *)
Lemma C7_counterexample :
  exists s' st',
    Standalone.update 1 Standalone.frame_dt (Standalone.heading_east PI)
    = Some s'
    /\ Standalone.update_rotation 1 Standalone.frame_dt
         (Standalone.update_motion Standalone.frame_dt
            (Standalone.set_time
               (Standalone.state (Standalone.heading_east PI))
               (0 + Standalone.frame_dt)))
       = Some (0 - PI, st')
    /\ ~ (- PI < 0 - PI <= PI)
    /\ Standalone.rotation (Standalone.state s')
       = PI + (0 - PI) * 5.0 * Standalone.frame_dt.
Proof.
  pose proof PI_RGT_0 as HPI.
  destruct (heading_east_update PI) as (s' & Hup & Hrot & Hr & _); [lra |].
  exists s'. eexists. split; [exact Hup |]. split; [exact Hrot |].
  split; [lra | exact Hr].
Qed.

(** ** The lean rule of the two variants *)

Section LeanRule.
Import Np.

(** The keyboard variant follows the rule of the specification with the
    gain 0.5: the yaw rate is converted with [math.degrees]. *)
Lemma interactive_lean_follows_spec dt s :
  Interactive.lean_angle (Interactive.update dt s)
  = Spec.smooth_lean (Interactive.lean_angle s)
      (Spec.target_lean 0.5 Interactive.max_lean_angle
         (Interactive.yaw_rate dt (Interactive.before_lean dt s)))
      Interactive.lean_interp_speed dt.
Proof.
  change (Interactive.update dt s)
    with (Interactive.update_lean dt (Interactive.before_lean dt s)).
  assert (H : Interactive.lean_angle (Interactive.before_lean dt s)
              = Interactive.lean_angle s).
  { unfold Interactive.before_lean, Interactive.update_position,
      Interactive.update_velocity, Interactive.update_rotation.
    simpl. destruct (gtb _ 0.001); simpl; destruct (neqb _ 0); reflexivity. }
  rewrite <- H. reflexivity.
Qed.

(** The scripted variant smooths toward [clip (yaw_rate * 0.3)], the yaw
    rate taken in radians per second as [angle_diff / max(dt, 0.001)] gives
    it: nothing converts it to degrees. *)
Lemma standalone_lean_rule fuel dt s s' :
  Standalone.update fuel dt s = Some s' ->
  exists angle_diff,
    - PI <= angle_diff <= PI
    /\ Standalone.lean_angle (Standalone.state s')
       = Spec.smooth_lean (Standalone.lean_angle (Standalone.state s))
           (clip (Standalone.yaw_rate dt angle_diff * 0.3)
              (- Standalone.max_lean_angle) Standalone.max_lean_angle)
           Standalone.lean_interp_speed dt.
Proof.
  unfold Standalone.update, Standalone.update_rotation. intros H.
  set (st := Standalone.update_motion dt _) in *.
  assert (Hst : Standalone.lean_angle st
                = Standalone.lean_angle (Standalone.state s)).
  { subst st. now rewrite update_motion_lean_angle. }
  destruct (gtb (Standalone.ground_speed st) 0.1).
  - destruct (Standalone.normalized_angle_diff fuel st) as [d |] eqn:Hd;
      [| discriminate].
    inversion H; subst s'. exists d.
    split; [exact (normalized_angle_diff_range _ _ _ Hd) |].
    rewrite <- Hst. reflexivity.
  - inversion H; subst s'. exists 0.0. pose proof PI_RGT_0.
    split; [lra |]. rewrite <- Hst. reflexivity.
Qed.

End LeanRule.

(** A character facing -0.1 rad whose tick
    gives it a velocity heading 0 has [angle_diff = 0.1] and a yaw rate of
    3 rad/s.  The code takes the lean target [3 * 0.3 = 0.9] and ends the
    tick with a lean of 0.18; with the yaw rate converted to degrees the
    target would be clamped to 20 and the lean would be 4. *)
Lemma heading_east_lean_not_in_degrees :
  exists s',
    Standalone.update 1 Standalone.frame_dt (Standalone.heading_east (-0.1))
    = Some s'
    /\ Standalone.yaw_rate Standalone.frame_dt 0.1 = 3
    /\ Standalone.target_lean Standalone.frame_dt 0.1 = 0.9
    /\ Standalone.lean_angle (Standalone.state s') = 0.18
    /\ Spec.target_lean 0.3 Standalone.max_lean_angle
         (Standalone.yaw_rate Standalone.frame_dt 0.1) = 20
    /\ Spec.smooth_lean 0
         (Spec.target_lean 0.3 Standalone.max_lean_angle
            (Standalone.yaw_rate Standalone.frame_dt 0.1))
         Standalone.lean_interp_speed Standalone.frame_dt = 4.
Proof.
  pose proof PI2_1 as HPI. pose proof PI_4 as HPI4.
  assert (Hy : Standalone.yaw_rate Standalone.frame_dt 0.1 = 3).
  { unfold Standalone.yaw_rate, Standalone.frame_dt.
    rewrite Rmax_left by lra. lra. }
  assert (Ht : Standalone.target_lean Standalone.frame_dt 0.1 = 0.9).
  { unfold Standalone.target_lean. rewrite Hy.
    unfold Standalone.max_lean_angle. rewrite clip_inside; lra. }
  assert (Hs : Spec.target_lean 0.3 Standalone.max_lean_angle
                 (Standalone.yaw_rate Standalone.frame_dt 0.1) = 20).
  { unfold Spec.target_lean. rewrite Hy.
    unfold Standalone.max_lean_angle, Np.degrees.
    rewrite clip_above; [lra | lra |].
    apply (Rmult_le_reg_r PI); [lra |].
    assert (E : 3 * (180 / PI) * 0.3 * PI = 162) by (field_simplify; lra).
    rewrite E. lra. }
  destruct (heading_east_update (-0.1)) as (s' & Hup & _ & _ & Hl); [lra |].
  exists s'. split; [exact Hup |]. split; [exact Hy |]. split; [exact Ht |].
  split.
  - rewrite Hl. replace (0 - -0.1) with 0.1 by lra. rewrite Ht.
    unfold Standalone.lean_interp_speed, Standalone.frame_dt. lra.
  - split; [exact Hs |]. rewrite Hs. unfold Spec.smooth_lean.
    unfold Standalone.lean_interp_speed, Standalone.frame_dt. lra.
Qed.

(** ** The first ticks of the scripted variant *)

Section FirstTicks.
Import Np Standalone.

Lemma sin_small (x : R) : 0 <= x <= 1 -> x - x * x * x / 6 <= sin x <= x.
Proof.
  intros [H0 H1]. pose proof PI2_1 as HPI. split.
  - destruct (sin_bound x 0 H0) as [Hlb _]; [lra |].
    replace (x - x * x * x / 6) with (sin_approx x (2 * 0 + 1));
      [exact Hlb |].
    unfold sin_approx, sin_term. simpl. field.
  - destruct (Req_dec x 0) as [-> | Hne].
    + rewrite sin_0. lra.
    + apply Rlt_le, sin_lt_x. lra.
Qed.

Lemma norm_le (a : vec2) (r : R) :
  0 <= r -> fst a * fst a + snd a * snd a <= r * r -> norm a <= r.
Proof.
  intros Hr H. unfold norm. rewrite <- (sqrt_square r Hr).
  now apply sqrt_le_1_alt.
Qed.

Lemma norm_gt (a : vec2) (r : R) :
  0 <= r -> r * r < fst a * fst a + snd a * snd a -> r < norm a.
Proof.
  intros Hr H. unfold norm. rewrite <- (sqrt_square r Hr) at 1.
  apply sqrt_lt_1_alt. split; [nra | exact H].
Qed.

(** A tick whose target is within 0.1 of a resting character leaves it
    resting. *)
Lemma resting_tick dt s :
  resting (state s) ->
  norm (target_pos (set_time (state s) (time (state s) + dt))) <= 0.1 ->
  exists s',
    update 1 dt s = Some s' /\ resting (state s')
    /\ time (state s') = time (state s) + dt.
Proof.
  intros (Hp & Hv & Hr & Hl) Hnear.
  unfold update, update_rotation.
  set (st1 := set_time (state s) (time (state s) + dt)) in *.
  assert (Hm : update_motion dt st1
               = set_ground_speed
                   (set_position (set_velocity st1 (0, 0)) (0, 0)) 0).
  { unfold update_motion.
    assert (Hd : vsub (target_pos st1) (position st1) = target_pos st1).
    { subst st1. simpl position. rewrite Hp. unfold vsub, target_pos.
      simpl. f_equal; ring. }
    rewrite Hd.
    assert (E : gtb (norm (target_pos st1)) 0.1 = false)
      by now apply gtb_false.
    rewrite E.
    subst st1. unfold set_ground_speed, set_position, set_velocity, set_time.
    simpl. rewrite Hv, Hp. unfold vadd, vscale. simpl.
    replace (0 * 0.9) with 0 by ring.
    replace (0 + 0 * dt) with 0 by ring.
    rewrite norm_zero. reflexivity. }
  rewrite Hm. simpl ground_speed.
  assert (E : gtb 0 0.1 = false) by (apply gtb_false; lra).
  rewrite E. eexists. split; [reflexivity |]. simpl.
  unfold resting. simpl. rewrite Hr, Hl.
  repeat split; try reflexivity.
  unfold target_lean, yaw_rate, max_lean_angle, lean_interp_speed.
  replace (0.0 / Rmax dt 0.001 * 0.3) with 0 by (unfold Rdiv; lra).
  rewrite clip_inside by lra. lra.
Qed.


Lemma norm_unit (a : vec2) :
  0 < norm a -> norm (vdiv a (norm a)) = 1.
Proof.
  intros H.
  change (vdiv a (norm a)) with (vscale a (/ norm a)).
  rewrite norm_vscale, Rabs_right.
  - now apply Rinv_l, Rgt_not_eq.
  - apply Rle_ge, Rlt_le, Rinv_0_lt_compat, H.
Qed.

(** The tick that starts a resting character toward a target farther
    than 0.1, up and to the right: the heading [theta] is strictly between
    0 and [PI / 2], the code leans by [clip (yaw_rate * 0.3)], and that is
    strictly less than the lean the rule of the specification gives. *)
Lemma starting_tick s :
  resting (state s) ->
  0 < fst (target_pos (set_time (state s) (time (state s) + frame_dt))) ->
  0 < snd (target_pos (set_time (state s) (time (state s) + frame_dt))) ->
  0.1 < norm (target_pos (set_time (state s) (time (state s) + frame_dt))) ->
  exists s' theta,
    update 1 frame_dt s = Some s'
    /\ 0 < theta < PI / 2
    /\ lean_angle (state s')
       = Spec.smooth_lean 0
           (clip (yaw_rate frame_dt theta * 0.3)
              (- max_lean_angle) max_lean_angle)
           lean_interp_speed frame_dt
    /\ lean_angle (state s')
       < Spec.smooth_lean 0
           (Spec.target_lean 0.3 max_lean_angle (yaw_rate frame_dt theta))
           lean_interp_speed frame_dt.
Proof.
  intros (Hp & Hv & Hr & Hl) HX HY Hfar.
  unfold update, update_rotation.
  set (st1 := set_time (state s) (time (state s) + frame_dt)) in *.
  set (T := target_pos st1) in *.
  set (D := norm T) in *.
  assert (HD : 0 < D) by lra.
  assert (Hd : vsub T (position st1) = T).
  { simpl position. rewrite Hp.
    apply injective_projections; unfold vsub; simpl; ring. }
  set (stm := update_motion frame_dt st1).
  assert (Hvel : velocity stm = vscale (vdiv T D) walk_speed).
  { subst stm. unfold update_motion. fold T. rewrite Hd. fold D.
    assert (E : gtb D 0.1 = true) by now apply gtb_true.
    rewrite E. reflexivity. }
  assert (Hgs : ground_speed stm = 2).
  { change (ground_speed stm) with (norm (velocity stm)).
    rewrite Hvel, norm_vscale. unfold D. rewrite norm_unit by exact HD.
    unfold walk_speed. rewrite Rabs_right; lra. }
  assert (Hrot : rotation stm = 0).
  { subst stm. unfold update_motion. simpl. destruct (gtb _ 0.1); exact Hr. }
  assert (Hlean : lean_angle stm = 0).
  { subst stm. rewrite update_motion_lean_angle. exact Hl. }
  clearbody stm.
  rewrite Hgs.
  assert (E : gtb 2 0.1 = true) by (apply gtb_true; lra).
  rewrite E. unfold normalized_angle_diff. rewrite Hvel, Hrot.
  set (vx := fst (vscale (vdiv T D) walk_speed)).
  set (vy := snd (vscale (vdiv T D) walk_speed)).
  assert (Hvx : 0 < vx).
  { subst vx. unfold vscale, vdiv, walk_speed. simpl.
    apply Rmult_lt_0_compat; [| lra]. now apply Rdiv_lt_0_compat. }
  assert (Hvy : 0 < vy).
  { subst vy. unfold vscale, vdiv, walk_speed. simpl.
    apply Rmult_lt_0_compat; [| lra]. now apply Rdiv_lt_0_compat. }
  assert (Ha : atan2 vy vx = atan (vy / vx)).
  { unfold atan2. destruct (Rlt_dec 0 vx); [reflexivity | contradiction]. }
  rewrite Ha.
  set (theta := atan (vy / vx) - 0).
  assert (Htheta : 0 < theta < PI / 2).
  { subst theta. destruct (atan_bound (vy / vx)) as [_ Hub].
    assert (0 < atan (vy / vx)).
    { rewrite <- atan_0. apply atan_increasing.
      now apply Rdiv_lt_0_compat. }
    lra. }
  pose proof PI2_1 as HPI. pose proof PI_4 as HPI4.
  simpl.
  assert (E1 : gtb theta PI = false) by (apply gtb_false; lra).
  assert (E2 : ltb theta (- PI) = false) by (apply ltb_false; lra).
  rewrite E1, E2.
  eexists. exists theta. split; [reflexivity |]. split; [exact Htheta |].
  simpl. rewrite Hlean.
  assert (Hy : yaw_rate frame_dt theta = theta * 30).
  { unfold yaw_rate, frame_dt. rewrite Rmax_left by lra. lra. }
  split; [reflexivity |].
  unfold target_lean, Spec.smooth_lean, Spec.target_lean. rewrite Hy.
  unfold max_lean_angle, lean_interp_speed, frame_dt, degrees.
  rewrite (clip_inside (theta * 30 * 0.3)) by lra.
  assert (Hspec : theta * 30 * 0.3
                  < clip (theta * 30 * (180 / PI) * 0.3) (- (20.0)) 20.0).
  { assert (Hk : theta * 30 * 0.3 < theta * 30 * (180 / PI) * 0.3).
    { assert (1 < 180 / PI).
      { apply (Rmult_lt_reg_r PI); [lra |].
        unfold Rdiv. rewrite Rmult_assoc, Rinv_l by lra. lra. }
      nra. }
    unfold clip, Rmin, Rmax.
    destruct (Rle_dec _ (- (20.0))); destruct (Rle_dec _ 20.0); lra. }
  lra.
Qed.


(** The figure-8 target at time [t] (in seconds) while [0.3 * t <= 0.5]:
    both coordinates lie between a cubic lower bound and the linear upper
    bound of the sine. *)
Lemma target_pos_bounds st :
  0 <= time st * 0.3 <= 0.5 ->
  let a := time st * 0.3 in
  3.0 * (a - a * a * a / 6) <= fst (target_pos st) <= 3.0 * a
  /\ 1.5 * (2 * a - 2 * a * (2 * a) * (2 * a) / 6) <= snd (target_pos st)
     <= 1.5 * (2 * a).
Proof.
  intros Ha a. unfold target_pos. simpl. fold a.
  assert (Ha' : 0 <= a <= 0.5) by exact Ha. clearbody a.
  destruct (sin_small a) as [H1 H2]; [lra |].
  destruct (sin_small (2 * a)) as [H3 H4]; [lra |].
  lra.
Qed.

(** C2 on the scripted variant, from the fresh object.  The first two ticks
    of 1/30 s leave the character at rest; the third starts it walking with
    a heading [theta] strictly between 0 and [PI / 2], so the angle
    difference is [theta].  The code leans toward [clip (yaw_rate * 0.3)],
    the yaw rate in radians per second; the lean it reaches is strictly
    smaller than the lean of the rule with the yaw rate converted to
    degrees. *)
Theorem C2_standalone_lean_target_not_in_degrees :
  exists s3 theta,
    run 1 3 frame_dt init = Some s3
    /\ reachable s3
    /\ 0 < theta < PI / 2
    /\ lean_angle (state s3)
       = Spec.smooth_lean 0
           (clip (yaw_rate frame_dt theta * 0.3)
              (- max_lean_angle) max_lean_angle)
           lean_interp_speed frame_dt
    /\ lean_angle (state s3)
       < Spec.smooth_lean 0
           (Spec.target_lean 0.3 max_lean_angle (yaw_rate frame_dt theta))
           lean_interp_speed frame_dt.
Proof.
  assert (H0 : resting (state init)) by (repeat split; reflexivity).
  destruct (resting_tick frame_dt init H0) as (s1 & Hs1 & Hr1 & Ht1).
  { apply norm_le; [lra |].
    destruct (target_pos_bounds
                (set_time (state init) (time (state init) + frame_dt)))
      as [[Hx1 Hx2] [Hy1 Hy2]];
      simpl time in *; unfold frame_dt in *; [lra |].
    set (X := fst (target_pos _)) in *. set (Y := snd (target_pos _)) in *.
    assert (0 <= X <= 0.03) by lra. assert (0 <= Y <= 0.03) by lra. nra. }
  simpl time in Ht1.
  destruct (resting_tick frame_dt s1 Hr1) as (s2 & Hs2 & Hr2 & Ht2).
  { apply norm_le; [lra |].
    destruct (target_pos_bounds
                (set_time (state s1) (time (state s1) + frame_dt)))
      as [[Hx1 Hx2] [Hy1 Hy2]];
      simpl time in *; rewrite Ht1 in *; unfold frame_dt in *; [lra |].
    set (X := fst (target_pos _)) in *. set (Y := snd (target_pos _)) in *.
    assert (0 <= X <= 0.06) by lra. assert (0 <= Y <= 0.06) by lra. nra. }
  rewrite Ht1 in Ht2.
  assert (Hb : let T := target_pos
                          (set_time (state s2) (time (state s2) + frame_dt))
               in 0.0899 <= fst T /\ 0.0899 <= snd T).
  { destruct (target_pos_bounds
                (set_time (state s2) (time (state s2) + frame_dt)))
      as [[Hx1 Hx2] [Hy1 Hy2]];
      simpl time in *; rewrite Ht2 in *; unfold frame_dt in *; [lra |].
    cbv zeta. split; lra. }
  destruct Hb as [HbX HbY].
  destruct (starting_tick s2 Hr2) as (s3 & theta & Hs3 & Hth & Hl & Hlt).
  - lra.
  - lra.
  - apply norm_gt; [lra |].
    set (X := fst (target_pos _)) in *. set (Y := snd (target_pos _)) in *.
    nra.
  - exists s3, theta. split.
    + simpl. rewrite Hs1, Hs2. exact Hs3.
    + split.
      * apply (reachable_tick s2); [| now exists 1%nat].
        apply (reachable_tick s1); [| now exists 1%nat].
        apply (reachable_tick init); [| now exists 1%nat].
        apply reachable_init.
      * split; [exact Hth |]. split; [exact Hl | exact Hlt].
Qed.

End FirstTicks.


(** ** The keyboard variant under a sustained input *)

Section Sustained.
Import Np Interactive.

Lemma update_rotation_no_turn dt s :
  input_turn s = 0 -> update_rotation dt s = s.
Proof.
  intros H. unfold update_rotation.
  assert (E : neqb (input_turn s) 0 = false) by now apply neqb_false.
  now rewrite E.
Qed.

(** [update] never writes the two input attributes. *)
Lemma update_inputs dt s :
  input_forward (update dt s) = input_forward s
  /\ input_turn (update dt s) = input_turn s.
Proof.
  unfold update, update_lean, update_position, update_velocity,
    update_rotation.
  simpl. destruct (gtb _ 0.001); simpl; destruct (neqb _ 0); auto.
Qed.

(** One tick with the forward key held, facing along the X axis and
    moving along it more slowly than 2 units per second: the speed gains
    [acceleration * dt] and is then scaled by the friction. *)
Lemma walk_forward_step (s : InteractiveCharacter) (v : R) :
  rotation s = 0 -> input_forward s = 1.0 -> input_turn s = 0 ->
  velocity s = (v, 0) -> 0 <= v < 2 ->
  velocity (update frame_dt s) = ((v + 8 / 30) * 0.85, 0)
  /\ rotation (update frame_dt s) = 0.
Proof.
  intros Hr Hf Ht Hv Hrange.
  unfold update. rewrite update_rotation_no_turn by assumption.
  set (s1 := set_time s _).
  assert (Hd : vsub (target_velocity s1) (velocity s1) = (3 - v, 0)).
  { unfold target_velocity, vsub. subst s1. simpl. rewrite Hr, Hf, Hv.
    rewrite cos_0, sin_0. unfold max_speed. simpl. f_equal; lra. }
  assert (Hn : norm (3 - v, 0) = 3 - v).
  { rewrite norm_x_axis. apply Rabs_right. lra. }
  assert (Hvel : velocity (update_velocity frame_dt s1)
                 = ((v + 8 / 30) * 0.85, 0)).
  { unfold update_velocity. rewrite Hd, Hn.
    assert (E : gtb (3 - v) 0.001 = true) by (apply gtb_true; lra).
    rewrite E.
    assert (Em : Rmin (acceleration * frame_dt) (3 - v) = 8 / 30).
    { unfold acceleration, frame_dt. rewrite Rmin_left; lra. }
    rewrite Em. simpl. rewrite Hv. unfold vscale, vadd, vdiv, friction. simpl.
    f_equal; field; lra. }
  split.
  - exact Hvel.
  - unfold update_velocity. destruct (gtb _ 0.001); simpl; exact Hr.
Qed.

(** The speed along the X axis stays under the balance point of
    acceleration and friction, 68/45. *)
Lemma walking_invariant (n : nat) :
  exists v,
    velocity (run n frame_dt walking_start) = (v, 0)
    /\ 0 <= v < 68 / 45
    /\ rotation (run n frame_dt walking_start) = 0
    /\ input_forward (run n frame_dt walking_start) = 1.0
    /\ input_turn (run n frame_dt walking_start) = 0.
Proof.
  induction n as [| n IH].
  - exists 0. simpl. repeat split; lra.
  - destruct IH as (v & Hv & Hrange & Hr & Hf & Ht).
    destruct (walk_forward_step _ v Hr Hf Ht Hv) as (Hv' & Hr'); [lra |].
    destruct (update_inputs frame_dt (run n frame_dt walking_start))
      as (Hf' & Ht').
    change (run (S n) frame_dt walking_start)
      with (update frame_dt (run n frame_dt walking_start)).
    exists ((v + 8 / 30) * 0.85).
    split; [exact Hv' |]. split; [lra |]. split; [exact Hr' |].
    split; congruence.
Qed.

End Sustained.

(** C5. Starting from rest with the forward key held and no turn, with
    [max_speed = 3], [acceleration = 8], [friction = 0.85] and dt = 1/30, the
    speed after any number of ticks, so after each of the 30 ticks of the
    first second, is strictly below [max_speed]. *)
Theorem C5_forward_speed_stays_below_max_speed (n : nat) :
  Interactive.max_speed = 3 /\ Interactive.acceleration = 8
  /\ Interactive.friction = 0.85
  /\ Interactive.frame_dt = 1 / 30
  /\ Interactive.input_forward Interactive.walking_start = 1
  /\ Interactive.input_turn Interactive.walking_start = 0
  /\ Interactive.velocity Interactive.walking_start = (0, 0)
  /\ Np.norm (Interactive.velocity
                (Interactive.run n Interactive.frame_dt
                   Interactive.walking_start))
     < Interactive.max_speed.
Proof.
  split; [unfold Interactive.max_speed; lra |].
  split; [unfold Interactive.acceleration; lra |].
  split; [reflexivity |].
  split; [unfold Interactive.frame_dt; lra |].
  split; [simpl; lra |].
  split; [reflexivity |].
  split; [reflexivity |].
  destruct (walking_invariant n) as (v & Hv & Hrange & _).
  rewrite Hv, norm_x_axis, Rabs_right by lra.
  unfold Interactive.max_speed. lra.
Qed.

(** ** Ground speed between the ticks *)

Section BetweenTicks.
Import Np Interactive.

Lemma handle_ground_speed e s :
  ground_speed (handle e s) = ground_speed s.
Proof.
  destruct e as [key | key]; simpl;
    [unfold on_key_press | unfold on_key_release];
    repeat match goal with
           | |- context [if ?b then _ else _] => destruct b
           end; reflexivity.
Qed.

(** A key event leaves the velocity as it is or, for the space bar, sets
    it to zero. *)
Lemma handle_velocity e s :
  velocity (handle e s) = velocity s \/ norm (velocity (handle e s)) = 0.
Proof.
  destruct e as [key | key]; simpl;
    [unfold on_key_press | unfold on_key_release];
    repeat match goal with
           | |- context [if ?b then _ else _] => destruct b
           end; try (left; reflexivity).
  right. simpl. rewrite norm_vscale.
  replace (Rabs 0.0) with 0 by (symmetry; rewrite <- Rabs_R0; f_equal; lra).
  ring.
Qed.

Lemma after_first_step_speed :
  velocity after_first_step = ((0 + 8 / 30) * 0.85, 0)
  /\ ground_speed after_first_step = (0 + 8 / 30) * 0.85.
Proof.
  destruct (walk_forward_step walking_start 0) as [Hv _];
    try reflexivity; try lra.
  unfold after_first_step. split; [exact Hv |].
  rewrite interactive_update_ground_speed, Hv, norm_x_axis.
  apply Rabs_right. lra.
Qed.

End BetweenTicks.

(** C1, as the code has it.  After every call of [update], in both
    variants, [ground_speed] is the Euclidean norm of [velocity]; hence it
    is so in the fresh object and after every tick, whatever keys were
    pressed before the tick, and in every state of the scripted variant.
    Between the ticks of the keyboard variant the key handlers never write
    [ground_speed], and the space bar writes the velocity: in every state
    the program goes through, [ground_speed] is the norm of the velocity or
    the velocity is zero. *)
Theorem C1_ground_speed_is_norm_of_velocity :
  (forall dt s,
      Interactive.ground_speed (Interactive.update dt s)
      = Np.norm (Interactive.velocity (Interactive.update dt s)))
  /\ (forall fuel dt s s',
         Standalone.update fuel dt s = Some s' ->
         Standalone.ground_speed (Standalone.state s')
         = Np.norm (Standalone.velocity (Standalone.state s')))
  /\ (forall s,
         Interactive.reachable s ->
         Interactive.ground_speed s = Np.norm (Interactive.velocity s))
  /\ (forall s,
         Standalone.reachable s ->
         Standalone.ground_speed (Standalone.state s)
         = Np.norm (Standalone.velocity (Standalone.state s)))
  /\ (forall s,
         Interactive.program_reachable s ->
         Interactive.ground_speed s = Np.norm (Interactive.velocity s)
         \/ Np.norm (Interactive.velocity s) = 0).
Proof.
  split; [exact interactive_update_ground_speed |].
  split; [exact standalone_update_ground_speed |].
  split; [| split].
  - intros s Hs. destruct Hs as [| es s Hs].
    + simpl. now rewrite norm_zero.
    + apply interactive_update_ground_speed.
  - intros s Hs. destruct Hs as [| s s' Hs [fuel Hstep]].
    + simpl. now rewrite norm_zero.
    + exact (standalone_update_ground_speed _ _ _ _ Hstep).
  - intros s Hs. induction Hs as [| e s Hs IH | s Hs IH].
    + left. simpl. now rewrite norm_zero.
    + rewrite handle_ground_speed.
      destruct (handle_velocity e s) as [Hv | H0]; [| right; exact H0].
      rewrite Hv. exact IH.
    + left. apply interactive_update_ground_speed.
Qed.

Lemma C1_witness :
  Interactive.reachable Interactive.after_first_step
  /\ Interactive.ground_speed Interactive.after_first_step
     = Np.norm (Interactive.velocity Interactive.after_first_step)
  /\ Interactive.ground_speed Interactive.after_first_step
     = (0 + 8 / 30) * 0.85.
Proof.
  assert (H : Interactive.reachable Interactive.after_first_step)
    by (apply (Interactive.reachable_tick [Interactive.KeyPress "w"]),
          Interactive.reachable_init).
  split; [exact H |].
  split;
    [exact (proj1 (proj2 (proj2 C1_ground_speed_is_norm_of_velocity)) _ H)
    | exact (proj2 after_first_step_speed)].
Defined.

(** C1 as stated fails between the ticks: hold the forward key for one
    tick, then press the space bar.  The handler sets the velocity to zero
    and leaves [ground_speed] at the value of the tick, 17/75. *)
Lemma C1_counterexample :
  Interactive.program_reachable Interactive.stopped_after_first_step
  /\ Np.norm (Interactive.velocity Interactive.stopped_after_first_step) = 0
  /\ Interactive.ground_speed Interactive.stopped_after_first_step = 17 / 75
  /\ Interactive.ground_speed Interactive.stopped_after_first_step
     <> Np.norm (Interactive.velocity Interactive.stopped_after_first_step).
Proof.
  destruct after_first_step_speed as [Hv Hg].
  assert (Hn : Np.norm (Interactive.velocity
                          Interactive.stopped_after_first_step) = 0).
  { change (Interactive.velocity Interactive.stopped_after_first_step)
      with (Np.vscale (Interactive.velocity Interactive.after_first_step)
              0.0).
    rewrite norm_vscale.
    replace (Rabs 0.0) with 0
      by (symmetry; rewrite <- Rabs_R0; f_equal; lra).
    ring. }
  assert (Hs : Interactive.ground_speed Interactive.stopped_after_first_step
               = 17 / 75).
  { change (Interactive.ground_speed Interactive.stopped_after_first_step)
      with (Interactive.ground_speed Interactive.after_first_step).
    rewrite Hg. lra. }
  split.
  - apply (Interactive.program_event (Interactive.KeyPress " ")).
    apply Interactive.program_tick.
    apply (Interactive.program_event (Interactive.KeyPress "w")).
    apply Interactive.program_init.
  - split; [exact Hn |]. split; [exact Hs |]. rewrite Hs, Hn. lra.
Qed.

(** ** Coasting: the keyboard variant with no input *)

Section Coasting.
Import Np Interactive.

Lemma update_velocity_position dt s :
  position (update_velocity dt s) = position s.
Proof.
  unfold update_velocity.
  destruct (gtb (norm (vsub (target_velocity s) (velocity s))) 0.001);
    reflexivity.
Qed.

(** One tick with no key held scales the velocity by a factor between 0
    and the friction, and moves the position by the new velocity. *)
Lemma coast_step dt s :
  0 < dt -> input_forward s = 0 -> input_turn s = 0 ->
  exists k,
    0 <= k <= friction
    /\ velocity (update dt s) = vscale (velocity s) k
    /\ position (update dt s)
       = vadd (position s) (vscale (velocity (update dt s)) dt).
Proof.
  intros Hdt Hf Ht.
  unfold update. rewrite update_rotation_no_turn by assumption.
  set (s1 := set_time s _).
  assert (Hd : vsub (target_velocity s1) (velocity s1)
               = vscale (velocity s) (-1)).
  { unfold target_velocity, vsub, vscale. subst s1. simpl. rewrite Hf.
    f_equal; ring. }
  assert (Hn : norm (vscale (velocity s) (-1)) = norm (velocity s)).
  { rewrite norm_vscale.
    replace (Rabs (-1)) with 1
      by (unfold Rabs; destruct (Rcase_abs (-1)); lra).
    ring. }
  set (N := norm (velocity s)) in *.
  assert (HN : 0 <= N) by apply norm_nonneg.
  assert (Hvel :
            exists k, 0 <= k <= friction
                      /\ velocity (update_velocity dt s1)
                         = vscale (velocity s) k).
  { unfold update_velocity. rewrite Hd, Hn.
    destruct (gtb N 0.001) eqn:E.
    - apply gtb_true in E.
      set (a := Rmin (acceleration * dt) N).
      assert (Ha : 0 <= a <= N).
      { subst a. unfold Rmin, acceleration.
        destruct (Rle_dec (8.0 * dt) N); lra. }
      exists ((1 - a / N) * friction). split.
      + assert (0 <= a / N <= 1).
        { split.
          - apply Rmult_le_pos; [lra |]. apply Rlt_le, Rinv_0_lt_compat. lra.
          - apply (Rmult_le_reg_r N); [lra |].
            unfold Rdiv. rewrite Rmult_assoc, Rinv_l by lra. lra. }
        unfold friction. split; nra.
      + subst s1. simpl. unfold vscale, vadd, vdiv. simpl.
        f_equal; field; lra.
    - exists friction. split; [unfold friction; lra |]. reflexivity. }
  destruct Hvel as (k & Hk & Hv). exists k.
  split; [exact Hk |]. split; [exact Hv |].
  change (position (update_lean dt (update_position dt
                                      (update_velocity dt s1))))
    with (vadd (position (update_velocity dt s1))
            (vscale (velocity (update_velocity dt s1)) dt)).
  now rewrite update_velocity_position.
Qed.

(** The speed after one tick with no key held, exactly: above 0.001 the
    speed first loses [min(acceleration * dt, speed)], then the friction
    scales what is left. *)
Lemma coast_speed_exact dt s :
  0 < dt -> input_forward s = 0 -> input_turn s = 0 ->
  norm (velocity (update dt s))
  = friction
    * (if gtb (norm (velocity s)) 0.001
       then norm (velocity s)
            - Rmin (acceleration * dt) (norm (velocity s))
       else norm (velocity s)).
Proof.
  intros Hdt Hf Ht.
  change (velocity (update dt s))
    with (velocity (update_velocity dt
                      (update_rotation dt (set_time s (time s + dt))))).
  rewrite update_rotation_no_turn by assumption.
  set (s1 := set_time s _).
  assert (Hd : vsub (target_velocity s1) (velocity s1)
               = vscale (velocity s) (-1)).
  { unfold target_velocity, vsub, vscale. subst s1. simpl. rewrite Hf.
    f_equal; ring. }
  assert (Hn : norm (vscale (velocity s) (-1)) = norm (velocity s)).
  { rewrite norm_vscale.
    replace (Rabs (-1)) with 1
      by (unfold Rabs; destruct (Rcase_abs (-1)); lra).
    ring. }
  unfold update_velocity. rewrite Hd, Hn.
  set (N := norm (velocity s)) in *.
  assert (HN : 0 <= N) by apply norm_nonneg.
  destruct (gtb N 0.001) eqn:E.
  - apply gtb_true in E.
    set (a := Rmin (acceleration * dt) N).
    assert (Ha : 0 <= a <= N).
    { subst a. unfold Rmin, acceleration.
      destruct (Rle_dec (8.0 * dt) N); lra. }
    assert (Hq : 0 <= a / N <= 1).
    { split.
      - apply Rmult_le_pos; [lra |]. apply Rlt_le, Rinv_0_lt_compat. lra.
      - apply (Rmult_le_reg_r N); [lra |].
        unfold Rdiv. rewrite Rmult_assoc, Rinv_l by lra. lra. }
    assert (Hv : velocity
                   (set_velocity
                      (set_velocity s1
                         (vadd (velocity s1)
                            (vscale (vdiv (vscale (velocity s) (-1)) N) a)))
                      (vscale
                         (velocity
                            (set_velocity s1
                               (vadd (velocity s1)
                                  (vscale
                                     (vdiv (vscale (velocity s) (-1)) N)
                                     a))))
                         friction))
                 = vscale (velocity s) ((1 - a / N) * friction)).
    { subst s1. simpl. unfold vscale, vadd, vdiv. simpl.
      f_equal; field; lra. }
    rewrite Hv, norm_vscale. fold N.
    rewrite Rabs_right by (unfold friction; nra).
    field. lra.
  - simpl velocity. rewrite norm_vscale. fold N.
    rewrite Rabs_right by (unfold friction; lra). reflexivity.
Qed.

End Coasting.

Section Convergence.

(** A sequence whose successive differences are bounded by a geometric
    sequence of ratio below 1 converges. *)
Lemma geometric_increments_bound (u : nat -> R) (C q : R) :
  0 <= q < 1 -> 0 <= C ->
  (forall n, Rabs (u (S n) - u n) <= C * q ^ n) ->
  forall n k, Rabs (u (n + k)%nat - u n) <= C / (1 - q) * q ^ n.
Proof.
  intros Hq HC Hstep n k.
  assert (Hpow : forall m, 0 <= q ^ m) by (intros m; apply pow_le; lra).
  assert (Hk : Rabs (u (n + k)%nat - u n)
               <= C / (1 - q) * (q ^ n - q ^ (n + k))).
  { induction k as [| k IH].
    - rewrite Nat.add_0_r.
      replace (u n - u n) with 0 by ring. rewrite Rabs_R0. right. ring.
    - replace (n + S k)%nat with (S (n + k)) by lia.
      replace (u (S (n + k)) - u n)
        with ((u (S (n + k)) - u (n + k)%nat) + (u (n + k)%nat - u n))
        by ring.
      eapply Rle_trans; [apply Rabs_triang |].
      eapply Rle_trans; [apply Rplus_le_compat; [apply Hstep | apply IH] |].
      right. simpl. field. lra. }
  eapply Rle_trans; [exact Hk |].
  assert (HD : 0 <= C / (1 - q)).
  { apply Rmult_le_pos; [lra |]. apply Rlt_le, Rinv_0_lt_compat. lra. }
  specialize (Hpow (n + k)%nat). nra.
Qed.

Lemma geometric_increments_converge (u : nat -> R) (C q : R) :
  0 <= q < 1 -> 0 <= C ->
  (forall n, Rabs (u (S n) - u n) <= C * q ^ n) ->
  exists l, Un_cv u l.
Proof.
  intros Hq HC Hstep.
  assert (Hc : Cauchy_crit u).
  { intros eps Heps.
    set (D := C / (1 - q)).
    assert (HD : 0 <= D).
    { apply Rmult_le_pos; [lra |]. apply Rlt_le, Rinv_0_lt_compat. lra. }
    destruct (pow_lt_1_zero q) with (y := eps / (2 * (D + 1)))
      as [N HN].
    - rewrite Rabs_right; lra.
    - apply Rdiv_lt_0_compat; lra.
    - exists N. intros n m Hn Hm.
      assert (Hnear : forall i, (i >= N)%nat -> Rabs (u i - u N) < eps / 2).
      { intros i Hi. replace i with (N + (i - N))%nat by lia.
        eapply Rle_lt_trans;
          [apply (geometric_increments_bound u C q Hq HC Hstep) |].
        fold D. specialize (HN N (Nat.le_refl N)).
        rewrite Rabs_right in HN by (apply Rle_ge, pow_le; lra).
        assert (Hfrac : eps / (2 * (D + 1)) * (D + 1) = eps / 2)
          by (field; lra).
        assert (Hpos : 0 <= q ^ N) by (apply pow_le; lra).
        nra. }
      unfold R_dist.
      replace (u n - u m) with ((u n - u N) - (u m - u N)) by ring.
      eapply Rle_lt_trans; [apply Rabs_triang |].
      rewrite Rabs_Ropp.
      specialize (Hnear n Hn) as H1. specialize (Hnear m Hm) as H2. lra. }
  destruct (R_complete u Hc) as [l Hl]. exists l. exact Hl.
Qed.

(** A nonnegative sequence under a geometric sequence of ratio below 1
    tends to 0. *)
Lemma geometric_bound_tends_to_zero (u : nat -> R) (C q : R) :
  0 <= q < 1 -> 0 <= C ->
  (forall n, 0 <= u n <= C * q ^ n) -> Un_cv u 0.
Proof.
  intros Hq HC Hb eps Heps.
  destruct (pow_lt_1_zero q) with (y := eps / (C + 1)) as [N HN].
  - rewrite Rabs_right; lra.
  - apply Rdiv_lt_0_compat; lra.
  - exists N. intros n Hn. unfold R_dist.
    replace (u n - 0) with (u n) by ring.
    destruct (Hb n) as [H0 H1]. rewrite Rabs_right by lra.
    specialize (HN n Hn).
    rewrite Rabs_right in HN by (apply Rle_ge, pow_le; lra).
    assert (Hfrac : eps / (C + 1) * (C + 1) = eps) by (field; lra).
    assert (Hpos : 0 <= q ^ n) by (apply pow_le; lra).
    nra.
Qed.

End Convergence.

Section CoastingRun.
Import Np Interactive.

Variable dt : R.
Variable s : InteractiveCharacter.
Hypothesis dt_pos : 0 < dt.
Hypothesis no_forward : input_forward s = 0.
Hypothesis no_turn : input_turn s = 0.

Lemma coast_inputs (n : nat) :
  input_forward (run n dt s) = 0 /\ input_turn (run n dt s) = 0.
Proof.
  induction n as [| n [IHf IHt]]; [now split |].
  change (run (S n) dt s) with (update dt (run n dt s)).
  destruct (update_inputs dt (run n dt s)) as [Hf Ht].
  split; congruence.
Qed.

Lemma coast_speed_step (n : nat) :
  norm (velocity (run (S n) dt s)) <= friction * norm (velocity (run n dt s)).
Proof.
  destruct (coast_inputs n) as [Hf Ht].
  destruct (coast_step dt (run n dt s) dt_pos Hf Ht) as (k & Hk & Hv & _).
  change (run (S n) dt s) with (update dt (run n dt s)).
  rewrite Hv, norm_vscale, Rabs_right by lra.
  apply Rmult_le_compat_r; [apply norm_nonneg | lra].
Qed.

Lemma coast_speed_exact_run (n : nat) :
  norm (velocity (run (S n) dt s))
  = friction
    * (if gtb (norm (velocity (run n dt s))) 0.001
       then norm (velocity (run n dt s))
            - Rmin (acceleration * dt) (norm (velocity (run n dt s)))
       else norm (velocity (run n dt s))).
Proof.
  destruct (coast_inputs n) as [Hf Ht].
  exact (coast_speed_exact dt (run n dt s) dt_pos Hf Ht).
Qed.

Lemma coast_speed_bound (n : nat) :
  0 <= norm (velocity (run n dt s))
  <= norm (velocity s) * friction ^ n.
Proof.
  split; [apply norm_nonneg |].
  induction n as [| n IH].
  - simpl. lra.
  - eapply Rle_trans; [apply coast_speed_step |].
    simpl. unfold friction in *. nra.
Qed.

Lemma coast_position_step (n : nat) :
  position (run (S n) dt s)
  = vadd (position (run n dt s)) (vscale (velocity (run (S n) dt s)) dt).
Proof.
  destruct (coast_inputs n) as [Hf Ht].
  destruct (coast_step dt (run n dt s) dt_pos Hf Ht) as (k & _ & _ & Hp).
  exact Hp.
Qed.

Lemma coast_position_converges :
  exists p : vec2,
    Un_cv (fun n => fst (position (run n dt s))) (fst p)
    /\ Un_cv (fun n => snd (position (run n dt s))) (snd p).
Proof.
  set (C := norm (velocity s) * friction * dt).
  assert (HC : 0 <= C).
  { subst C. pose proof (norm_nonneg (velocity s)). unfold friction. nra. }
  assert (Hq : 0 <= friction < 1) by (unfold friction; lra).
  assert (Hinc : forall n,
             norm (velocity (run (S n) dt s)) * dt <= C * friction ^ n).
  { intros n. destruct (coast_speed_bound (S n)) as [_ Hb]. subst C.
    replace (norm (velocity s) * friction * dt * friction ^ n)
      with (norm (velocity s) * friction ^ S n * dt) by (simpl; ring).
    apply Rmult_le_compat_r; [lra | exact Hb]. }
  destruct (geometric_increments_converge
              (fun n => fst (position (run n dt s))) C friction Hq HC)
    as [x Hx].
  { intros n. rewrite coast_position_step.
    set (v := velocity (run (S n) dt s)). set (p := position (run n dt s)).
    replace (fst (vadd p (vscale v dt)) - fst p) with (fst v * dt)
      by (unfold vadd, vscale; simpl; ring).
    rewrite Rabs_mult, (Rabs_right dt) by lra.
    eapply Rle_trans; [| apply Hinc].
    apply Rmult_le_compat_r; [lra | apply abs_fst_le_norm]. }
  destruct (geometric_increments_converge
              (fun n => snd (position (run n dt s))) C friction Hq HC)
    as [y Hy].
  { intros n. rewrite coast_position_step.
    set (v := velocity (run (S n) dt s)). set (p := position (run n dt s)).
    replace (snd (vadd p (vscale v dt)) - snd p) with (snd v * dt)
      by (unfold vadd, vscale; simpl; ring).
    rewrite Rabs_mult, (Rabs_right dt) by lra.
    eapply Rle_trans; [| apply Hinc].
    apply Rmult_le_compat_r; [lra | apply abs_snd_le_norm]. }
  exists (x, y). split; assumption.
Qed.

End CoastingRun.

(** C6, as the code has it.  With no key held, for every dt > 0 and every
    starting state, a tick first takes [min(acceleration * dt, speed)] off
    the speed (when the speed is above 0.001) and then scales what is left
    by the friction factor.  So each tick leaves at most [friction] times
    the speed before, the speed strictly decreases while it is not zero and
    tends to 0, and both coordinates of the position converge. *)
Theorem C6_coasting_speed_decays_and_position_converges
  (dt : R) (s : Interactive.InteractiveCharacter) :
  0 < dt ->
  Interactive.input_forward s = 0 -> Interactive.input_turn s = 0 ->
  (forall n,
      let speed :=
        Np.norm (Interactive.velocity (Interactive.run n dt s)) in
      Np.norm (Interactive.velocity (Interactive.run (S n) dt s))
      = Interactive.friction
        * (if Np.gtb speed 0.001
           then speed - Rmin (Interactive.acceleration * dt) speed
           else speed))
  /\ (forall n,
         Np.norm (Interactive.velocity (Interactive.run (S n) dt s))
         <= Interactive.friction
            * Np.norm (Interactive.velocity (Interactive.run n dt s)))
  /\ (forall n,
         Np.norm (Interactive.velocity (Interactive.run n dt s)) <> 0 ->
         Np.norm (Interactive.velocity (Interactive.run (S n) dt s))
         < Np.norm (Interactive.velocity (Interactive.run n dt s)))
  /\ Un_cv (fun n => Np.norm (Interactive.velocity (Interactive.run n dt s)))
       0
  /\ exists p : Np.vec2,
       Un_cv (fun n => fst (Interactive.position (Interactive.run n dt s)))
         (fst p)
       /\ Un_cv (fun n => snd (Interactive.position (Interactive.run n dt s)))
            (snd p).
Proof.
  intros Hdt Hf Ht.
  split; [exact (coast_speed_exact_run dt s Hdt Hf Ht) |].
  split; [exact (coast_speed_step dt s Hdt Hf Ht) |].
  split.
  - intros n Hn.
    pose proof (coast_speed_step dt s Hdt Hf Ht n) as Hstep.
    pose proof (norm_nonneg (Interactive.velocity (Interactive.run n dt s))).
    unfold Interactive.friction in Hstep. lra.
  - split.
    + apply (geometric_bound_tends_to_zero _
               (Np.norm (Interactive.velocity s)) Interactive.friction).
      * unfold Interactive.friction. lra.
      * apply norm_nonneg.
      * exact (coast_speed_bound dt s Hdt Hf Ht).
    + exact (coast_position_converges dt s Hdt Hf Ht).
Qed.

Lemma C6_witness :
  0 < Interactive.frame_dt
  /\ Interactive.input_forward Interactive.coasting = 0
  /\ Interactive.input_turn Interactive.coasting = 0
  /\ Un_cv (fun n => Np.norm (Interactive.velocity
                                (Interactive.run n Interactive.frame_dt
                                   Interactive.coasting))) 0.
Proof.
  assert (Hdt : 0 < Interactive.frame_dt)
    by (unfold Interactive.frame_dt; lra).
  split; [exact Hdt |]. split; [reflexivity |]. split; [reflexivity |].
  exact (proj1 (proj2 (proj2 (proj2
           (C6_coasting_speed_decays_and_position_converges
              Interactive.frame_dt Interactive.coasting Hdt
              eq_refl eq_refl))))).
Defined.

(** C6 as stated fails in its account of the decay: a character coasting
    at speed 1 with no key held has, after one tick of 1/30 s, the speed
    [(1 - 8/30) * 0.85 = 187/300], not [0.85]: the decay is not by the
    friction factor alone. *)
Lemma C6_counterexample :
  0 < Interactive.frame_dt
  /\ Interactive.input_forward Interactive.coasting = 0
  /\ Interactive.input_turn Interactive.coasting = 0
  /\ Np.norm (Interactive.velocity Interactive.coasting) = 1
  /\ Np.norm (Interactive.velocity
                (Interactive.update Interactive.frame_dt
                   Interactive.coasting)) = 187 / 300
  /\ Np.norm (Interactive.velocity
                (Interactive.update Interactive.frame_dt
                   Interactive.coasting))
     <> Interactive.friction
        * Np.norm (Interactive.velocity Interactive.coasting).
Proof.
  assert (Hdt : 0 < Interactive.frame_dt)
    by (unfold Interactive.frame_dt; lra).
  assert (H1 : Np.norm (Interactive.velocity Interactive.coasting) = 1).
  { simpl. rewrite norm_x_axis. apply Rabs_R1. }
  assert (H2 : Np.norm (Interactive.velocity
                          (Interactive.update Interactive.frame_dt
                             Interactive.coasting)) = 187 / 300).
  { rewrite (coast_speed_exact Interactive.frame_dt Interactive.coasting
               Hdt eq_refl eq_refl), H1.
    assert (E : Np.gtb 1 0.001 = true) by (apply gtb_true; lra).
    rewrite E.
    unfold Interactive.friction, Interactive.acceleration,
      Interactive.frame_dt.
    rewrite Rmin_left; lra. }
  split; [exact Hdt |]. split; [reflexivity |]. split; [reflexivity |].
  split; [exact H1 |]. split; [exact H2 |].
  rewrite H2, H1. unfold Interactive.friction. lra.
Qed.

(** ** The keyboard variant with no turn input *)

Section NoTurn.
Import Np Interactive.

Lemma set_last_rotation_same s :
  last_rotation s = rotation s -> set_last_rotation s (rotation s) = s.
Proof. destruct s; simpl; intros ->; reflexivity. Qed.

Lemma update_velocity_rotation dt s :
  rotation (update_velocity dt s) = rotation s
  /\ last_rotation (update_velocity dt s) = last_rotation s
  /\ lean_angle (update_velocity dt s) = lean_angle s.
Proof.
  unfold update_velocity.
  destruct (gtb (norm (vsub (target_velocity s) (velocity s))) 0.001);
    repeat split; reflexivity.
Qed.

(** The state before the lean step when no turn key is held: the turn
    block is skipped, and the motion block leaves rotation, last rotation
    and lean as they were. *)
Lemma before_lean_no_turn dt s :
  input_turn s = 0 ->
  before_lean dt s
  = update_position dt (update_velocity dt (set_time s (time s + dt)))
  /\ rotation (before_lean dt s) = rotation s
  /\ last_rotation (before_lean dt s) = last_rotation s
  /\ lean_angle (before_lean dt s) = lean_angle s.
Proof.
  intros Ht. unfold before_lean.
  rewrite update_rotation_no_turn by exact Ht.
  destruct (update_velocity_rotation dt (set_time s (time s + dt)))
    as (Hr & Hl & Ha).
  split; [reflexivity |].
  split; [exact Hr |]. split; [exact Hl | exact Ha].
Qed.

Lemma target_lean_no_turn dt s :
  last_rotation s = rotation s -> input_turn s = 0 ->
  yaw_rate dt (before_lean dt s) = 0
  /\ target_lean dt (before_lean dt s) = 0.
Proof.
  intros Hlast Ht.
  destruct (before_lean_no_turn dt s Ht) as (_ & Hr & Hl & _).
  assert (Hy : yaw_rate dt (before_lean dt s) = 0).
  { unfold yaw_rate. rewrite Hr, Hl, Hlast. unfold Rdiv. ring. }
  split; [exact Hy |].
  unfold target_lean. rewrite Hy. unfold degrees, max_lean_angle.
  rewrite clip_inside; lra.
Qed.

Lemma update_no_turn dt s :
  last_rotation s = rotation s -> input_turn s = 0 ->
  update dt s
  = set_lean_angle
      (update_position dt (update_velocity dt (set_time s (time s + dt))))
      (lean_angle s + (0 - lean_angle s) * lean_interp_speed * dt).
Proof.
  intros Hlast Ht.
  destruct (before_lean_no_turn dt s Ht) as (Hb & Hr & Hl & Ha).
  destruct (target_lean_no_turn dt s Hlast Ht) as (_ & Htl).
  change (update dt s) with (update_lean dt (before_lean dt s)).
  unfold update_lean. rewrite Htl.
  rewrite set_last_rotation_same by congruence.
  rewrite Ha, Hb. reflexivity.
Qed.

End NoTurn.

(** C10, as the code has it.  In the keyboard variant, for every dt > 0 and
    every state whose last rotation is its rotation, a call of [update] with
    no turn input leaves rotation and last rotation as they are, has yaw
    rate 0 and lean target 0, and is the motion step followed by the single
    assignment [lean_angle += (0 - lean_angle) * lean_interp_speed * dt];
    the lean shrinks in absolute value when dt < 1/3, as at the tick of
    1/30 s. *)
Theorem C10_no_turn_input_only_smooths_lean
  (dt : R) (s : Interactive.InteractiveCharacter) :
  0 < dt ->
  Interactive.last_rotation s = Interactive.rotation s ->
  Interactive.input_turn s = 0 ->
  Interactive.rotation (Interactive.update dt s) = Interactive.rotation s
  /\ Interactive.last_rotation (Interactive.update dt s)
     = Interactive.last_rotation s
  /\ Interactive.target_lean dt (Interactive.before_lean dt s) = 0
  /\ Interactive.update dt s
     = Interactive.set_lean_angle
         (Interactive.update_position dt
            (Interactive.update_velocity dt
               (Interactive.set_time s (Interactive.time s + dt))))
         (Interactive.lean_angle s
          + (0 - Interactive.lean_angle s)
            * Interactive.lean_interp_speed * dt)
  /\ (dt < 1 / 3 ->
      Rabs (Interactive.lean_angle (Interactive.update dt s))
      <= Rabs (Interactive.lean_angle s)
      /\ (Interactive.lean_angle s <> 0 ->
          Rabs (Interactive.lean_angle (Interactive.update dt s))
          < Rabs (Interactive.lean_angle s))).
Proof.
  intros Hdt Hlast Ht.
  pose proof (update_no_turn dt s Hlast Ht) as Hup.
  destruct (before_lean_no_turn dt s Ht) as (_ & Hr & Hl & _).
  destruct (target_lean_no_turn dt s Hlast Ht) as (_ & Htl).
  split; [exact Hr |].
  split; [change (Interactive.rotation (Interactive.before_lean dt s)
                  = Interactive.last_rotation s); congruence |].
  split; [exact Htl |].
  split; [exact Hup |].
  intros Hsmall. rewrite Hup. simpl.
  set (l := Interactive.lean_angle s).
  replace (l + (0 - l) * Interactive.lean_interp_speed * dt)
    with (l * (1 - 6 * dt)) by (unfold Interactive.lean_interp_speed; lra).
  rewrite Rabs_mult.
  assert (Hk : Rabs (1 - 6 * dt) < 1) by (apply Rabs_def1; lra).
  pose proof (Rabs_pos l) as Hl0. pose proof (Rabs_pos (1 - 6 * dt)) as Hk0.
  split; [nra |].
  intros Hne. apply Rabs_pos_lt in Hne. nra.
Qed.

Lemma C10_witness :
  0 < Interactive.frame_dt
  /\ Interactive.last_rotation Interactive.leaning_at_rest
     = Interactive.rotation Interactive.leaning_at_rest
  /\ Interactive.input_turn Interactive.leaning_at_rest = 0
  /\ Interactive.rotation
       (Interactive.update Interactive.frame_dt Interactive.leaning_at_rest)
     = Interactive.rotation Interactive.leaning_at_rest.
Proof.
  assert (Hdt : 0 < Interactive.frame_dt)
    by (unfold Interactive.frame_dt; lra).
  split; [exact Hdt |]. split; [reflexivity |]. split; [reflexivity |].
  exact (proj1 (C10_no_turn_input_only_smooths_lean
                  Interactive.frame_dt Interactive.leaning_at_rest Hdt
                  eq_refl eq_refl)).
Defined.

(** C10 as stated fails for a long step: with dt = 1 a lean of 1 degree
    becomes -5 degrees, farther from zero than before. *)
Lemma C10_counterexample :
  0 < 1
  /\ Interactive.last_rotation Interactive.leaning_at_rest
     = Interactive.rotation Interactive.leaning_at_rest
  /\ Interactive.input_turn Interactive.leaning_at_rest = 0
  /\ Interactive.lean_angle Interactive.leaning_at_rest = 1
  /\ Interactive.lean_angle (Interactive.update 1 Interactive.leaning_at_rest)
     = -5
  /\ Rabs (Interactive.lean_angle Interactive.leaning_at_rest)
     < Rabs (Interactive.lean_angle
               (Interactive.update 1 Interactive.leaning_at_rest)).
Proof.
  assert (H : Interactive.lean_angle
                (Interactive.update 1 Interactive.leaning_at_rest) = -5).
  { rewrite (update_no_turn 1 Interactive.leaning_at_rest eq_refl eq_refl).
    simpl. unfold Interactive.lean_interp_speed. lra. }
  split; [lra |]. split; [reflexivity |]. split; [reflexivity |].
  split; [reflexivity |]. split; [exact H |].
  rewrite H. simpl.
  replace (Rabs 1) with 1 by (symmetry; apply Rabs_R1).
  replace (Rabs (-5)) with 5
    by (unfold Rabs; destruct (Rcase_abs (-5)); lra).
  lra.
Qed.

(** ** The geometry of the skeleton *)

Section SkeletonGeometry.
Import Np.

(** Turning a vector by an angle keeps its length. *)
Lemma norm_rotated (a b r : R) :
  norm (a * cos r - b * sin r, a * sin r + b * cos r) = norm (a, b).
Proof.
  unfold norm; simpl. f_equal.
  pose proof (sin2_cos2 r) as H. unfold Rsqr in H.
  replace ((a * cos r - b * sin r) * (a * cos r - b * sin r)
           + (a * sin r + b * cos r) * (a * sin r + b * cos r))
    with ((a * a + b * b) * (sin r * sin r + cos r * cos r)) by ring.
  rewrite H. ring.
Qed.

Lemma norm_mono (a b c d : R) :
  a * a <= c * c -> b * b <= d * d -> norm (a, b) <= norm (c, d).
Proof.
  intros H1 H2. unfold norm; simpl. apply sqrt_le_1_alt. lra.
Qed.

Lemma cos_sqr_le_1 (x : R) : cos x * cos x <= 1.
Proof.
  pose proof (sin2_cos2 x) as H. unfold Rsqr in H.
  pose proof (Rle_0_sqr (sin x)) as H0. unfold Rsqr in H0. lra.
Qed.

Lemma interactive_rotate_point_offset s px py :
  vsub (Interactive.rotate_point s px py) (Interactive.position s)
  = (px * cos (radians (Interactive.lean_angle s))
        * cos (Interactive.rotation s)
     - py * sin (Interactive.rotation s),
     px * cos (radians (Interactive.lean_angle s))
        * sin (Interactive.rotation s)
     + py * cos (Interactive.rotation s)).
Proof. unfold Interactive.rotate_point, vsub; simpl. f_equal; ring. Qed.

Lemma standalone_rotate_point_offset st px py :
  vsub (Standalone.rotate_point st px py) (Standalone.position st)
  = (px * cos (radians (Standalone.lean_angle st))
        * cos (Standalone.rotation st)
     - py * sin (Standalone.rotation st),
     px * cos (radians (Standalone.lean_angle st))
        * sin (Standalone.rotation st)
     + py * cos (Standalone.rotation st)).
Proof. unfold Standalone.rotate_point, vsub; simpl. f_equal; ring. Qed.

Lemma squashed_le (px py c : R) :
  c * c <= 1 -> norm (px * c, py) <= norm (px, py).
Proof.
  intros Hc. apply norm_mono; [| lra].
  pose proof (Rle_0_sqr px) as H. unfold Rsqr in H. nra.
Qed.

End SkeletonGeometry.

(** X1. A point placed by [rotate_point] is never farther from the
    character's position than the local point is from the origin, in both
    variants: the lean only squashes the local X coordinate.  With a lean
    of 0 the distance is kept. *)
Theorem rotate_point_never_stretches :
  (forall s px py,
      Np.norm (Np.vsub (Interactive.rotate_point s px py)
                 (Interactive.position s))
      <= Np.norm (px, py))
  /\ (forall st px py,
         Np.norm (Np.vsub (Standalone.rotate_point st px py)
                    (Standalone.position st))
         <= Np.norm (px, py))
  /\ (forall s px py,
         Interactive.lean_angle s = 0 ->
         Np.norm (Np.vsub (Interactive.rotate_point s px py)
                    (Interactive.position s))
         = Np.norm (px, py))
  /\ (forall st px py,
         Standalone.lean_angle st = 0 ->
         Np.norm (Np.vsub (Standalone.rotate_point st px py)
                    (Standalone.position st))
         = Np.norm (px, py)).
Proof.
  split; [| split; [| split]].
  - intros s px py. rewrite interactive_rotate_point_offset, norm_rotated.
    apply squashed_le, cos_sqr_le_1.
  - intros st px py. rewrite standalone_rotate_point_offset, norm_rotated.
    apply squashed_le, cos_sqr_le_1.
  - intros s px py H. rewrite interactive_rotate_point_offset, norm_rotated.
    rewrite H. unfold Np.radians. rewrite Rmult_0_l, cos_0. f_equal.
    f_equal; ring.
  - intros st px py H. rewrite standalone_rotate_point_offset, norm_rotated.
    rewrite H. unfold Np.radians. rewrite Rmult_0_l, cos_0. f_equal.
    f_equal; ring.
Qed.

Lemma rotate_point_never_stretches_witness :
  Interactive.lean_angle Interactive.coasting = 0
  /\ Np.norm (Np.vsub (Interactive.rotate_point Interactive.coasting 3 4)
                (Interactive.position Interactive.coasting))
     = Np.norm (3, 4).
Proof.
  split; [reflexivity |].
  apply (proj1 (proj2 (proj2 rotate_point_never_stretches))). reflexivity.
Defined.

Section BodyFrameFacts.
Import Np BodyFrame.

Lemma frame_of_rotated (x y a b r : R) :
  lateral r (x, y) (x + a * cos r - b * sin r, y + a * sin r + b * cos r) = a
  /\ height r (x, y) (x + a * cos r - b * sin r, y + a * sin r + b * cos r)
     = b.
Proof.
  unfold lateral, height; simpl.
  pose proof (sin2_cos2 r) as H. unfold Rsqr in H.
  split.
  - replace ((x + a * cos r - b * sin r - x) * cos r
             + (y + a * sin r + b * cos r - y) * sin r)
      with (a * (sin r * sin r + cos r * cos r)) by ring.
    rewrite H. ring.
  - replace (- (x + a * cos r - b * sin r - x) * sin r
             + (y + a * sin r + b * cos r - y) * cos r)
      with (b * (sin r * sin r + cos r * cos r)) by ring.
    rewrite H. ring.
Qed.

Lemma interactive_frame s px py :
  lateral (Interactive.rotation s) (Interactive.position s)
    (Interactive.rotate_point s px py)
  = px * cos (radians (Interactive.lean_angle s))
  /\ height (Interactive.rotation s) (Interactive.position s)
       (Interactive.rotate_point s px py)
     = py.
Proof.
  unfold Interactive.rotate_point.
  rewrite (surjective_pairing (Interactive.position s)) at 1 4.
  apply frame_of_rotated.
Qed.

Lemma standalone_frame st px py :
  lateral (Standalone.rotation st) (Standalone.position st)
    (Standalone.rotate_point st px py)
  = px * cos (radians (Standalone.lean_angle st))
  /\ height (Standalone.rotation st) (Standalone.position st)
       (Standalone.rotate_point st px py)
     = py.
Proof.
  unfold Standalone.rotate_point.
  rewrite (surjective_pairing (Standalone.position st)) at 1 4.
  apply frame_of_rotated.
Qed.

Lemma lift_range (phase k : R) :
  Rabs phase <= 1 -> 0 <= k -> 0 <= Rabs phase * k <= k.
Proof. intros H Hk. pose proof (Rabs_pos phase). split; nra. Qed.

Lemma abs_sin_le_1 (x : R) : Rabs (sin x) <= 1.
Proof. apply Rabs_le. destruct (SIN_bound x). lra. Qed.

End BodyFrameFacts.

(** X2. In both variants the spine top is at distance
    [body_height * 0.6 = 1.08] from the hip, and straight above it in the
    frame of the body, whatever the position, the rotation and the lean. *)
Theorem spine_has_constant_length :
  (forall s,
      let pose := fst (Interactive.get_skeleton_points s) in
      Np.norm (Np.vsub (spine_top pose) (hip pose))
      = Interactive.body_height * 0.6
      /\ BodyFrame.lateral (Interactive.rotation s) (hip pose)
           (spine_top pose) = 0)
  /\ (forall s,
         let pose := fst (Standalone.get_skeleton_points s) in
         Np.norm (Np.vsub (spine_top pose) (hip pose))
         = Standalone.body_height * 0.6
         /\ BodyFrame.lateral (Standalone.rotation (Standalone.state s))
              (hip pose) (spine_top pose) = 0).
Proof.
  split.
  - intros s. cbv zeta.
    change (hip (fst (Interactive.get_skeleton_points s)))
      with (fst (Interactive.position s), snd (Interactive.position s)).
    rewrite <- surjective_pairing.
    change (spine_top (fst (Interactive.get_skeleton_points s)))
      with (Interactive.rotate_point s 0 (Interactive.body_height * 0.6)).
    split.
    + rewrite interactive_rotate_point_offset, norm_rotated.
      replace (0 * cos (Np.radians (Interactive.lean_angle s))) with 0
        by ring.
      unfold Np.norm; simpl. unfold Interactive.body_height.
      replace (0 * 0 + 1.8 * 0.6 * (1.8 * 0.6))
        with (1.8 * 0.6 * (1.8 * 0.6)) by lra.
      apply sqrt_square. lra.
    + rewrite (proj1 (interactive_frame s 0 _)). ring.
  - intros s. cbv zeta.
    change (hip (fst (Standalone.get_skeleton_points s)))
      with (fst (Standalone.position (Standalone.state s)),
            snd (Standalone.position (Standalone.state s))).
    rewrite <- surjective_pairing.
    change (spine_top (fst (Standalone.get_skeleton_points s)))
      with (Standalone.rotate_point (Standalone.state s) 0
              (Standalone.body_height * 0.6)).
    split.
    + rewrite standalone_rotate_point_offset, norm_rotated.
      replace (0 * cos (Np.radians (Standalone.lean_angle
                                      (Standalone.state s)))) with 0
        by ring.
      unfold Np.norm; simpl. unfold Standalone.body_height.
      replace (0 * 0 + 1.8 * 0.6 * (1.8 * 0.6))
        with (1.8 * 0.6 * (1.8 * 0.6)) by lra.
      apply sqrt_square. lra.
    + rewrite (proj1 (standalone_frame (Standalone.state s) 0 _)). ring.
Qed.

(** X3. In the frame of the body both feet stay between the resting line
    [- leg_length] and 0.2 above it, and both hands between
    [body_height * 0.3 - 0.1] and [body_height * 0.3], at every time and
    speed, in both variants. *)
Theorem feet_and_hands_height_range :
  (forall s,
      let pose := fst (Interactive.get_skeleton_points s) in
      let h := BodyFrame.height (Interactive.rotation s) (hip pose) in
      - Interactive.leg_length <= h (left_foot pose)
      <= - Interactive.leg_length + 0.2
      /\ - Interactive.leg_length <= h (right_foot pose)
         <= - Interactive.leg_length + 0.2
      /\ Interactive.body_height * 0.3 - 0.1 <= h (left_hand pose)
         <= Interactive.body_height * 0.3
      /\ Interactive.body_height * 0.3 - 0.1 <= h (right_hand pose)
         <= Interactive.body_height * 0.3)
  /\ (forall s,
         let pose := fst (Standalone.get_skeleton_points s) in
         let h := BodyFrame.height (Standalone.rotation (Standalone.state s))
                    (hip pose) in
         - Standalone.leg_length <= h (left_foot pose)
         <= - Standalone.leg_length + 0.2
         /\ - Standalone.leg_length <= h (right_foot pose)
            <= - Standalone.leg_length + 0.2
         /\ Standalone.body_height * 0.3 - 0.1 <= h (left_hand pose)
            <= Standalone.body_height * 0.3
         /\ Standalone.body_height * 0.3 - 0.1 <= h (right_hand pose)
            <= Standalone.body_height * 0.3).
Proof.
  split.
  - intros s. cbv zeta.
    change (hip (fst (Interactive.get_skeleton_points s)))
      with (fst (Interactive.position s), snd (Interactive.position s)).
    rewrite <- surjective_pairing.
    pose proof (lift_range (Interactive.left_phase s) 0.2
                  (abs_sin_le_1 _)) as HL2.
    pose proof (lift_range (Interactive.right_phase s) 0.2
                  (abs_sin_le_1 _)) as HR2.
    pose proof (lift_range (Interactive.left_phase s) 0.1
                  (abs_sin_le_1 _)) as HL1.
    pose proof (lift_range (Interactive.right_phase s) 0.1
                  (abs_sin_le_1 _)) as HR1.
    unfold Interactive.get_skeleton_points, Interactive.skeleton; simpl.
    rewrite !(fun px py => proj2 (interactive_frame s px py)).
    lra.
  - intros s. cbv zeta.
    change (hip (fst (Standalone.get_skeleton_points s)))
      with (fst (Standalone.position (Standalone.state s)),
            snd (Standalone.position (Standalone.state s))).
    rewrite <- surjective_pairing.
    pose proof (lift_range (Standalone.left_phase (Standalone.state s)) 0.2
                  (abs_sin_le_1 _)) as HL2.
    pose proof (lift_range (Standalone.right_phase (Standalone.state s)) 0.2
                  (abs_sin_le_1 _)) as HR2.
    pose proof (lift_range (Standalone.left_phase (Standalone.state s)) 0.1
                  (abs_sin_le_1 _)) as HL1.
    pose proof (lift_range (Standalone.right_phase (Standalone.state s)) 0.1
                  (abs_sin_le_1 _)) as HR1.
    unfold Standalone.get_skeleton_points, Standalone.skeleton; simpl.
    rewrite !(fun px py =>
                proj2 (standalone_frame (Standalone.state s) px py)).
    lra.
Qed.

(** X4. Seen from the hip in the frame of the body, the two feet are
    mirror images of each other about the body axis at every instant, and
    so are the two hands: opposite lateral offsets, equal heights.  Both
    feet therefore leave the resting line together, in both variants. *)
Theorem limbs_are_mirror_images :
  (forall s,
      let pose := fst (Interactive.get_skeleton_points s) in
      let l := BodyFrame.lateral (Interactive.rotation s) (hip pose) in
      let h := BodyFrame.height (Interactive.rotation s) (hip pose) in
      l (right_foot pose) = - l (left_foot pose)
      /\ h (right_foot pose) = h (left_foot pose)
      /\ l (right_hand pose) = - l (left_hand pose)
      /\ h (right_hand pose) = h (left_hand pose))
  /\ (forall s,
         let pose := fst (Standalone.get_skeleton_points s) in
         let l := BodyFrame.lateral (Standalone.rotation (Standalone.state s))
                    (hip pose) in
         let h := BodyFrame.height (Standalone.rotation (Standalone.state s))
                    (hip pose) in
         l (right_foot pose) = - l (left_foot pose)
         /\ h (right_foot pose) = h (left_foot pose)
         /\ l (right_hand pose) = - l (left_hand pose)
         /\ h (right_hand pose) = h (left_hand pose)).
Proof.
  split.
  - intros s. cbv zeta.
    change (hip (fst (Interactive.get_skeleton_points s)))
      with (fst (Interactive.position s), snd (Interactive.position s)).
    rewrite <- surjective_pairing.
    assert (Hp : Interactive.right_phase s = - Interactive.left_phase s)
      by apply neg_sin.
    unfold Interactive.get_skeleton_points, Interactive.skeleton; simpl.
    rewrite !(fun px py => proj2 (interactive_frame s px py)).
    rewrite !(fun px py => proj1 (interactive_frame s px py)).
    rewrite Hp, Rabs_Ropp. repeat split; lra.
  - intros s. cbv zeta.
    change (hip (fst (Standalone.get_skeleton_points s)))
      with (fst (Standalone.position (Standalone.state s)),
            snd (Standalone.position (Standalone.state s))).
    rewrite <- surjective_pairing.
    assert (Hp : Standalone.right_phase (Standalone.state s)
                 = - Standalone.left_phase (Standalone.state s))
      by apply neg_sin.
    unfold Standalone.get_skeleton_points, Standalone.skeleton; simpl.
    rewrite !(fun px py =>
                proj2 (standalone_frame (Standalone.state s) px py)).
    rewrite !(fun px py =>
                proj1 (standalone_frame (Standalone.state s) px py)).
    rewrite Hp, Rabs_Ropp. repeat split; lra.
Qed.

Section HeadFacts.
Import Np.

Lemma cos_small (x : R) : -1 <= x <= 1 -> 1 - x * x / 2 <= cos x <= 1.
Proof.
  intros [H0 H1]. pose proof PI2_1 as HPI. split.
  - destruct (cos_bound x 0) as [Hlb _]; [lra | lra |].
    replace (1 - x * x / 2) with (cos_approx x (2 * 0 + 1)); [exact Hlb |].
    unfold cos_approx, cos_term. simpl. field.
  - destruct (COS_bound x). lra.
Qed.

Lemma abs_le_inv (x b : R) : Rabs x <= b -> - b <= x <= b.
Proof. unfold Rabs. destruct (Rcase_abs x); lra. Qed.

Lemma abs_sin_le_abs (x : R) : Rabs x <= 1 -> Rabs (sin x) <= Rabs x.
Proof.
  intros H. apply abs_le_inv in H.
  destruct (Rle_dec 0 x) as [Hpos | Hneg].
  - destruct (sin_small x) as [Hl Hu]; [lra |].
    rewrite (Rabs_right x) by lra. apply Rabs_le.
    assert (0 <= x * x * x) by (apply Rmult_le_pos; [nra | lra]).
    assert (x * x * x <= x) by nra. lra.
  - destruct (sin_small (- x)) as [Hl Hu]; [lra |].
    rewrite sin_neg in Hl, Hu.
    rewrite (Rabs_left x) by lra. apply Rabs_le.
    assert (0 <= (- x) * (- x) * (- x)) by (apply Rmult_le_pos; [nra | lra]).
    assert ((- x) * (- x) * (- x) <= - x) by nra. lra.
Qed.

(** The swing of the head: an amplitude of 10 degrees is at most 2/9 rad. *)
Lemma head_swing (u : R) :
  Rabs u <= 1 -> Rabs (u * radians 10.0) <= 2 / 9.
Proof.
  intros Hu. rewrite Rabs_mult.
  assert (Hr : 0 <= radians 10.0 <= 2 / 9).
  { unfold radians. pose proof PI_RGT_0. pose proof PI_4. lra. }
  rewrite (Rabs_right (radians 10.0)) by lra.
  pose proof (Rabs_pos u). nra.
Qed.

Lemma head_offsets (t c : R) :
  Rabs c <= 1 ->
  Rabs (0.2 * sin (cos t * radians 10.0) * c) <= 0.05
  /\ 0.49 <= 0.2 * cos (sin t * radians 10.0) + 0.3 <= 0.5.
Proof.
  intros Hc.
  assert (Hcos : Rabs (cos t) <= 1)
    by (apply Rabs_le; destruct (COS_bound t); lra).
  pose proof (head_swing (cos t) Hcos) as Hy.
  pose proof (head_swing (sin t) (abs_sin_le_1 t)) as Hp.
  split.
  - assert (Hs : Rabs (sin (cos t * radians 10.0)) <= 2 / 9).
    { eapply Rle_trans; [apply abs_sin_le_abs; lra | exact Hy]. }
    rewrite !Rabs_mult, (Rabs_right 0.2) by lra.
    pose proof (Rabs_pos (sin (cos t * radians 10.0))).
    pose proof (Rabs_pos c). nra.
  - apply abs_le_inv in Hp.
    destruct (cos_small (sin t * radians 10.0)) as [Hl Hu]; [lra |].
    set (p := sin t * radians 10.0) in *.
    assert (p * p <= 4 / 81) by nra. lra.
Qed.

End HeadFacts.

(** X5. In both variants the centre of the head stays in a small box
    above the spine top in world coordinates, whatever the rotation and the
    lean: between 0.49 and 0.5 higher, and at most 0.05 to either side. *)
Theorem head_stays_above_spine_top :
  (forall s,
      let pose := fst (Interactive.get_skeleton_points s) in
      Rabs (fst (head pose) - fst (spine_top pose)) <= 0.05
      /\ 0.49 <= snd (head pose) - snd (spine_top pose) <= 0.5)
  /\ (forall s,
         let pose := fst (Standalone.get_skeleton_points s) in
         Rabs (fst (head pose) - fst (spine_top pose)) <= 0.05
         /\ 0.49 <= snd (head pose) - snd (spine_top pose) <= 0.5).
Proof.
  split.
  - intros s. cbv zeta.
    destruct (head_offsets
                (Interactive.time s * Interactive.head_oscillation_speed)
                (cos (Interactive.rotation s))) as [Hx Hy].
    { apply Rabs_le. destruct (COS_bound (Interactive.rotation s)). lra. }
    unfold Interactive.get_skeleton_points, Interactive.skeleton.
    cbn [fst snd head spine_top].
    unfold Interactive.head_size, Interactive.head_yaw_amplitude,
      Interactive.head_pitch_amplitude.
    split.
    + match goal with
      | |- Rabs ?e <= _ =>
          replace e with (0.2 * sin (cos (Interactive.time s
                                      * Interactive.head_oscillation_speed)
                                     * Np.radians 10.0)
                          * cos (Interactive.rotation s)) by ring
      end.
      exact Hx.
    + lra.
  - intros s. cbv zeta.
    destruct (head_offsets
                (Standalone.time (Standalone.state s)
                 * Standalone.head_oscillation_speed)
                (cos (Standalone.rotation (Standalone.state s))))
      as [Hx Hy].
    { apply Rabs_le.
      destruct (COS_bound (Standalone.rotation (Standalone.state s))). lra. }
    unfold Standalone.get_skeleton_points, Standalone.skeleton.
    cbn [fst snd head spine_top].
    unfold Standalone.head_size, Standalone.head_yaw_amplitude,
      Standalone.head_pitch_amplitude.
    split.
    + match goal with
      | |- Rabs ?e <= _ =>
          replace e with (0.2 * sin (cos (Standalone.time (Standalone.state s)
                                      * Standalone.head_oscillation_speed)
                                     * Np.radians 10.0)
                          * cos (Standalone.rotation (Standalone.state s)))
            by ring
      end.
      exact Hx.
    + lra.
Qed.

(** ** The speed of the keyboard variant *)

Section SpeedCap.
Import Np Interactive.

(** The triangle inequality of the Euclidean norm. *)
Lemma cauchy_schwarz (a1 a2 b1 b2 : R) :
  a1 * b1 + a2 * b2
  <= sqrt (a1 * a1 + a2 * a2) * sqrt (b1 * b1 + b2 * b2).
Proof.
  assert (HA : 0 <= a1 * a1 + a2 * a2) by nra.
  assert (HB : 0 <= b1 * b1 + b2 * b2) by nra.
  rewrite <- sqrt_mult by assumption.
  destruct (Rle_dec (a1 * b1 + a2 * b2) 0) as [Hn | Hp].
  - eapply Rle_trans; [exact Hn | apply sqrt_pos].
  - rewrite <- (sqrt_square (a1 * b1 + a2 * b2)) by lra.
    apply sqrt_le_1_alt.
    assert (Hid : (a1 * a1 + a2 * a2) * (b1 * b1 + b2 * b2)
                  = (a1 * b1 + a2 * b2) * (a1 * b1 + a2 * b2)
                    + (a1 * b2 - a2 * b1) * (a1 * b2 - a2 * b1)) by ring.
    rewrite Hid.
    pose proof (Rle_0_sqr (a1 * b2 - a2 * b1)) as Hs. unfold Rsqr in Hs.
    lra.
Qed.

(** The triangle inequality of the Euclidean norm. *)
Lemma norm_vadd (a b : vec2) : norm (vadd a b) <= norm a + norm b.
Proof.
  destruct a as [a1 a2], b as [b1 b2]. unfold norm, vadd; simpl.
  assert (HA : 0 <= a1 * a1 + a2 * a2) by nra.
  assert (HB : 0 <= b1 * b1 + b2 * b2) by nra.
  pose proof (sqrt_pos (a1 * a1 + a2 * a2)) as HsA.
  pose proof (sqrt_pos (b1 * b1 + b2 * b2)) as HsB.
  pose proof (sqrt_sqrt _ HA) as HAA. pose proof (sqrt_sqrt _ HB) as HBB.
  pose proof (cauchy_schwarz a1 a2 b1 b2) as Hcs.
  rewrite <- (sqrt_square (sqrt (a1 * a1 + a2 * a2)
                           + sqrt (b1 * b1 + b2 * b2))) by lra.
  apply sqrt_le_1_alt.
  set (p := sqrt (a1 * a1 + a2 * a2)) in *.
  set (q := sqrt (b1 * b1 + b2 * b2)) in *.
  replace ((p + q) * (p + q)) with (p * p + q * q + 2 * (p * q)) by ring.
  rewrite HAA, HBB. lra.
Qed.

(** One call of [update] scales by the friction a velocity that has
    changed by at most [acceleration * dt] in length, whatever the
    inputs. *)
Lemma update_speed_bound dt s :
  0 <= dt ->
  norm (velocity (update dt s))
  <= friction * (norm (velocity s) + acceleration * dt).
Proof.
  intros Hdt.
  change (velocity (update dt s))
    with (velocity (update_velocity dt
                      (update_rotation dt (set_time s (time s + dt))))).
  set (s2 := update_rotation dt (set_time s (time s + dt))).
  assert (Hv : velocity s2 = velocity s).
  { subst s2. unfold update_rotation. simpl.
    destruct (neqb (input_turn s) 0); reflexivity. }
  unfold update_velocity.
  set (diff := vsub (target_velocity s2) (velocity s2)).
  assert (Hf : Rabs friction = friction)
    by (apply Rabs_right; unfold friction; lra).
  assert (Hacc : 0 <= acceleration * dt) by (unfold acceleration; nra).
  destruct (gtb (norm diff) 0.001) eqn:E.
  - apply gtb_true in E. simpl velocity.
    rewrite norm_vscale, Hf, Hv.
    apply Rmult_le_compat_l; [unfold friction; lra |].
    eapply Rle_trans; [apply norm_vadd |].
    apply Rplus_le_compat_l.
    rewrite norm_vscale, norm_unit by lra.
    rewrite Rabs_right.
    + rewrite Rmult_1_r. apply Rmin_l.
    + apply Rle_ge, Rmin_glb; [exact Hacc | apply norm_nonneg].
  - simpl velocity. rewrite norm_vscale, Hf, Hv.
    apply Rmult_le_compat_l; [unfold friction; lra | lra].
Qed.

Lemma on_key_press_speed key s :
  norm (velocity (on_key_press key s)) <= norm (velocity s).
Proof.
  unfold on_key_press.
  repeat match goal with
         | |- context [if ?b then _ else _] => destruct b
         end; simpl; try lra.
  rewrite norm_vscale.
  replace (Rabs 0.0) with 0 by (symmetry; rewrite <- Rabs_R0; f_equal; lra).
  pose proof (norm_nonneg (velocity s)). lra.
Qed.

Lemma on_key_release_velocity key s :
  velocity (on_key_release key s) = velocity s.
Proof.
  unfold on_key_release.
  repeat match goal with
         | |- context [if ?b then _ else _] => destruct b
         end; reflexivity.
Qed.

Lemma handle_all_speed es :
  forall s, norm (velocity (handle_all es s)) <= norm (velocity s).
Proof.
  induction es as [| e es IH]; intros s; [simpl; lra |].
  unfold handle_all in *. simpl.
  eapply Rle_trans; [apply IH |].
  destruct e; simpl.
  - apply on_key_press_speed.
  - rewrite on_key_release_velocity. lra.
Qed.

End SpeedCap.

(** X6. In the keyboard variant a tick of length [dt >= 0] leaves a speed
    of at most [friction * (|velocity| + acceleration * dt)], whatever the
    inputs are.  Hence in every state the animation reaches, whatever keys
    are pressed, the ground speed is at most 68/45 (about 1.51): the
    character never gets to [max_speed = 3]. *)
Theorem keyboard_speed_never_reaches_max_speed :
  (forall dt s,
      0 <= dt ->
      Np.norm (Interactive.velocity (Interactive.update dt s))
      <= Interactive.friction
         * (Np.norm (Interactive.velocity s) + Interactive.acceleration * dt))
  /\ (forall s,
         Interactive.reachable s ->
         Interactive.ground_speed s <= 68 / 45
         /\ Interactive.ground_speed s < Interactive.max_speed).
Proof.
  split; [exact update_speed_bound |].
  intros s Hs.
  assert (H : Interactive.ground_speed s
              = Np.norm (Interactive.velocity s)
              /\ Np.norm (Interactive.velocity s) <= 68 / 45).
  { induction Hs as [| es s Hs [_ IH]].
    - simpl. rewrite norm_zero. lra.
    - split; [apply interactive_update_ground_speed |].
      eapply Rle_trans;
        [apply (update_speed_bound Interactive.frame_dt);
         unfold Interactive.frame_dt; lra |].
      pose proof (handle_all_speed es s) as Hes.
      unfold Interactive.friction, Interactive.acceleration,
        Interactive.frame_dt. lra. }
  destruct H as [-> H]. unfold Interactive.max_speed. lra.
Qed.

Lemma keyboard_speed_never_reaches_max_speed_witness :
  0 <= Interactive.frame_dt
  /\ Np.norm (Interactive.velocity
                (Interactive.update Interactive.frame_dt
                   Interactive.walking_start))
     <= Interactive.friction
        * (Np.norm (Interactive.velocity Interactive.walking_start)
           + Interactive.acceleration * Interactive.frame_dt).
Proof.
  assert (H : 0 <= Interactive.frame_dt)
    by (unfold Interactive.frame_dt; lra).
  split; [exact H |].
  exact (proj1 keyboard_speed_never_reaches_max_speed _ _ H).
Defined.

(** ** Turning with a key held *)

Section Turning.
Import Np Interactive.

Lemma degrees_of_turn_speed : 20 <= degrees turn_speed * 0.5.
Proof.
  unfold degrees, turn_speed. pose proof PI_RGT_0. pose proof PI_4.
  apply (Rmult_le_reg_r PI); [lra |].
  assert (E : 2.5 * (180 / PI) * 0.5 * PI = 225) by (field_simplify; lra).
  rewrite E. lra.
Qed.

(** The state before the lean step when a turn key is held. *)
Lemma before_lean_turning dt s :
  input_turn s <> 0 ->
  rotation (before_lean dt s) = rotation s + input_turn s * turn_speed * dt
  /\ last_rotation (before_lean dt s) = rotation s
  /\ lean_angle (before_lean dt s) = lean_angle s.
Proof.
  intros Ht.
  destruct (update_velocity_rotation dt
              (update_rotation dt (set_time s (time s + dt))))
    as (Hr & Hl & Ha).
  change (rotation (before_lean dt s))
    with (rotation (update_velocity dt
                      (update_rotation dt (set_time s (time s + dt))))).
  change (last_rotation (before_lean dt s))
    with (last_rotation
            (update_velocity dt
               (update_rotation dt (set_time s (time s + dt))))).
  change (lean_angle (before_lean dt s))
    with (lean_angle (update_velocity dt
                        (update_rotation dt (set_time s (time s + dt))))).
  rewrite Hr, Hl, Ha. unfold update_rotation. simpl.
  destruct (neqb (input_turn s) 0) eqn:E.
  - repeat split; reflexivity.
  - apply neqb_false in E. contradiction.
Qed.

Lemma turn_step (sign : R) dt s :
  0.001 <= dt -> sign = 1 \/ sign = -1 -> input_turn s = sign ->
  rotation (update dt s) = rotation s + sign * turn_speed * dt
  /\ lean_angle (update dt s)
     = lean_angle s
       + (sign * max_lean_angle - lean_angle s) * lean_interp_speed * dt.
Proof.
  intros Hdt Hsign Ht.
  destruct (before_lean_turning dt s) as (Hr & Hl & Ha);
    [rewrite Ht; lra |].
  rewrite Ht in Hr.
  split; [exact Hr |].
  change (lean_angle (update dt s))
    with (lean_angle (before_lean dt s)
          + (target_lean dt (before_lean dt s)
             - lean_angle (before_lean dt s)) * lean_interp_speed * dt).
  rewrite Ha. f_equal. f_equal. f_equal.
  unfold target_lean, yaw_rate. rewrite Hr, Hl.
  rewrite Rmax_left by lra.
  replace ((rotation s + sign * turn_speed * dt - rotation s) / dt)
    with (sign * turn_speed) by (field; lra).
  pose proof degrees_of_turn_speed as Hd.
  unfold degrees in *. unfold clip, Rmin, Rmax, max_lean_angle in *.
  destruct Hsign as [-> | ->];
    destruct (Rle_dec _ (- (20.0))); destruct (Rle_dec _ 20.0); lra.
Qed.

Lemma turning_run (sign : R) (n : nat) s :
  sign = 1 \/ sign = -1 -> input_turn s = sign ->
  input_turn (run n frame_dt s) = sign
  /\ rotation (run n frame_dt s)
     = rotation s + INR n * (sign * turn_speed * frame_dt)
  /\ lean_angle (run n frame_dt s)
     = sign * max_lean_angle
       - (sign * max_lean_angle - lean_angle s) * 0.8 ^ n.
Proof.
  intros Hsign Ht. induction n as [| n (IHt & IHr & IHl)].
  - simpl. repeat split; [exact Ht | ring | ring].
  - change (run (S n) frame_dt s) with (update frame_dt (run n frame_dt s)).
    destruct (turn_step sign frame_dt (run n frame_dt s)) as (Hr & Hl);
      [unfold frame_dt; lra | exact Hsign | exact IHt |].
    split; [rewrite (proj2 (update_inputs _ _)); exact IHt |].
    split.
    + rewrite Hr, IHr, S_INR. ring.
    + rewrite Hl, IHl. unfold lean_interp_speed, frame_dt. simpl pow. lra.
Qed.

End Turning.

(** X7. With a turn key held ([input_turn] 1 or -1) and a tick of at
    least 0.001 s, the keyboard variant turns by [turn_speed * dt] and its
    lean target is saturated at [max_lean_angle] on the side of the turn.
    Over [n] ticks of 1/30 s the lean is
    [sign * 20 - (sign * 20 - lean) * 0.8 ^ n]: it keeps the sign of the
    turn and closes a fifth of the gap to 20 degrees each tick. *)
Theorem holding_a_turn_key_saturates_lean (sign : R) :
  sign = 1 \/ sign = -1 ->
  (forall dt s,
      0.001 <= dt -> Interactive.input_turn s = sign ->
      Interactive.rotation (Interactive.update dt s)
      = Interactive.rotation s + sign * Interactive.turn_speed * dt
      /\ Interactive.lean_angle (Interactive.update dt s)
         = Interactive.lean_angle s
           + (sign * Interactive.max_lean_angle - Interactive.lean_angle s)
             * Interactive.lean_interp_speed * dt)
  /\ (forall n s,
         Interactive.input_turn s = sign ->
         Interactive.rotation (Interactive.run n Interactive.frame_dt s)
         = Interactive.rotation s
           + INR n * (sign * Interactive.turn_speed * Interactive.frame_dt)
         /\ Interactive.lean_angle (Interactive.run n Interactive.frame_dt s)
            = sign * Interactive.max_lean_angle
              - (sign * Interactive.max_lean_angle
                 - Interactive.lean_angle s) * 0.8 ^ n).
Proof.
  intros Hsign. split.
  - intros dt s Hdt Ht. exact (turn_step sign dt s Hdt Hsign Ht).
  - intros n s Ht.
    destruct (turning_run sign n s Hsign Ht) as (_ & Hr & Hl).
    split; assumption.
Qed.

Lemma holding_a_turn_key_saturates_lean_witness :
  (1 = 1 \/ 1 = -1)
  /\ Interactive.input_turn
       (Interactive.on_key_press "a" Interactive.init) = 1
  /\ Interactive.lean_angle
       (Interactive.run 2 Interactive.frame_dt
          (Interactive.on_key_press "a" Interactive.init))
     = 1 * Interactive.max_lean_angle
       - (1 * Interactive.max_lean_angle
          - Interactive.lean_angle
              (Interactive.on_key_press "a" Interactive.init)) * 0.8 ^ 2.
Proof.
  assert (Hs : 1 = 1 \/ 1 = -1) by (left; reflexivity).
  assert (Ht : Interactive.input_turn
                 (Interactive.on_key_press "a" Interactive.init) = 1)
    by (simpl; lra).
  split; [exact Hs |]. split; [exact Ht |].
  exact (proj2 (proj2 (holding_a_turn_key_saturates_lean 1 Hs) 2%nat _ Ht)).
Defined.

(** ** The space bar *)

Section Stop.
Import Np Interactive.

(** A character with no velocity and no input. *)
Lemma stopped_update dt s :
  velocity s = (0, 0) -> input_forward s = 0 -> input_turn s = 0 ->
  velocity (update dt s) = (0, 0)
  /\ position (update dt s) = position s
  /\ rotation (update dt s) = rotation s
  /\ ground_speed (update dt s) = 0.
Proof.
  intros Hv Hf Ht.
  assert (Hvel : velocity (update dt s) = (0, 0)).
  { change (velocity (update dt s))
      with (velocity (update_velocity dt
                        (update_rotation dt (set_time s (time s + dt))))).
    rewrite update_rotation_no_turn by exact Ht.
    unfold update_velocity.
    assert (Hd : vsub (target_velocity (set_time s (time s + dt)))
                   (velocity (set_time s (time s + dt))) = (0, 0)).
    { unfold target_velocity, vsub. simpl. rewrite Hf, Hv. simpl.
      f_equal; ring. }
    rewrite Hd, norm_zero.
    assert (E : gtb 0 0.001 = false) by (apply gtb_false; lra).
    rewrite E. simpl. rewrite Hv. unfold vscale. simpl. f_equal; ring. }
  split; [exact Hvel |]. split; [| split].
  - change (position (update dt s))
      with (vadd (position (update_velocity dt
                              (update_rotation dt
                                 (set_time s (time s + dt)))))
              (vscale (velocity (update dt s)) dt)).
    rewrite Hvel, update_velocity_position.
    rewrite update_rotation_no_turn by exact Ht. simpl.
    unfold vadd, vscale. simpl.
    rewrite (surjective_pairing (position s)) at 3. f_equal; ring.
  - destruct (before_lean_no_turn dt s Ht) as (_ & Hr & _). exact Hr.
  - rewrite interactive_update_ground_speed, Hvel. apply norm_zero.
Qed.

Lemma space_stops s :
  velocity (on_key_press " " s) = (0, 0)
  /\ input_forward (on_key_press " " s) = 0
  /\ input_turn (on_key_press " " s) = 0
  /\ position (on_key_press " " s) = position s
  /\ rotation (on_key_press " " s) = rotation s.
Proof.
  unfold on_key_press. simpl. unfold vscale.
  repeat split; try lra. f_equal; lra.
Qed.

Lemma stopped_run dt n s :
  velocity s = (0, 0) -> input_forward s = 0 -> input_turn s = 0 ->
  velocity (run n dt s) = (0, 0)
  /\ input_forward (run n dt s) = 0 /\ input_turn (run n dt s) = 0
  /\ position (run n dt s) = position s
  /\ rotation (run n dt s) = rotation s.
Proof.
  intros Hv Hf Ht. induction n as [| n (IHv & IHf & IHt & IHp & IHr)].
  - simpl. auto.
  - change (run (S n) dt s) with (update dt (run n dt s)).
    destruct (stopped_update dt (run n dt s) IHv IHf IHt)
      as (Hv' & Hp' & Hr' & _).
    destruct (update_inputs dt (run n dt s)) as [Hf' Ht'].
    repeat split; congruence.
Qed.

End Stop.

(** X8. The space bar stops the keyboard character dead: it clears both
    inputs and the velocity, and after any number of ticks of any length
    with no further key the velocity is zero and the position and the
    rotation are what they were when it was pressed.  The press itself
    leaves [ground_speed] as it was; from the first tick after it on, the
    ground speed is 0. *)
Theorem space_bar_stops_the_character (dt : R) (n : nat)
  (s : Interactive.InteractiveCharacter) :
  let stopped := Interactive.on_key_press " " s in
  Interactive.input_forward stopped = 0
  /\ Interactive.input_turn stopped = 0
  /\ Interactive.velocity (Interactive.run n dt stopped) = (0, 0)
  /\ Interactive.position (Interactive.run n dt stopped)
     = Interactive.position s
  /\ Interactive.rotation (Interactive.run n dt stopped)
     = Interactive.rotation s
  /\ Interactive.ground_speed stopped = Interactive.ground_speed s
  /\ Interactive.ground_speed (Interactive.run (S n) dt stopped) = 0.
Proof.
  cbv zeta.
  destruct (space_stops s) as (Hv & Hf & Ht & Hp & Hr).
  destruct (stopped_run dt n _ Hv Hf Ht) as (Hv' & Hf' & Ht' & Hp' & Hr').
  split; [exact Hf |]. split; [exact Ht |]. split; [exact Hv' |].
  split; [congruence |]. split; [congruence |].
  split; [reflexivity |].
  change (Interactive.run (S n) dt (Interactive.on_key_press " " s))
    with (Interactive.update dt
            (Interactive.run n dt (Interactive.on_key_press " " s))).
  exact (proj2 (proj2 (proj2 (stopped_update dt _ Hv' Hf' Ht')))).
Qed.

(** ** The key handlers *)

Section Keys.
Import Np Interactive InteractiveUI.

Lemma key_in_true key keys : key_in key keys = true <-> In key keys.
Proof.
  unfold key_in. rewrite existsb_exists. split.
  - intros (k & Hin & Hk). apply String.eqb_eq in Hk. now subst.
  - intros Hin. exists key. split; [exact Hin | apply String.eqb_refl].
Qed.

Lemma key_in_false key keys : ~ In key keys -> key_in key keys = false.
Proof.
  intros H. destruct (key_in key keys) eqn:E; [| reflexivity].
  apply key_in_true in E. contradiction.
Qed.

Lemma on_key_press_inputs key s :
  key_value (input_forward s) -> key_value (input_turn s) ->
  key_value (input_forward (on_key_press key s))
  /\ key_value (input_turn (on_key_press key s)).
Proof.
  intros Hf Ht. unfold on_key_press, key_value in *.
  repeat match goal with
         | |- context [if ?b then _ else _] => destruct b
         end; simpl; split; auto; lra.
Qed.

Lemma on_key_release_inputs key s :
  key_value (input_forward s) -> key_value (input_turn s) ->
  key_value (input_forward (on_key_release key s))
  /\ key_value (input_turn (on_key_release key s)).
Proof.
  intros Hf Ht. unfold on_key_release, key_value in *.
  repeat match goal with
         | |- context [if ?b then _ else _] => destruct b
         end; simpl; split; auto; lra.
Qed.

Lemma handle_all_inputs es :
  forall s,
    key_value (input_forward s) -> key_value (input_turn s) ->
    key_value (input_forward (handle_all es s))
    /\ key_value (input_turn (handle_all es s)).
Proof.
  induction es as [| e es IH]; intros s Hf Ht; [now split |].
  unfold handle_all in *. simpl. apply IH.
  - destruct e; simpl;
      [apply on_key_press_inputs | apply on_key_release_inputs]; assumption.
  - destruct e; simpl;
      [apply on_key_press_inputs | apply on_key_release_inputs]; assumption.
Qed.

End Keys.

(** X9. In the keyboard variant both inputs are always -1, 0 or 1: in
    every state the animation reaches, and after any further key presses
    and releases. *)
Theorem inputs_are_minus_one_zero_or_one
  (s : Interactive.InteractiveCharacter) (es : list Interactive.key_event) :
  Interactive.reachable s ->
  InteractiveUI.key_value
    (Interactive.input_forward (Interactive.handle_all es s))
  /\ InteractiveUI.key_value
       (Interactive.input_turn (Interactive.handle_all es s)).
Proof.
  intros Hs.
  assert (H : InteractiveUI.key_value (Interactive.input_forward s)
              /\ InteractiveUI.key_value (Interactive.input_turn s)).
  { induction Hs as [| es' s Hs [IHf IHt]].
    - unfold InteractiveUI.key_value. simpl. split; right; left; reflexivity.
    - destruct (update_inputs Interactive.frame_dt
                  (Interactive.handle_all es' s)) as [-> ->].
      now apply handle_all_inputs. }
  destruct H as [Hf Ht]. now apply handle_all_inputs.
Qed.

Lemma inputs_are_minus_one_zero_or_one_witness :
  Interactive.reachable Interactive.init
  /\ InteractiveUI.key_value
       (Interactive.input_forward
          (Interactive.handle_all
             [Interactive.KeyPress "s"; Interactive.KeyPress "left"]
             Interactive.init)).
Proof.
  split; [apply Interactive.reachable_init |].
  exact (proj1 (inputs_are_minus_one_zero_or_one Interactive.init
                  [Interactive.KeyPress "s"; Interactive.KeyPress "left"]
                  Interactive.reachable_init)).
Defined.

(** X10. A key press or release never changes the position, the rotation,
    the lean angle, the ground speed, the time or the last rotation of the
    character, and a key that is none of w, up, s, down, a, left, d, right
    and space (escape, for one) leaves the character as it is. *)
Theorem key_handlers_leave_the_pose_alone :
  (forall e s,
      let s' := Interactive.handle e s in
      Interactive.position s' = Interactive.position s
      /\ Interactive.rotation s' = Interactive.rotation s
      /\ Interactive.lean_angle s' = Interactive.lean_angle s
      /\ Interactive.ground_speed s' = Interactive.ground_speed s
      /\ Interactive.time s' = Interactive.time s
      /\ Interactive.last_rotation s' = Interactive.last_rotation s)
  /\ (forall key s,
         ~ In key ["w"; "up"; "s"; "down"; "a"; "left"; "d"; "right"; " "]
             %string ->
         Interactive.on_key_press key s = s
         /\ Interactive.on_key_release key s = s).
Proof.
  split.
  - intros e s. cbv zeta.
    destruct e as [key | key]; simpl;
      [unfold Interactive.on_key_press | unfold Interactive.on_key_release];
      repeat match goal with
             | |- context [if ?b then _ else _] => destruct b
             end; repeat split; reflexivity.
  - intros key s Hout.
    assert (H1 : Interactive.key_in key ["w"; "up"]%string = false)
      by (apply key_in_false; intros H; apply Hout; simpl in *; tauto).
    assert (H2 : Interactive.key_in key ["s"; "down"]%string = false)
      by (apply key_in_false; intros H; apply Hout; simpl in *; tauto).
    assert (H3 : Interactive.key_in key ["a"; "left"]%string = false)
      by (apply key_in_false; intros H; apply Hout; simpl in *; tauto).
    assert (H4 : Interactive.key_in key ["d"; "right"]%string = false)
      by (apply key_in_false; intros H; apply Hout; simpl in *; tauto).
    assert (H5 : String.eqb key " " = false).
    { apply String.eqb_neq. intros ->. apply Hout. simpl. tauto. }
    assert (H6 : Interactive.key_in key ["w"; "up"; "s"; "down"]%string
                 = false)
      by (apply key_in_false; intros H; apply Hout; simpl in *; tauto).
    assert (H7 : Interactive.key_in key ["a"; "left"; "d"; "right"]%string
                 = false)
      by (apply key_in_false; intros H; apply Hout; simpl in *; tauto).
    unfold Interactive.on_key_press, Interactive.on_key_release.
    rewrite H1, H2, H3, H4, H5, H6, H7. split; reflexivity.
Qed.

Lemma key_handlers_leave_the_pose_alone_witness :
  ~ In "escape"%string
      ["w"; "up"; "s"; "down"; "a"; "left"; "d"; "right"; " "]%string
  /\ Interactive.on_key_press "escape" Interactive.walking_start
     = Interactive.walking_start.
Proof.
  assert (H : ~ In "escape"%string
                ["w"; "up"; "s"; "down"; "a"; "left"; "d"; "right"; " "]
                %string).
  { simpl. intros H.
    repeat (destruct H as [H | H]; [discriminate H |]). exact H. }
  split; [exact H |].
  exact (proj1 (proj2 key_handlers_leave_the_pose_alone _ _ H)).
Defined.

(** X11. Releasing any of w, up, s, down sets the forward input to 0 and
    releasing any of a, left, d, right sets the turn input to 0, whatever
    was held before: the key for the opposite direction may still be down.
    The other input and the velocity are not touched. *)
Theorem releasing_a_key_clears_its_axis
  (key : string) (s : Interactive.InteractiveCharacter) :
  (In key ["w"; "up"; "s"; "down"]%string ->
   Interactive.input_forward (Interactive.on_key_release key s) = 0
   /\ Interactive.input_turn (Interactive.on_key_release key s)
      = Interactive.input_turn s
   /\ Interactive.velocity (Interactive.on_key_release key s)
      = Interactive.velocity s)
  /\ (In key ["a"; "left"; "d"; "right"]%string ->
      Interactive.input_turn (Interactive.on_key_release key s) = 0
      /\ Interactive.input_forward (Interactive.on_key_release key s)
         = Interactive.input_forward s
      /\ Interactive.velocity (Interactive.on_key_release key s)
         = Interactive.velocity s).
Proof.
  split; intros Hin.
  - apply key_in_true in Hin. unfold Interactive.on_key_release.
    rewrite Hin. simpl. repeat split; lra.
  - assert (Hout : Interactive.key_in key ["w"; "up"; "s"; "down"]%string
                   = false).
    { apply key_in_false. intros H. simpl in Hin, H.
      repeat (destruct Hin as [Hin | Hin];
              [subst key;
               repeat (destruct H as [H | H]; [discriminate H |]);
               exact H |]).
      exact Hin. }
    apply key_in_true in Hin. unfold Interactive.on_key_release.
    rewrite Hout, Hin. simpl. repeat split; lra.
Qed.

Lemma releasing_a_key_clears_its_axis_witness :
  In "s"%string ["w"; "up"; "s"; "down"]%string
  /\ Interactive.input_forward
       (Interactive.on_key_release "s"
          (Interactive.on_key_press "s" Interactive.walking_start)) = 0.
Proof.
  assert (H : In "s"%string ["w"; "up"; "s"; "down"]%string)
    by (simpl; tauto).
  split; [exact H |].
  exact (proj1 (proj1 (releasing_a_key_clears_its_axis "s"
                         (Interactive.on_key_press "s"
                            Interactive.walking_start)) H)).
Defined.

(** ** The motion of the scripted variant *)

Section ScriptedMotion.
Import Np Standalone.

Lemma update_motion_direction_time dt st :
  direction (update_motion dt st) = direction st
  /\ time (update_motion dt st) = time st.
Proof.
  unfold update_motion. simpl. destruct (gtb _ 0.1); split; reflexivity.
Qed.

(** What [update] leaves of the motion step: the rotation and lean steps
    write neither the velocity, the position, the ground speed, the
    direction nor the time. *)
Lemma update_keeps_motion fuel dt s s' :
  update fuel dt s = Some s' ->
  let st := update_motion dt (set_time (state s) (time (state s) + dt)) in
  velocity (state s') = velocity st
  /\ position (state s') = position st
  /\ ground_speed (state s') = ground_speed st
  /\ direction (state s') = direction (state s)
  /\ time (state s') = time (state s) + dt
  /\ path_index s' = path_index s.
Proof.
  unfold update, update_rotation. intros H. cbv zeta.
  set (st := update_motion dt _) in *.
  assert (Hd : direction st = direction (state s)).
  { subst st. now rewrite (proj1 (update_motion_direction_time _ _)). }
  assert (Ht : time st = time (state s) + dt).
  { subst st. now rewrite (proj2 (update_motion_direction_time _ _)). }
  destruct (gtb (ground_speed st) 0.1).
  - destruct (normalized_angle_diff fuel st) as [d |]; [| discriminate].
    inversion H; subst s'. split; [reflexivity |]. split; [reflexivity |].
    split; [reflexivity |]. split; [rewrite <- Hd; reflexivity |].
    split; [rewrite <- Ht; reflexivity | reflexivity].
  - inversion H; subst s'. split; [reflexivity |]. split; [reflexivity |].
    split; [reflexivity |]. split; [rewrite <- Hd; reflexivity |].
    split; [rewrite <- Ht; reflexivity | reflexivity].
Qed.

Lemma update_motion_far dt st :
  0.1 < norm (vsub (target_pos st) (position st)) ->
  velocity (update_motion dt st)
  = vscale (vdiv (vsub (target_pos st) (position st))
              (norm (vsub (target_pos st) (position st)))) walk_speed
  /\ position (update_motion dt st)
     = vadd (position st) (vscale (velocity (update_motion dt st)) dt).
Proof.
  intros H. unfold update_motion.
  assert (E : gtb (norm (vsub (target_pos st) (position st))) 0.1 = true)
    by now apply gtb_true.
  rewrite E. split; reflexivity.
Qed.

Lemma update_motion_near dt st :
  norm (vsub (target_pos st) (position st)) <= 0.1 ->
  velocity (update_motion dt st) = vscale (velocity st) 0.9.
Proof.
  intros H. unfold update_motion.
  assert (E : gtb (norm (vsub (target_pos st) (position st))) 0.1 = false)
    by now apply gtb_false.
  rewrite E. reflexivity.
Qed.

Lemma update_motion_speed dt st :
  ground_speed (update_motion dt st) = walk_speed
  \/ ground_speed (update_motion dt st) = 0.9 * norm (velocity st).
Proof.
  change (ground_speed (update_motion dt st))
    with (norm (velocity (update_motion dt st))).
  destruct (Rlt_dec 0.1 (norm (vsub (target_pos st) (position st))))
    as [Hfar | Hnear].
  - left. rewrite (proj1 (update_motion_far dt st Hfar)).
    rewrite norm_vscale, norm_unit by lra.
    unfold walk_speed. rewrite Rabs_right; lra.
  - right. rewrite update_motion_near by lra.
    rewrite norm_vscale, Rabs_right; lra.
Qed.

End ScriptedMotion.

(** X12. In the scripted variant every tick leaves the ground speed either
    at [walk_speed] (target farther than 0.1) or at 0.9 times the speed
    before (target within 0.1); so in every state the animation reaches the
    ground speed is between 0 and [walk_speed = 2]. *)
Theorem scripted_speed_is_walk_speed_or_decays :
  (forall fuel dt s s',
      Standalone.update fuel dt s = Some s' ->
      Standalone.ground_speed (Standalone.state s') = Standalone.walk_speed
      \/ Standalone.ground_speed (Standalone.state s')
         = 0.9 * Np.norm (Standalone.velocity (Standalone.state s)))
  /\ (forall s,
         Standalone.reachable s ->
         0 <= Standalone.ground_speed (Standalone.state s)
         <= Standalone.walk_speed).
Proof.
  assert (Hstep : forall fuel dt s s',
             Standalone.update fuel dt s = Some s' ->
             Standalone.ground_speed (Standalone.state s')
             = Standalone.walk_speed
             \/ Standalone.ground_speed (Standalone.state s')
                = 0.9 * Np.norm (Standalone.velocity (Standalone.state s))).
  { intros fuel dt s s' H.
    destruct (update_keeps_motion fuel dt s s' H) as (_ & _ & Hg & _).
    rewrite Hg.
    destruct (update_motion_speed dt
                (Standalone.set_time (Standalone.state s)
                   (Standalone.time (Standalone.state s) + dt)))
      as [H1 | H2]; [left; exact H1 | right; exact H2]. }
  split; [exact Hstep |].
  intros s Hs.
  assert (H : Standalone.ground_speed (Standalone.state s)
              = Np.norm (Standalone.velocity (Standalone.state s))
              /\ Np.norm (Standalone.velocity (Standalone.state s))
                 <= Standalone.walk_speed).
  { induction Hs as [| s s' Hs [IHg IHn] [fuel Hup]].
    - simpl. rewrite norm_zero. unfold Standalone.walk_speed. lra.
    - pose proof (standalone_update_ground_speed _ _ _ _ Hup) as Hg.
      split; [exact Hg |]. rewrite <- Hg.
      destruct (Hstep _ _ _ _ Hup) as [-> | ->];
        unfold Standalone.walk_speed in *; lra. }
  destruct H as [-> H]. split; [apply norm_nonneg | exact H].
Qed.

Lemma scripted_speed_is_walk_speed_or_decays_witness :
  Standalone.reachable Standalone.init
  /\ 0 <= Standalone.ground_speed (Standalone.state Standalone.init)
     <= Standalone.walk_speed.
Proof.
  split; [apply Standalone.reachable_init |].
  exact (proj2 scripted_speed_is_walk_speed_or_decays _
           Standalone.reachable_init).
Defined.

(** X13. In the scripted variant, a tick whose target is farther than 0.1
    and at least [walk_speed * dt] away moves the character straight
    toward the target: the distance to the target shrinks by exactly
    [walk_speed * dt], and the ground speed is [walk_speed]. *)
Theorem scripted_tick_closes_in_on_target
  (fuel : nat) (dt : R) (s s' : Standalone.ProceduralCharacter) :
  let target :=
    Standalone.target_pos
      (Standalone.set_time (Standalone.state s)
         (Standalone.time (Standalone.state s) + dt)) in
  let distance :=
    Np.norm (Np.vsub target (Standalone.position (Standalone.state s))) in
  0.1 < distance -> 0 <= dt -> Standalone.walk_speed * dt <= distance ->
  Standalone.update fuel dt s = Some s' ->
  Np.norm (Np.vsub target (Standalone.position (Standalone.state s')))
  = distance - Standalone.walk_speed * dt
  /\ Standalone.ground_speed (Standalone.state s') = Standalone.walk_speed.
Proof.
  cbv zeta. intros Hfar Hdt Hstep Hup.
  destruct (update_keeps_motion fuel dt s s' Hup)
    as (_ & Hp & Hg & _).
  set (st1 := Standalone.set_time (Standalone.state s)
                (Standalone.time (Standalone.state s) + dt)) in *.
  change (Standalone.position (Standalone.state s))
    with (Standalone.position st1) in *.
  destruct (update_motion_far dt st1 Hfar) as [Hv Hpos].
  set (d := Np.vsub (Standalone.target_pos st1) (Standalone.position st1))
    in *.
  set (D := Np.norm d) in *.
  assert (HD : 0 < D) by lra.
  split.
  - rewrite Hp, Hpos, Hv.
    assert (E : Np.vsub (Standalone.target_pos st1)
                  (Np.vadd (Standalone.position st1)
                     (Np.vscale
                        (Np.vscale (Np.vdiv d D) Standalone.walk_speed) dt))
                = Np.vscale d (1 - Standalone.walk_speed * dt / D)).
    { subst d. unfold Np.vsub, Np.vadd, Np.vscale, Np.vdiv. simpl.
      f_equal; field; lra. }
    rewrite E, norm_vscale. fold D.
    assert (Hk : 0 <= 1 - Standalone.walk_speed * dt / D).
    { assert (Standalone.walk_speed * dt / D <= 1).
      { apply (Rmult_le_reg_r D); [lra |].
        unfold Rdiv. rewrite Rmult_assoc, Rinv_l by lra. lra. }
      lra. }
    rewrite Rabs_right by lra. field. lra.
  - rewrite Hg.
    change (Standalone.ground_speed (Standalone.update_motion dt st1))
      with (Np.norm (Standalone.velocity (Standalone.update_motion dt st1))).
    rewrite Hv, norm_vscale. unfold D. rewrite norm_unit by exact HD.
    unfold Standalone.walk_speed. rewrite Rabs_right; lra.
Qed.

Lemma scripted_tick_closes_in_on_target_witness :
  exists s',
    Standalone.update 1 Standalone.frame_dt (Standalone.heading_east 0)
    = Some s'
    /\ Standalone.ground_speed (Standalone.state s')
       = Standalone.walk_speed.
Proof.
  pose proof PI_RGT_0 as HPI.
  destruct (heading_east_update 0) as (s' & Hup & _); [lra |].
  exists s'. split; [exact Hup |].
  assert (Hd : Np.vsub
                 (Standalone.target_pos
                    (Standalone.set_time
                       (Standalone.state (Standalone.heading_east 0))
                       (Standalone.time
                          (Standalone.state (Standalone.heading_east 0))
                        + Standalone.frame_dt)))
                 (Standalone.position
                    (Standalone.state (Standalone.heading_east 0)))
               = (1, 0)).
  { unfold Np.vsub, Standalone.target_pos, Standalone.frame_dt. simpl.
    replace ((0 + 1.0 / 30.0) * 0.3) with 0.01 by lra.
    f_equal; lra. }
  refine (proj2 (scripted_tick_closes_in_on_target 1 Standalone.frame_dt
                   (Standalone.heading_east 0) s' _ _ _ Hup)).
  - rewrite Hd, norm_x_axis, Rabs_R1. lra.
  - unfold Standalone.frame_dt. lra.
  - rewrite Hd, norm_x_axis, Rabs_R1.
    unfold Standalone.walk_speed, Standalone.frame_dt. lra.
Defined.

(** X14. The target of the scripted variant runs on a closed figure-8
    inside the box [-3, 3] x [-1.5, 1.5]: at every time it lies in the box,
    and it comes back to the same point after [2 * PI / 0.3] seconds. *)
Theorem figure_eight_target_is_bounded_and_periodic
  (st : Standalone.CharacterState) :
  -3 <= fst (Standalone.target_pos st) <= 3
  /\ -1.5 <= snd (Standalone.target_pos st) <= 1.5
  /\ Standalone.target_pos
       (Standalone.set_time st (Standalone.time st + 2 * PI / 0.3))
     = Standalone.target_pos st.
Proof.
  unfold Standalone.target_pos. simpl.
  pose proof (SIN_bound (Standalone.time st * 0.3)) as H1.
  pose proof (SIN_bound (2 * (Standalone.time st * 0.3))) as H2.
  split; [lra |]. split; [lra |].
  replace ((Standalone.time st + 2 * PI / 0.3) * 0.3)
    with (Standalone.time st * 0.3 + 2 * PI) by (field; lra).
  replace (2 * (Standalone.time st * 0.3 + 2 * PI))
    with (2 * (Standalone.time st * 0.3) + 2 * INR 2 * PI)
    by (simpl; ring).
  rewrite sin_period, sin_plus. rewrite sin_2PI, cos_2PI.
  f_equal; ring.
Qed.

(** X15. [update] of the scripted variant never writes the [direction]
    field of the state nor the character's [path_index]: a call leaves both
    as they are, so in every state the animation reaches both still have
    the value 0 that [__init__] gave them. *)
Theorem direction_and_path_index_are_never_written :
  (forall fuel dt s s',
      Standalone.update fuel dt s = Some s' ->
      Standalone.direction (Standalone.state s')
      = Standalone.direction (Standalone.state s)
      /\ Standalone.path_index s' = Standalone.path_index s)
  /\ (forall s,
         Standalone.reachable s ->
         Standalone.direction (Standalone.state s) = 0
         /\ Standalone.path_index s = 0%Z).
Proof.
  assert (Hstep : forall fuel dt s s',
             Standalone.update fuel dt s = Some s' ->
             Standalone.direction (Standalone.state s')
             = Standalone.direction (Standalone.state s)
             /\ Standalone.path_index s' = Standalone.path_index s).
  { intros fuel dt s s' H.
    destruct (update_keeps_motion fuel dt s s' H)
      as (_ & _ & _ & Hd & _ & Hp).
    split; assumption. }
  split; [exact Hstep |].
  intros s Hs. induction Hs as [| s s' Hs [IHd IHp] [fuel Hup]].
  - split; reflexivity.
  - destruct (Hstep _ _ _ _ Hup) as [-> ->]. split; assumption.
Qed.

Lemma direction_and_path_index_are_never_written_witness :
  Standalone.reachable Standalone.init
  /\ Standalone.direction (Standalone.state Standalone.init) = 0
  /\ Standalone.path_index Standalone.init = 0%Z.
Proof.
  split; [apply Standalone.reachable_init |].
  exact (proj2 direction_and_path_index_are_never_written _
           Standalone.reachable_init).
Defined.

(** X16. The clock of the character: [n] calls of [update dt] move [time]
    forward by [n * dt], in the keyboard variant and, when the calls
    return, in the scripted one. *)
Theorem time_advances_by_dt_each_tick :
  (forall n dt s,
      Interactive.time (Interactive.run n dt s)
      = Interactive.time s + INR n * dt)
  /\ (forall fuel n dt s s',
         Standalone.run fuel n dt s = Some s' ->
         Standalone.time (Standalone.state s')
         = Standalone.time (Standalone.state s) + INR n * dt).
Proof.
  split.
  - intros n dt s. induction n as [| n IH].
    + simpl. ring.
    + change (Interactive.run (S n) dt s)
        with (Interactive.update dt (Interactive.run n dt s)).
      assert (Ht : forall x,
                 Interactive.time (Interactive.update dt x)
                 = Interactive.time x + dt).
      { intros x. unfold Interactive.update, Interactive.update_lean,
          Interactive.update_position, Interactive.update_velocity,
          Interactive.update_rotation.
        simpl. destruct (Np.gtb _ 0.001); simpl;
          destruct (Np.neqb _ 0); reflexivity. }
      rewrite Ht, IH, S_INR. ring.
  - intros fuel n dt s. induction n as [| n IH]; intros s' H.
    + simpl in H. inversion H; subst. simpl. ring.
    + simpl in H.
      destruct (Standalone.run fuel n dt s) as [s1 |] eqn:E;
        [| discriminate].
      destruct (update_keeps_motion fuel dt s1 s' H)
        as (_ & _ & _ & _ & Ht & _).
      rewrite Ht, (IH s1 eq_refl), S_INR. ring.
Qed.

Lemma time_advances_by_dt_each_tick_witness :
  exists fuel s',
    Standalone.run fuel 1 Standalone.frame_dt Standalone.init = Some s'
    /\ Standalone.time (Standalone.state s')
       = Standalone.time (Standalone.state Standalone.init)
         + INR 1 * Standalone.frame_dt.
Proof.
  destruct (update_total Standalone.frame_dt Standalone.init)
    as (fuel & s' & H).
  exists fuel, s'.
  assert (Hrun : Standalone.run fuel 1 Standalone.frame_dt Standalone.init
                 = Some s') by exact H.
  split; [exact Hrun |].
  exact (proj2 time_advances_by_dt_each_tick fuel 1%nat
           Standalone.frame_dt Standalone.init s' Hrun).
Defined.

(** ** The trails of the two windows *)

Section Trails.
Import Np Py.

(** Appending to a list of at most [cap] elements and dropping the first
    element when there are more than [cap] keeps the last [cap] ones. *)
Lemma capped_append (cap : nat) (x y : R) (tx ty : list R) :
  List.length tx = List.length ty -> (List.length tx <= cap)%nat ->
  (if (cap <? List.length (append tx x))%nat
   then bind (pop0 (append tx x)) (fun px =>
        bind (pop0 (append ty y)) (fun py => Ok (snd px, snd py)))
   else Ok (append tx x, append ty y))
  = Ok (skipn (S (List.length tx) - cap) (tx ++ [x]),
        skipn (S (List.length ty) - cap) (ty ++ [y])).
Proof.
  intros Hlen Hcap. unfold append.
  rewrite <- Hlen, length_app. simpl List.length.
  replace (List.length tx + 1)%nat with (S (List.length tx)) by lia.
  destruct (cap <? S (List.length tx))%nat eqn:E.
  - apply Nat.ltb_lt in E.
    replace (S (List.length tx) - cap)%nat with 1%nat by lia.
    destruct tx as [| a tx]; destruct ty as [| b ty];
      try discriminate Hlen; reflexivity.
  - apply Nat.ltb_ge in E.
    replace (S (List.length tx) - cap)%nat with 0%nat by lia.
    reflexivity.
Qed.

End Trails.

Section StandaloneTrail.
Import Np Py StandaloneUI.

(** The trail lists have the same length and at most 100 elements. *)
Lemma standalone_update_frame_trail fuel r :
  List.length (trail_x r) = List.length (trail_y r) ->
  (List.length (trail_x r) <= 100)%nat ->
  update_frame fuel r = Raise OutOfFuel
  \/ exists c,
       Standalone.update fuel (1.0 / 30.0) (character r) = Some c
       /\ update_frame fuel r
          = Ok {| character := c;
                  body_line :=
                    InteractiveUI.segment (hip (Standalone.skeleton c))
                      (spine_top (Standalone.skeleton c));
                  left_leg_line :=
                    InteractiveUI.segment (hip (Standalone.skeleton c))
                      (left_foot (Standalone.skeleton c));
                  right_leg_line :=
                    InteractiveUI.segment (hip (Standalone.skeleton c))
                      (right_foot (Standalone.skeleton c));
                  left_arm_line :=
                    InteractiveUI.segment (spine_top (Standalone.skeleton c))
                      (left_hand (Standalone.skeleton c));
                  right_arm_line :=
                    InteractiveUI.segment (spine_top (Standalone.skeleton c))
                      (right_hand (Standalone.skeleton c));
                  head_circle := head (Standalone.skeleton c);
                  trail_line :=
                    (skipn (S (List.length (trail_x r)) - 100)
                       (trail_x r
                        ++ [fst (Standalone.position (Standalone.state c))]),
                     skipn (S (List.length (trail_y r)) - 100)
                       (trail_y r
                        ++ [snd (Standalone.position (Standalone.state c))]));
                  trail_x :=
                    skipn (S (List.length (trail_x r)) - 100)
                      (trail_x r
                       ++ [fst (Standalone.position (Standalone.state c))]);
                  trail_y :=
                    skipn (S (List.length (trail_y r)) - 100)
                      (trail_y r
                       ++ [snd (Standalone.position (Standalone.state c))])
               |}.
Proof.
  intros Hlen Hcap. unfold update_frame.
  destruct (Standalone.update fuel (1.0 / 30.0) (character r)) as [c |];
    [right | left; reflexivity].
  exists c. split; [reflexivity |].
  unfold Standalone.get_skeleton_points, update_trail.
  rewrite (capped_append 100 _ _ _ _ Hlen Hcap). reflexivity.
Qed.

(** With the trail lists as above, a frame fails only when the loops of
    the character's [update] run out of [fuel]. *)
Lemma standalone_update_frame_out_of_fuel fuel r :
  List.length (trail_x r) = List.length (trail_y r) ->
  (List.length (trail_x r) <= 100)%nat ->
  update_frame fuel r = Raise OutOfFuel ->
  Standalone.update fuel (1.0 / 30.0) (character r) = None.
Proof.
  intros Hlen Hcap. unfold update_frame.
  destruct (Standalone.update fuel (1.0 / 30.0) (character r)) as [c |];
    [| reflexivity].
  unfold Standalone.get_skeleton_points, update_trail.
  rewrite (capped_append 100 _ _ _ _ Hlen Hcap). discriminate.
Qed.

(** What a frame that returns has done to the trail. *)
Lemma standalone_update_frame_returns fuel r r' :
  List.length (trail_x r) = List.length (trail_y r) ->
  (List.length (trail_x r) <= 100)%nat ->
  update_frame fuel r = Ok r' ->
  let hip := Standalone.position (Standalone.state (character r')) in
  Standalone.update fuel (1.0 / 30.0) (character r) = Some (character r')
  /\ trail_x r'
     = skipn (S (List.length (trail_x r)) - 100) (trail_x r ++ [fst hip])
  /\ trail_y r'
     = skipn (S (List.length (trail_y r)) - 100) (trail_y r ++ [snd hip])
  /\ trail_line r' = (trail_x r', trail_y r')
  /\ List.length (trail_x r') = List.length (trail_y r')
  /\ List.length (trail_x r') = Nat.min (S (List.length (trail_x r))) 100.
Proof.
  intros Hlen Hcap Hr.
  destruct (standalone_update_frame_trail fuel r Hlen Hcap)
    as [Hout | (c & Hc & Hok)].
  - rewrite Hout in Hr. discriminate.
  - rewrite Hok in Hr. inversion Hr; subst r'. cbv zeta.
    cbn [trail_x trail_y trail_line character].
    split; [exact Hc |]. split; [reflexivity |]. split; [reflexivity |].
    split; [reflexivity |].
    rewrite !length_skipn, !length_app. simpl List.length. lia.
Qed.

(** A frame returns: there is a bound from which the loops of the
    character's [update] end, and from it on the frame returns the same
    renderer. *)
Lemma standalone_update_frame_total r :
  List.length (trail_x r) = List.length (trail_y r) ->
  (List.length (trail_x r) <= 100)%nat ->
  exists fuel0 r',
    forall fuel, (fuel0 <= fuel)%nat -> update_frame fuel r = Ok r'.
Proof.
  intros Hlen Hcap.
  destruct (update_total (1.0 / 30.0) (character r)) as (fuel0 & c & Hc).
  destruct (standalone_update_frame_trail fuel0 r Hlen Hcap)
    as [Hout | (c0 & Hc0 & Hok0)].
  { apply (standalone_update_frame_out_of_fuel _ _ Hlen Hcap) in Hout.
    congruence. }
  assert (c0 = c) by congruence. subst c0.
  eexists fuel0, _. intros fuel Hle.
  destruct (standalone_update_frame_trail fuel r Hlen Hcap)
    as [Hout | (c1 & Hc1 & Hok1)].
  { apply (standalone_update_frame_out_of_fuel _ _ Hlen Hcap) in Hout.
    rewrite (update_mono _ _ _ _ _ Hc Hle) in Hout. discriminate. }
  rewrite (update_mono _ _ _ _ _ Hc Hle) in Hc1.
  injection Hc1 as Hc1. subst c1. exact Hok1.
Qed.

(** The lengths of the trail lists after [n] frames that returned. *)
Lemma standalone_frames_trail fuel n r :
  frames fuel n init = Ok r ->
  List.length (trail_x r) = Nat.min n 100
  /\ List.length (trail_y r) = Nat.min n 100.
Proof.
  revert r. induction n as [| n IH]; intros r H.
  - simpl in H. inversion H; subst r. split; reflexivity.
  - simpl in H.
    destruct (frames fuel n init) as [r0 | e] eqn:E; [| discriminate].
    simpl in H. destruct (IH r0 eq_refl) as [Hx Hy].
    destruct (standalone_update_frame_returns fuel r0 r) as
      (_ & _ & _ & _ & Heq & Hmin); [lia | lia | exact H |].
    rewrite <- Heq, Hmin, Hx. lia.
Qed.

(** [n] frames from the fresh window return. *)
Lemma standalone_frames_total n :
  exists fuel0 r,
    forall fuel, (fuel0 <= fuel)%nat -> frames fuel n init = Ok r.
Proof.
  induction n as [| n (fuel1 & r0 & H0)].
  - exists O, init. intros fuel _. reflexivity.
  - destruct (standalone_frames_trail fuel1 n r0 (H0 fuel1 (le_n _)))
      as [Hx Hy].
    destruct (standalone_update_frame_total r0) as (fuel2 & r & Hr);
      [lia | lia |].
    exists (Nat.max fuel1 fuel2), r. intros fuel Hle.
    simpl. rewrite (H0 fuel) by lia. simpl. apply Hr. lia.
Qed.

End StandaloneTrail.

(** X17. The trail of the scripted window.  When the two trail lists have
    the same length, at most 100, a frame returns (for every bound on the
    loops of the character's [update] from some bound on, and with the
    same renderer), and it never ends with an [IndexError]; the renderer
    it returns has, in each list, the old list with the hip coordinate of
    the updated character appended, cut to its last 100 elements, the
    drawn trail is these two lists, and the lengths are again equal and at
    most 100.  [n] frames from the fresh window return, and both lists
    then have [min n 100] elements. *)
Theorem scripted_trail_keeps_the_last_100_hips :
  (forall r,
      List.length (StandaloneUI.trail_x r)
      = List.length (StandaloneUI.trail_y r) ->
      (List.length (StandaloneUI.trail_x r) <= 100)%nat ->
      exists fuel0 r',
        forall fuel, (fuel0 <= fuel)%nat ->
          StandaloneUI.update_frame fuel r = Py.Ok r')
  /\ (forall fuel r,
      List.length (StandaloneUI.trail_x r)
      = List.length (StandaloneUI.trail_y r) ->
      (List.length (StandaloneUI.trail_x r) <= 100)%nat ->
      StandaloneUI.update_frame fuel r <> Py.Raise Py.IndexError
      /\ forall r',
           StandaloneUI.update_frame fuel r = Py.Ok r' ->
           let hip :=
             Standalone.position
               (Standalone.state (StandaloneUI.character r')) in
           Standalone.update fuel (1.0 / 30.0) (StandaloneUI.character r)
           = Some (StandaloneUI.character r')
           /\ StandaloneUI.trail_x r'
              = skipn (S (List.length (StandaloneUI.trail_x r)) - 100)
                  (StandaloneUI.trail_x r ++ [fst hip])
           /\ StandaloneUI.trail_y r'
              = skipn (S (List.length (StandaloneUI.trail_y r)) - 100)
                  (StandaloneUI.trail_y r ++ [snd hip])
           /\ StandaloneUI.trail_line r'
              = (StandaloneUI.trail_x r', StandaloneUI.trail_y r')
           /\ List.length (StandaloneUI.trail_x r')
              = List.length (StandaloneUI.trail_y r')
           /\ List.length (StandaloneUI.trail_x r')
              = Nat.min (S (List.length (StandaloneUI.trail_x r))) 100)
  /\ (forall n,
         exists fuel0 r,
           (forall fuel, (fuel0 <= fuel)%nat ->
              StandaloneUI.frames fuel n StandaloneUI.init = Py.Ok r)
           /\ List.length (StandaloneUI.trail_x r) = Nat.min n 100
           /\ List.length (StandaloneUI.trail_y r) = Nat.min n 100)
  /\ (forall fuel n r,
         StandaloneUI.frames fuel n StandaloneUI.init = Py.Ok r ->
         List.length (StandaloneUI.trail_x r) = Nat.min n 100
         /\ List.length (StandaloneUI.trail_y r) = Nat.min n 100).
Proof.
  split; [exact standalone_update_frame_total |].
  split.
  - intros fuel r Hlen Hcap. split.
    + destruct (standalone_update_frame_trail fuel r Hlen Hcap)
        as [Hout | (c & _ & Hok)].
      * rewrite Hout. discriminate.
      * rewrite Hok. discriminate.
    + intros r' Hr.
      exact (standalone_update_frame_returns fuel r r' Hlen Hcap Hr).
  - split; [| exact standalone_frames_trail].
    intros n. destruct (standalone_frames_total n) as (fuel0 & r & Hr).
    exists fuel0, r. split; [exact Hr |].
    exact (standalone_frames_trail fuel0 n r (Hr fuel0 (le_n _))).
Qed.

Lemma scripted_trail_keeps_the_last_100_hips_witness :
  List.length (StandaloneUI.trail_x StandaloneUI.init)
  = List.length (StandaloneUI.trail_y StandaloneUI.init)
  /\ (List.length (StandaloneUI.trail_x StandaloneUI.init) <= 100)%nat
  /\ exists fuel r',
       StandaloneUI.update_frame fuel StandaloneUI.init = Py.Ok r'
       /\ List.length (StandaloneUI.trail_x r') = 1%nat
       /\ List.length (StandaloneUI.trail_y r') = 1%nat.
Proof.
  assert (H : (List.length (StandaloneUI.trail_x StandaloneUI.init)
               <= 100)%nat) by (simpl; lia).
  split; [reflexivity |]. split; [exact H |].
  destruct (proj1 scripted_trail_keeps_the_last_100_hips
              StandaloneUI.init eq_refl H) as (fuel & r' & Hr).
  exists fuel, r'.
  pose proof (Hr fuel (le_n fuel)) as Hok.
  split; [exact Hok |].
  destruct (proj2 (proj1 (proj2 scripted_trail_keeps_the_last_100_hips)
                     fuel StandaloneUI.init eq_refl H) r' Hok)
    as (_ & _ & _ & _ & Heq & Hmin).
  split; [exact Hmin | rewrite <- Heq; exact Hmin].
Defined.

Section InteractiveTrail.
Import Np Py InteractiveUI.

Lemma frame_count_mod (k : nat) :
  (Z.of_nat k mod 3 =? 0)%Z = (k mod 3 =? 0)%nat.
Proof.
  change 3%Z with (Z.of_nat 3). rewrite <- Nat2Z.inj_mod.
  destruct (k mod 3 =? 0)%nat eqn:E.
  - apply Nat.eqb_eq in E. rewrite E. reflexivity.
  - apply Nat.eqb_neq in E. apply Z.eqb_neq. lia.
Qed.

Lemma third_frame_count (n : nat) :
  ((S n) mod 3 = 0 -> (S n) / 3 = S (n / 3))%nat
  /\ ((S n) mod 3 <> 0 -> (S n) / 3 = n / 3)%nat.
Proof.
  pose proof (Nat.div_mod_eq n 3) as H1.
  pose proof (Nat.div_mod_eq (S n) 3) as H2.
  pose proof (Nat.mod_upper_bound n 3) as H3.
  pose proof (Nat.mod_upper_bound (S n) 3) as H4.
  lia.
Qed.

(** One frame of the keyboard window on trail lists of equal length, at
    most 150. *)
Lemma interactive_update_frame_trail r :
  List.length (trail_x r) = List.length (trail_y r) ->
  (List.length (trail_x r) <= 150)%nat ->
  exists r',
    update_frame r = Ok r'
    /\ character r' = Interactive.update (1.0 / 30.0) (character r)
    /\ frame_count r' = (frame_count r + 1)%Z
    /\ trail_line r' = (trail_x r', trail_y r')
    /\ (((frame_count r + 1) mod 3 =? 0)%Z = true ->
        trail_x r'
        = skipn (S (List.length (trail_x r)) - 150)
            (trail_x r ++ [fst (Interactive.position (character r'))])
        /\ trail_y r'
           = skipn (S (List.length (trail_y r)) - 150)
               (trail_y r ++ [snd (Interactive.position (character r'))]))
    /\ (((frame_count r + 1) mod 3 =? 0)%Z = false ->
        trail_x r' = trail_x r /\ trail_y r' = trail_y r).
Proof.
  intros Hlen Hcap. unfold update_frame, Interactive.get_skeleton_points.
  unfold update_trail.
  destruct ((frame_count r + 1) mod 3 =? 0)%Z.
  - rewrite (capped_append 150 _ _ _ _ Hlen Hcap).
    eexists. split; [reflexivity |].
    cbn [character frame_count trail_line trail_x trail_y fst snd bind].
    repeat split; try reflexivity; discriminate.
  - eexists. split; [reflexivity |].
    cbn [character frame_count trail_line trail_x trail_y fst snd bind].
    repeat split; try reflexivity; discriminate.
Qed.

End InteractiveTrail.

(** X18. The trail of the keyboard window.  When the two trail lists have
    the same length, at most 150, a frame always returns (no [IndexError]):
    it updates the character by 1/30 s and counts the frame; on every
    third frame each list gets the hip coordinate of the updated character
    appended and is cut to its last 150 elements, on the other frames the
    lists stay as they are.  After [n] frames from the fresh window the
    frame count is [n] and both lists have [min (n / 3) 150] elements. *)
Theorem keyboard_trail_takes_every_third_hip :
  (forall r,
      List.length (InteractiveUI.trail_x r)
      = List.length (InteractiveUI.trail_y r) ->
      (List.length (InteractiveUI.trail_x r) <= 150)%nat ->
      exists r',
        InteractiveUI.update_frame r = Py.Ok r'
        /\ InteractiveUI.character r'
           = Interactive.update (1.0 / 30.0) (InteractiveUI.character r)
        /\ InteractiveUI.frame_count r'
           = (InteractiveUI.frame_count r + 1)%Z
        /\ InteractiveUI.trail_line r'
           = (InteractiveUI.trail_x r', InteractiveUI.trail_y r')
        /\ (((InteractiveUI.frame_count r + 1) mod 3 =? 0)%Z = true ->
            InteractiveUI.trail_x r'
            = skipn (S (List.length (InteractiveUI.trail_x r)) - 150)
                (InteractiveUI.trail_x r
                 ++ [fst (Interactive.position
                            (InteractiveUI.character r'))])
            /\ InteractiveUI.trail_y r'
               = skipn (S (List.length (InteractiveUI.trail_y r)) - 150)
                   (InteractiveUI.trail_y r
                    ++ [snd (Interactive.position
                               (InteractiveUI.character r'))]))
        /\ (((InteractiveUI.frame_count r + 1) mod 3 =? 0)%Z = false ->
            InteractiveUI.trail_x r' = InteractiveUI.trail_x r
            /\ InteractiveUI.trail_y r' = InteractiveUI.trail_y r))
  /\ (forall n,
         exists r,
           InteractiveUI.frames n InteractiveUI.init = Py.Ok r
           /\ InteractiveUI.frame_count r = Z.of_nat n
           /\ List.length (InteractiveUI.trail_x r) = Nat.min (n / 3) 150
           /\ List.length (InteractiveUI.trail_y r) = Nat.min (n / 3) 150).
Proof.
  split; [exact interactive_update_frame_trail |].
  induction n as [| n (r & Hr & Hc & Hx & Hy)].
  - exists InteractiveUI.init. repeat split.
  - destruct (interactive_update_frame_trail r) as
      (r' & Hr' & _ & Hc' & _ & Hthird & Hother); [lia | lia |].
    exists r'. split; [simpl; rewrite Hr; exact Hr' |].
    split; [rewrite Hc', Hc; lia |].
    rewrite Hc in Hthird, Hother.
    replace (Z.of_nat n + 1)%Z with (Z.of_nat (S n)) in Hthird, Hother
      by lia.
    rewrite frame_count_mod in Hthird, Hother.
    destruct (third_frame_count n) as [H3 Hn3].
    destruct (S n mod 3 =? 0)%nat eqn:E.
    + apply Nat.eqb_eq in E. destruct (Hthird eq_refl) as [-> ->].
      rewrite !length_skipn, !length_app. simpl List.length.
      rewrite (H3 E). lia.
    + apply Nat.eqb_neq in E. destruct (Hother eq_refl) as [-> ->].
      rewrite (Hn3 E). lia.
Qed.

Lemma keyboard_trail_takes_every_third_hip_witness :
  List.length (InteractiveUI.trail_x InteractiveUI.init)
  = List.length (InteractiveUI.trail_y InteractiveUI.init)
  /\ (List.length (InteractiveUI.trail_x InteractiveUI.init) <= 150)%nat
  /\ exists r',
       InteractiveUI.update_frame InteractiveUI.init = Py.Ok r'
       /\ InteractiveUI.frame_count r' = 1%Z.
Proof.
  assert (H : (List.length (InteractiveUI.trail_x InteractiveUI.init)
               <= 150)%nat) by (simpl; lia).
  split; [reflexivity |]. split; [exact H |].
  destruct (proj1 keyboard_trail_takes_every_third_hip InteractiveUI.init
              eq_refl H) as (r' & Hr & _ & Hc & _).
  exists r'. split; [exact Hr | exact Hc].
Defined.

(** X19. What a frame of the keyboard window draws belongs to the
    character it has just updated: the head circle sits on the head joint,
    the body line runs from the hip to the spine top, the legs start at the
    hip and the arms at the spine top, and the nose is a segment of length
    0.25 from the head centre in the facing direction
    [(cos rotation, sin rotation)]. *)
Theorem keyboard_frame_draws_the_updated_skeleton
  (r r' : InteractiveUI.InteractiveRenderer) :
  InteractiveUI.update_frame r = Py.Ok r' ->
  let c := InteractiveUI.character r' in
  let pose := fst (Interactive.get_skeleton_points c) in
  let tip := InteractiveUI.nose (head pose) (Interactive.rotation c) in
  c = Interactive.update (1.0 / 30.0) (InteractiveUI.character r)
  /\ InteractiveUI.head_circle r' = head pose
  /\ InteractiveUI.body_line r'
     = InteractiveUI.segment (hip pose) (spine_top pose)
  /\ InteractiveUI.left_leg_line r'
     = InteractiveUI.segment (hip pose) (left_foot pose)
  /\ InteractiveUI.right_leg_line r'
     = InteractiveUI.segment (hip pose) (right_foot pose)
  /\ InteractiveUI.left_arm_line r'
     = InteractiveUI.segment (spine_top pose) (left_hand pose)
  /\ InteractiveUI.right_arm_line r'
     = InteractiveUI.segment (spine_top pose) (right_hand pose)
  /\ InteractiveUI.direction_line r'
     = InteractiveUI.segment (head pose) tip
  /\ Np.vsub tip (head pose)
     = (0.25 * cos (Interactive.rotation c),
        0.25 * sin (Interactive.rotation c))
  /\ Np.norm (Np.vsub tip (head pose)) = 0.25.
Proof.
  unfold InteractiveUI.update_frame, Interactive.get_skeleton_points.
  destruct (InteractiveUI.update_trail _ _ _ _) as [trail | e];
    [| discriminate].
  intros H. inversion H; subst r'. clear H. cbv zeta.
  cbn [InteractiveUI.character InteractiveUI.head_circle
         InteractiveUI.body_line InteractiveUI.left_leg_line
         InteractiveUI.right_leg_line InteractiveUI.left_arm_line
         InteractiveUI.right_arm_line InteractiveUI.direction_line fst].
  set (c := Interactive.update (1.0 / 30.0) (InteractiveUI.character r)).
  assert (Hv : Np.vsub
                 (InteractiveUI.nose (head (Interactive.skeleton c))
                    (Interactive.rotation c))
                 (head (Interactive.skeleton c))
               = (0.25 * cos (Interactive.rotation c),
                  0.25 * sin (Interactive.rotation c))).
  { unfold InteractiveUI.nose, Np.vsub. cbn [fst snd]. f_equal; ring. }
  repeat (split; [reflexivity |]).
  split; [exact Hv |].
  rewrite Hv.
  replace (0.25 * cos (Interactive.rotation c),
           0.25 * sin (Interactive.rotation c))
    with (Np.vscale (cos (Interactive.rotation c),
                     sin (Interactive.rotation c)) 0.25)
    by (unfold Np.vscale; cbn [fst snd]; f_equal; ring).
  rewrite norm_vscale.
  assert (Hu : Np.norm (cos (Interactive.rotation c),
                        sin (Interactive.rotation c)) = 1).
  { unfold Np.norm. cbn [fst snd].
    pose proof (sin2_cos2 (Interactive.rotation c)) as H.
    unfold Rsqr in H.
    replace (cos (Interactive.rotation c) * cos (Interactive.rotation c)
             + sin (Interactive.rotation c) * sin (Interactive.rotation c))
      with 1 by lra.
    apply sqrt_1. }
  rewrite Hu, Rabs_right; lra.
Qed.

Lemma keyboard_frame_draws_the_updated_skeleton_witness :
  exists r',
    InteractiveUI.update_frame InteractiveUI.init = Py.Ok r'
    /\ InteractiveUI.head_circle r'
       = head (fst (Interactive.get_skeleton_points
                      (InteractiveUI.character r'))).
Proof.
  eexists. split; [reflexivity |].
  refine (proj1 (proj2 (keyboard_frame_draws_the_updated_skeleton
                          InteractiveUI.init _ eq_refl))).
Defined.

(** X20. Reading the save path from the command line never ends with an
    [IndexError]: the path is the third argument when there are at least
    three and the second is exactly [--save], and there is none otherwise
    (too few arguments, [--save] without a path, another flag). *)
Theorem save_path_needs_flag_and_path (argv : list string) :
  StandaloneUI.save_path argv
  = Py.Ok match argv with
          | _ :: flag :: path :: _ =>
              if String.eqb flag "--save" then Some path else None
          | _ => None
          end.
Proof.
  destruct argv as [| prog [| flag [| path rest]]]; try reflexivity.
  unfold StandaloneUI.save_path. simpl.
  destruct (String.eqb flag "--save"); reflexivity.
Qed.

(** ** The distance covered and the angle turned in one tick *)

Section TickSteps.
Import Np.

Lemma norm_of_step (p v : vec2) (dt : R) :
  0 <= dt -> norm (vsub (vadd p (vscale v dt)) p) = norm v * dt.
Proof.
  intros Hdt.
  replace (vsub (vadd p (vscale v dt)) p) with (vscale v dt)
    by (unfold vsub, vadd, vscale; cbn [fst snd]; f_equal; ring).
  rewrite norm_vscale, Rabs_right by lra. ring.
Qed.

Lemma interactive_update_position dt s :
  Interactive.position (Interactive.update dt s)
  = vadd (Interactive.position s)
      (vscale (Interactive.velocity (Interactive.update dt s)) dt).
Proof.
  change (Interactive.position (Interactive.update dt s))
    with (vadd (Interactive.position
                  (Interactive.update_velocity dt
                     (Interactive.update_rotation dt
                        (Interactive.set_time s (Interactive.time s + dt)))))
            (vscale (Interactive.velocity (Interactive.update dt s)) dt)).
  rewrite update_velocity_position.
  unfold Interactive.update_rotation. simpl.
  destruct (neqb (Interactive.input_turn s) 0); reflexivity.
Qed.

Lemma update_motion_position dt st :
  Standalone.position (Standalone.update_motion dt st)
  = vadd (Standalone.position st)
      (vscale (Standalone.velocity (Standalone.update_motion dt st)) dt).
Proof.
  unfold Standalone.update_motion. simpl.
  destruct (gtb _ 0.1); reflexivity.
Qed.

Lemma handle_all_position es :
  forall s,
    Interactive.position (Interactive.handle_all es s)
    = Interactive.position s.
Proof.
  induction es as [| e es IH]; intros s; [reflexivity |].
  unfold Interactive.handle_all in *. simpl. rewrite IH.
  destruct e as [key | key]; simpl;
    [unfold Interactive.on_key_press | unfold Interactive.on_key_release];
    repeat match goal with
           | |- context [if ?b then _ else _] => destruct b
           end; reflexivity.
Qed.

Lemma keyboard_reachable_speed s :
  Interactive.reachable s -> norm (Interactive.velocity s) <= 68 / 45.
Proof.
  intros Hs. induction Hs as [| es s Hs IH].
  - simpl. rewrite norm_zero. lra.
  - eapply Rle_trans;
      [apply (update_speed_bound Interactive.frame_dt);
       unfold Interactive.frame_dt; lra |].
    pose proof (handle_all_speed es s) as Hes.
    unfold Interactive.friction, Interactive.acceleration,
      Interactive.frame_dt. lra.
Qed.

Lemma scripted_reachable_speed s :
  Standalone.reachable s ->
  norm (Standalone.velocity (Standalone.state s)) <= Standalone.walk_speed.
Proof.
  intros Hs. induction Hs as [| s s' Hs IH [fuel Hup]].
  - simpl. rewrite norm_zero. unfold Standalone.walk_speed. lra.
  - rewrite <- (standalone_update_ground_speed _ _ _ _ Hup).
    destruct (update_keeps_motion fuel _ s s' Hup) as (_ & _ & Hg & _).
    rewrite Hg.
    destruct (update_motion_speed Standalone.frame_dt
                (Standalone.set_time (Standalone.state s)
                   (Standalone.time (Standalone.state s)
                    + Standalone.frame_dt))) as [H1 | H2].
    + rewrite H1. lra.
    + rewrite H2. simpl Standalone.velocity.
      unfold Standalone.walk_speed in *. lra.
Qed.

End TickSteps.

(** X21. In both variants a tick moves the position by the new velocity
    times [dt], so for [dt >= 0] the distance covered is the new ground
    speed times [dt].  In one frame of 1/30 s the keyboard character never
    covers more than 68/1350 (about 0.05), whatever keys are pressed, and
    the scripted one never more than 1/15. *)
Theorem distance_covered_in_one_tick :
  (forall dt s,
      0 <= dt ->
      let s' := Interactive.update dt s in
      Interactive.position s'
      = Np.vadd (Interactive.position s)
          (Np.vscale (Interactive.velocity s') dt)
      /\ Np.norm (Np.vsub (Interactive.position s') (Interactive.position s))
         = Interactive.ground_speed s' * dt)
  /\ (forall fuel dt s s',
         0 <= dt -> Standalone.update fuel dt s = Some s' ->
         Standalone.position (Standalone.state s')
         = Np.vadd (Standalone.position (Standalone.state s))
             (Np.vscale (Standalone.velocity (Standalone.state s')) dt)
         /\ Np.norm (Np.vsub (Standalone.position (Standalone.state s'))
                       (Standalone.position (Standalone.state s)))
            = Standalone.ground_speed (Standalone.state s') * dt)
  /\ (forall es s,
         Interactive.reachable s ->
         Np.norm
           (Np.vsub
              (Interactive.position
                 (Interactive.update Interactive.frame_dt
                    (Interactive.handle_all es s)))
              (Interactive.position s))
         <= 68 / 1350)
  /\ (forall s s',
         Standalone.reachable s ->
         Standalone.step Standalone.frame_dt s s' ->
         Np.norm (Np.vsub (Standalone.position (Standalone.state s'))
                    (Standalone.position (Standalone.state s)))
         <= 1 / 15).
Proof.
  assert (HI : forall dt s,
             0 <= dt ->
             let s' := Interactive.update dt s in
             Interactive.position s'
             = Np.vadd (Interactive.position s)
                 (Np.vscale (Interactive.velocity s') dt)
             /\ Np.norm (Np.vsub (Interactive.position s')
                           (Interactive.position s))
                = Interactive.ground_speed s' * dt).
  { intros dt s Hdt. cbv zeta.
    split; [apply interactive_update_position |].
    rewrite interactive_update_position at 1.
    rewrite norm_of_step by exact Hdt.
    now rewrite interactive_update_ground_speed. }
  assert (HS : forall fuel dt s s',
             0 <= dt -> Standalone.update fuel dt s = Some s' ->
             Standalone.position (Standalone.state s')
             = Np.vadd (Standalone.position (Standalone.state s))
                 (Np.vscale (Standalone.velocity (Standalone.state s')) dt)
             /\ Np.norm (Np.vsub (Standalone.position (Standalone.state s'))
                           (Standalone.position (Standalone.state s)))
                = Standalone.ground_speed (Standalone.state s') * dt).
  { intros fuel dt s s' Hdt Hup.
    destruct (update_keeps_motion fuel dt s s' Hup) as (Hv & Hp & _).
    assert (E : Standalone.position (Standalone.state s')
                = Np.vadd (Standalone.position (Standalone.state s))
                    (Np.vscale (Standalone.velocity (Standalone.state s'))
                       dt)).
    { rewrite Hp, Hv.
      exact (update_motion_position dt
               (Standalone.set_time (Standalone.state s)
                  (Standalone.time (Standalone.state s) + dt))). }
    split; [exact E |].
    rewrite E at 1. rewrite norm_of_step by exact Hdt.
    now rewrite (standalone_update_ground_speed _ _ _ _ Hup). }
  split; [exact HI |]. split; [exact HS |]. split.
  - intros es s Hs.
    assert (Hdt : 0 <= Interactive.frame_dt)
      by (unfold Interactive.frame_dt; lra).
    rewrite <- (handle_all_position es s).
    rewrite (proj2 (HI _ (Interactive.handle_all es s) Hdt)).
    rewrite interactive_update_ground_speed.
    pose proof (update_speed_bound _ (Interactive.handle_all es s) Hdt)
      as Hb.
    pose proof (handle_all_speed es s) as Hes.
    pose proof (keyboard_reachable_speed s Hs) as Hn.
    unfold Interactive.friction, Interactive.acceleration,
      Interactive.frame_dt in *.
    set (v := Np.norm (Interactive.velocity
                         (Interactive.update (1.0 / 30.0)
                            (Interactive.handle_all es s)))) in *.
    lra.
  - intros s s' Hs [fuel Hup].
    assert (Hdt : 0 <= Standalone.frame_dt)
      by (unfold Standalone.frame_dt; lra).
    rewrite (proj2 (HS _ _ _ _ Hdt Hup)).
    assert (Hs' : Standalone.reachable s')
      by (apply (Standalone.reachable_tick s); [exact Hs | now exists fuel]).
    rewrite (standalone_update_ground_speed _ _ _ _ Hup).
    pose proof (scripted_reachable_speed s' Hs') as Hn.
    unfold Standalone.walk_speed, Standalone.frame_dt in *.
    set (v := Np.norm (Standalone.velocity (Standalone.state s'))) in *.
    lra.
Qed.

Lemma distance_covered_in_one_tick_witness :
  0 <= Interactive.frame_dt
  /\ Np.norm (Np.vsub
                (Interactive.position
                   (Interactive.update Interactive.frame_dt
                      Interactive.coasting))
                (Interactive.position Interactive.coasting))
     = Interactive.ground_speed
         (Interactive.update Interactive.frame_dt Interactive.coasting)
       * Interactive.frame_dt.
Proof.
  assert (H : 0 <= Interactive.frame_dt)
    by (unfold Interactive.frame_dt; lra).
  split; [exact H |].
  exact (proj2 (proj1 distance_covered_in_one_tick
                  Interactive.frame_dt Interactive.coasting H)).
Defined.

Section ScriptedTurn.
Import Np Standalone.

Lemma update_motion_rotation dt st :
  rotation (update_motion dt st) = rotation st.
Proof.
  unfold update_motion. simpl. destruct (gtb _ 0.1); reflexivity.
Qed.

(** The rotation and the lean after a call, from the angle difference. *)
Lemma update_turn fuel dt s s' :
  update fuel dt s = Some s' ->
  exists d,
    - PI <= d <= PI
    /\ (ground_speed (state s') <= 0.1 -> d = 0)
    /\ rotation (state s') = rotation (state s) + d * 5.0 * dt
    /\ lean_angle (state s')
       = lean_angle (state s)
         + (target_lean dt d - lean_angle (state s)) * lean_interp_speed * dt.
Proof.
  intros Hup.
  destruct (update_keeps_motion fuel dt s s' Hup) as (_ & _ & Hg & _).
  revert Hup Hg. unfold update, update_rotation.
  set (st := update_motion dt _).
  assert (Hr : rotation st = rotation (state s))
    by (subst st; now rewrite update_motion_rotation).
  assert (Hl : lean_angle st = lean_angle (state s))
    by (subst st; now rewrite update_motion_lean_angle).
  clearbody st.
  destruct (gtb (ground_speed st) 0.1) eqn:E.
  - destruct (normalized_angle_diff fuel st) as [d |] eqn:Hd;
      [| discriminate].
    intros H Hg. inversion H; subst s'. clear H. exists d.
    split; [exact (normalized_angle_diff_range _ _ _ Hd) |].
    apply gtb_true in E. simpl in Hg. simpl.
    split; [intros Hslow; lra |].
    rewrite Hr, Hl. split; reflexivity.
  - intros H Hg. inversion H; subst s'. clear H. exists 0.0.
    pose proof PI_RGT_0. split; [lra |]. split; [intros _; lra |].
    simpl. rewrite Hr, Hl. split; [lra | reflexivity].
Qed.

End ScriptedTurn.

(** X22. In the scripted variant a tick of length [dt >= 0] turns the
    character by at most [5 * PI * dt], that is by at most [PI / 6]
    (30 degrees) per frame of 1/30 s.  When the tick leaves a ground speed
    of at most 0.1 the rotation is not changed at all and the lean relaxes
    toward 0. *)
Theorem scripted_turn_per_tick_is_bounded
  (fuel : nat) (dt : R) (s s' : Standalone.ProceduralCharacter) :
  0 <= dt -> Standalone.update fuel dt s = Some s' ->
  Rabs (Standalone.rotation (Standalone.state s')
        - Standalone.rotation (Standalone.state s))
  <= 5 * PI * dt
  /\ (dt = Standalone.frame_dt ->
      Rabs (Standalone.rotation (Standalone.state s')
            - Standalone.rotation (Standalone.state s))
      <= PI / 6)
  /\ (Standalone.ground_speed (Standalone.state s') <= 0.1 ->
      Standalone.rotation (Standalone.state s')
      = Standalone.rotation (Standalone.state s)
      /\ Standalone.lean_angle (Standalone.state s')
         = Standalone.lean_angle (Standalone.state s)
           + (0 - Standalone.lean_angle (Standalone.state s))
             * Standalone.lean_interp_speed * dt).
Proof.
  intros Hdt Hup.
  destruct (update_turn fuel dt s s' Hup) as (d & Hd & Hslow & Hr & Hl).
  assert (Hb : Rabs (Standalone.rotation (Standalone.state s')
                     - Standalone.rotation (Standalone.state s))
               <= 5 * PI * dt).
  { rewrite Hr. apply Rabs_le. pose proof PI_RGT_0. split; nra. }
  split; [exact Hb |]. split.
  - intros ->. unfold Standalone.frame_dt in Hb. lra.
  - intros Hg. rewrite Hr, Hl, (Hslow Hg). split; [ring |].
    unfold Standalone.target_lean, Standalone.yaw_rate,
      Standalone.max_lean_angle.
    replace (0 / Rmax dt 0.001 * 0.3) with 0 by (unfold Rdiv; ring).
    rewrite clip_inside by lra. reflexivity.
Qed.

Lemma scripted_turn_per_tick_is_bounded_witness :
  exists s',
    0 <= Standalone.frame_dt
    /\ Standalone.update 1 Standalone.frame_dt (Standalone.heading_east PI)
       = Some s'
    /\ Rabs (Standalone.rotation (Standalone.state s')
             - Standalone.rotation
                 (Standalone.state (Standalone.heading_east PI)))
       <= 5 * PI * Standalone.frame_dt.
Proof.
  pose proof PI_RGT_0 as HPI.
  destruct (heading_east_update PI) as (s' & Hup & _); [lra |].
  assert (Hdt : 0 <= Standalone.frame_dt)
    by (unfold Standalone.frame_dt; lra).
  exists s'. split; [exact Hdt |]. split; [exact Hup |].
  exact (proj1 (scripted_turn_per_tick_is_bounded 1 Standalone.frame_dt
                  (Standalone.heading_east PI) s' Hdt Hup)).
Defined.
